(** * Index-linked binomial heap (origin/heaps/binomial_heap.hpp)

    A shallow embedding of [binomial_heap<T, Compare, Item_Label>] and of
    [binomial_link], followed by the properties of the heap that the
    specification states.

    - [size_t] values are [N]; the sentinel [(size_t)-1] is [npos], and the
      one addition the code performs on a [size_t] ([degree + 1]) and the one
      subtraction ([size() - 1]) are written with their wrap-around.
    - [std::vector] is a [list]; [operator[]] outside [0 .. size()) is
      undefined behaviour in C++ and is an error of the embedding, tagged with
      the vector that was indexed.
    - every [while] loop is a [Fixpoint] on a fuel counter; running out of
      fuel is the error [Diverge]. *)

From Stdlib Require Import NArith PeanoNat List Bool Lia Permutation Sorted Finite.
Import ListNotations.
Local Open Scope N_scope.

(** ** Errors and the error monad *)

Inductive error : Type :=
| OobElements   (* elements_[i] with i >= elements_.size(), or pop_back on empty *)
| OobData       (* data_[i] with i >= data_.size() *)
| OobIndex      (* index_array[i] with i >= index_array.size() *)
| Diverge.      (* a loop did not finish within its fuel *)

Inductive result (A : Type) : Type :=
| Ok (a : A)
| Err (e : error).
Arguments Ok {A} a.
Arguments Err {A} e.

Definition bind {A B : Type} (c : result A) (k : A -> result B) : result B :=
  match c with
  | Ok a => k a
  | Err e => Err e
  end.

Notation "x <- c ;; k" := (bind c (fun x => k))
  (at level 61, c at next level, right associativity).

(** ** size_t and std::vector *)

Definition size_type := N.

Definition SIZE_WIDTH : N := 64.

(** [(size_t)-1], the "none" reference of the node arena. *)
Definition npos : size_type := 2 ^ SIZE_WIDTH - 1.

Definition wrap (n : N) : size_type := n mod 2 ^ SIZE_WIDTH.

Definition vsize {A : Type} (v : list A) : size_type := N.of_nat (length v).

(** [v.size() - 1] in [size_t] arithmetic: [-1] when [v] is empty. *)
Definition last_index {A : Type} (v : list A) : size_type :=
  wrap (vsize v + 2 ^ SIZE_WIDTH - 1).

Fixpoint list_upd {A : Type} (v : list A) (i : nat) (a : A) : list A :=
  match v, i with
  | [], _ => []
  | _ :: v', O => a :: v'
  | x :: v', S i' => x :: list_upd v' i' a
  end.

(** [v[i]] as an rvalue. *)
Definition vget {A : Type} (e : error) (v : list A) (i : size_type) : result A :=
  if i <? vsize v then
    match nth_error v (N.to_nat i) with
    | Some a => Ok a
    | None => Err e
    end
  else Err e.

(** [v[i] = a]. *)
Definition vset {A : Type} (e : error) (v : list A) (i : size_type) (a : A)
  : result (list A) :=
  if i <? vsize v then Ok (list_upd v (N.to_nat i) a) else Err e.

(** ** Nodes *)

Record binomial_heap_node : Type := mk_node {
  item_index : size_type;
  parent : size_type;
  child : size_type;
  right_sibling : size_type;
  degree : size_type
}.

(** [binomial_heap_node()] sets every link and the degree to [-1]; it leaves
    [item_index] uninitialised, so the value it holds is a parameter. *)
Definition binomial_heap_node_default (junk : size_type) : binomial_heap_node :=
  mk_node junk npos npos npos npos.

Definition set_item_index (n : binomial_heap_node) (v : size_type) :=
  mk_node v (parent n) (child n) (right_sibling n) (degree n).
Definition set_parent (n : binomial_heap_node) (v : size_type) :=
  mk_node (item_index n) v (child n) (right_sibling n) (degree n).
Definition set_child (n : binomial_heap_node) (v : size_type) :=
  mk_node (item_index n) (parent n) v (right_sibling n) (degree n).
Definition set_right_sibling (n : binomial_heap_node) (v : size_type) :=
  mk_node (item_index n) (parent n) (child n) v (degree n).
Definition set_degree (n : binomial_heap_node) (v : size_type) :=
  mk_node (item_index n) (parent n) (child n) (right_sibling n) v.

Definition arena := list binomial_heap_node.

Definition dget (d : arena) (i : size_type) : result binomial_heap_node :=
  vget OobData d i.

(** [data_[i].field = v]: one read-modify-write of the node at [i]. *)
Definition dmod (d : arena) (i : size_type)
  (f : binomial_heap_node -> binomial_heap_node) : result arena :=
  n <- dget d i ;; vset OobData d i (f n).

(** [binomial_link(data_, y, z)]. *)
Definition binomial_link (d : arena) (y z : size_type) : result arena :=
  d1 <- dmod d y (fun n => set_parent n z) ;;
  nz <- dget d1 z ;;
  d2 <- dmod d1 y (fun n => set_right_sibling n (child nz)) ;;
  d3 <- dmod d2 z (fun n => set_child n y) ;;
  nz' <- dget d3 z ;;
  dmod d3 z (fun n => set_degree n (wrap (degree nz' + 1))).

(** ** The heap *)

Section Heap.

Context {T : Type}.
Variable compare_ : T -> T -> bool.
Variable _id : T -> size_type.

(** The value read from a [size_t] that was never initialised. *)
Variable indeterminate : size_type.

Record binomial_heap : Type := mk_heap {
  elements_ : list T;
  data_ : arena;
  head_ : size_type;
  top_ : size_type;
  index_array : list size_type
}.

Definition with_data (h : binomial_heap) (d : arena) : binomial_heap :=
  mk_heap (elements_ h) d (head_ h) (top_ h) (index_array h).
Definition with_head (h : binomial_heap) (x : size_type) : binomial_heap :=
  mk_heap (elements_ h) (data_ h) x (top_ h) (index_array h).
Definition with_top (h : binomial_heap) (x : size_type) : binomial_heap :=
  mk_heap (elements_ h) (data_ h) (head_ h) x (index_array h).
Definition with_elements (h : binomial_heap) (e : list T) : binomial_heap :=
  mk_heap e (data_ h) (head_ h) (top_ h) (index_array h).
Definition with_index (h : binomial_heap) (ia : list size_type) : binomial_heap :=
  mk_heap (elements_ h) (data_ h) (head_ h) (top_ h) ia.

(** [binomial_heap(n, cmp, id)]: [index_array(n)] is value-initialised. *)
Definition binomial_heap_new (n : size_type) : binomial_heap :=
  mk_heap [] [] npos npos (repeat 0 (N.to_nat n)).

(** [binomial_heap()]: the vectors are empty; [head_] and [top_] are not
    initialised, so the values they hold are parameters. *)
Definition binomial_heap_default (head0 top0 : size_type) : binomial_heap :=
  mk_heap [] [] head0 top0 [].

(** The handle-space capacity: [index_array.size()]. *)
Definition capacity (h : binomial_heap) : size_type := vsize (index_array h).

(** [elements_[data_[x].item_index]] *)
Definition value_at (h : binomial_heap) (x : size_type) : result T :=
  n <- dget (data_ h) x ;; vget OobElements (elements_ h) (item_index n).

(** A loop over nodes is given one unit of fuel per node of the arena, and
    one more. *)
Definition fuel_of (d : arena) : nat := S (length d).

Definition top (h : binomial_heap) : result T := value_at h (top_ h).

Definition empty (h : binomial_heap) : bool := vsize (elements_ h) =? 0.

Definition size (h : binomial_heap) : size_type := vsize (elements_ h).

(** *** get_new_top *)

Fixpoint get_new_top_loop (fuel : nat) (h : binomial_heap)
  (top_index tmp : size_type) : result size_type :=
  match fuel with
  | O => Err Diverge
  | S fuel' =>
    if tmp =? npos then Ok top_index
    else
      a <- value_at h tmp ;;
      b <- value_at h top_index ;;
      let top_index' := if compare_ a b then tmp else top_index in
      nt <- dget (data_ h) tmp ;;
      get_new_top_loop fuel' h top_index' (right_sibling nt)
  end.

Definition get_new_top (h : binomial_heap) : result size_type :=
  if head_ h =? npos then Ok npos
  else
    nh <- dget (data_ h) (head_ h) ;;
    get_new_top_loop (fuel_of (data_ h)) h (head_ h) (right_sibling nh).

(** *** merge *)

Fixpoint merge_loop (fuel : nat) (d : arena) (current p q : size_type)
  : result arena :=
  match fuel with
  | O => Err Diverge
  | S fuel' =>
    if negb (p =? npos) || negb (q =? npos) then
      take_p <-
        (if q =? npos then Ok true
         else if negb (p =? npos) then
           np <- dget d p ;; nq <- dget d q ;; Ok (degree np <? degree nq)
         else Ok false) ;;
      if take_p : bool then
        d1 <- dmod d current (fun n => set_right_sibling n p) ;;
        np <- dget d1 p ;;
        merge_loop fuel' d1 p (right_sibling np) q
      else
        d1 <- dmod d current (fun n => set_right_sibling n q) ;;
        nq <- dget d1 q ;;
        merge_loop fuel' d1 q p (right_sibling nq)
    else Ok d
  end.

(** [merge(index)].  [new_head] is computed from [data_[p].degree] and
    [data_[q].degree] and never used; the two reads are performed. *)
Definition merge (h : binomial_heap) (index : size_type)
  : result binomial_heap :=
  let p := head_ h in
  let q := index in
  np <- dget (data_ h) p ;;
  nq <- dget (data_ h) q ;;
  let new_head := if N.min (degree np) (degree nq) =? 0 then q else p in
  let current := vsize (data_ h) in
  let d0 := data_ h ++ [binomial_heap_node_default indeterminate] in
  d1 <- merge_loop (fuel_of d0) d0 current p q ;;
  last <- dget d1 (last_index d1) ;;
  Ok (mk_heap (elements_ h) (removelast d1) (right_sibling last) (top_ h)
        (index_array h)).

(** *** binomial_heap_union *)

Fixpoint union_loop (fuel : nat) (h : binomial_heap)
  (prev_x x next_x : size_type) : result binomial_heap :=
  match fuel with
  | O => Err Diverge
  | S fuel' =>
    if next_x =? npos then Ok h
    else
      nx <- dget (data_ h) x ;;
      nn <- dget (data_ h) next_x ;;
      skip <-
        (if negb (degree nx =? degree nn) then Ok true
         else if negb (right_sibling nn =? npos) then
           nnn <- dget (data_ h) (right_sibling nn) ;;
           Ok (degree nnn =? degree nx)
         else Ok false) ;;
      if skip : bool then
        nn' <- dget (data_ h) next_x ;;
        union_loop fuel' h x next_x (right_sibling nn')
      else
        a <- value_at h x ;;
        b <- value_at h next_x ;;
        if compare_ a b then
          d1 <- dmod (data_ h) x (fun n => set_right_sibling n (right_sibling nn)) ;;
          d2 <- binomial_link d1 next_x x ;;
          nx' <- dget d2 x ;;
          union_loop fuel' (with_data h d2) prev_x x (right_sibling nx')
        else
          h1 <-
            (if prev_x =? npos then Ok (with_head h next_x)
             else
               d1 <- dmod (data_ h) prev_x (fun n => set_right_sibling n next_x) ;;
               Ok (with_data h d1)) ;;
          d2 <- binomial_link (data_ h1) x next_x ;;
          nx' <- dget d2 next_x ;;
          union_loop fuel' (with_data h1 d2) prev_x next_x (right_sibling nx')
  end.

Definition binomial_heap_union (h : binomial_heap) (index : size_type)
  : result binomial_heap :=
  h1 <- merge h index ;;
  nh <- dget (data_ h1) (head_ h1) ;;
  if right_sibling nh =? npos then Ok h1
  else union_loop (fuel_of (data_ h1)) h1 npos (head_ h1) (right_sibling nh).

(** *** push *)

(** The first part of [push]: the value, its node and its handle entry. *)
Definition push_node (h : binomial_heap) (d : T)
  : result (binomial_heap * size_type) :=
  let els := elements_ h ++ [d] in
  let obj := mk_node (last_index els) npos npos npos 0 in
  let dat := data_ h ++ [obj] in
  let index := last_index dat in
  ia <- vset OobIndex (index_array h) (_id d) index ;;
  Ok (mk_heap els dat (head_ h) (top_ h) ia, index).

Definition push (h : binomial_heap) (d : T) : result binomial_heap :=
  r <- push_node h d ;;
  let (h1, index) := r : binomial_heap * size_type in
  if head_ h1 =? npos then
    Ok (with_top (with_head h1 index) index)
  else
    h2 <- binomial_heap_union h1 index ;;
    a <- value_at h2 index ;;
    b <- value_at h2 (top_ h2) ;;
    if compare_ a b then Ok (with_top h2 index) else Ok h2.

(** *** update *)

Fixpoint update_loop (fuel : nat) (h : binomial_heap) (d : T)
  (index parent_ : size_type) : result (binomial_heap * size_type) :=
  match fuel with
  | O => Err Diverge
  | S fuel' =>
    continue <-
      (if negb (parent_ =? npos) then
         pv <- value_at h parent_ ;; Ok (compare_ d pv)
       else Ok false) ;;
    if continue : bool then
      ni <- dget (data_ h) index ;;
      pv <- value_at h parent_ ;;
      e1 <- vset OobElements (elements_ h) (item_index ni) pv ;;
      np <- dget (data_ h) parent_ ;;
      e2 <- vset OobElements e1 (item_index np) d ;;
      ni' <- dget (data_ h) index ;;
      moved <- vget OobElements e2 (item_index ni') ;;
      ia <- vset OobIndex (index_array h) (_id moved) index ;;
      update_loop fuel' (mk_heap e2 (data_ h) (head_ h) (top_ h) ia) d
        parent_ (parent np)
    else Ok (h, index)
  end.

Definition update (h : binomial_heap) (d : T) : result binomial_heap :=
  index <- vget OobIndex (index_array h) (_id d) ;;
  ni <- dget (data_ h) index ;;
  let parent_ := parent ni in
  e0 <- vset OobElements (elements_ h) (item_index ni) d ;;
  r <- update_loop (fuel_of (data_ h)) (with_elements h e0) d index parent_ ;;
  let (h1, index') := r : binomial_heap * size_type in
  ia <- vset OobIndex (index_array h1) (_id d) index' ;;
  let h2 := with_index h1 ia in
  tv <- value_at h2 (top_ h2) ;;
  if compare_ d tv then Ok (with_top h2 index') else Ok h2.

(** *** pop *)

(** The loop that turns the child list of the old top into a root list. *)
Fixpoint reverse_loop (fuel : nat) (d : arena) (new_head tmp_head : size_type)
  : result (arena * size_type) :=
  match fuel with
  | O => Err Diverge
  | S fuel' =>
    if tmp_head =? npos then Ok (d, new_head)
    else
      nt <- dget d tmp_head ;;
      let tmp_sibling := right_sibling nt in
      d1 <- dmod d tmp_head (fun n => set_parent n npos) ;;
      d2 <- dmod d1 tmp_head (fun n => set_right_sibling n new_head) ;;
      reverse_loop fuel' d2 tmp_head tmp_sibling
  end.

(** [while (data_[tmp].right_sibling != top_) tmp = data_[tmp].right_sibling;] *)
Fixpoint find_prev_loop (fuel : nat) (d : arena) (tmp top_index : size_type)
  : result size_type :=
  match fuel with
  | O => Err Diverge
  | S fuel' =>
    nt <- dget d tmp ;;
    if right_sibling nt =? top_index then Ok tmp
    else find_prev_loop fuel' d (right_sibling nt) top_index
  end.

Definition pop_back {A : Type} (v : list A) : result (list A) :=
  match v with
  | [] => Err OobElements
  | _ => Ok (removelast v)
  end.

(** The first part of [pop]: the child list of [top_] becomes a list of
    roots; the result is the arena and [new_head]. *)
Definition pop_detach (h : binomial_heap) : result (arena * size_type) :=
  ntop <- dget (data_ h) (top_ h) ;;
  if negb (child ntop =? npos)
  then reverse_loop (fuel_of (data_ h)) (data_ h) npos (child ntop)
  else Ok (data_ h, npos).

(** [top_] leaves a root list of more than one node. *)
Definition pop_unlink (h : binomial_heap) : result binomial_heap :=
  nh <- dget (data_ h) (head_ h) ;;
  if head_ h =? top_ h then Ok (with_head h (right_sibling nh))
  else
    tmp <- find_prev_loop (fuel_of (data_ h)) (data_ h) (head_ h) (top_ h) ;;
    nt <- dget (data_ h) (top_ h) ;;
    d2 <- dmod (data_ h) tmp (fun n => set_right_sibling n (right_sibling nt)) ;;
    Ok (with_data h d2).

(** The last part of [pop]: the last value moves to [elements_[temp]], the
    node of that value is told so, the node [temp] is reset and the value
    store loses its last slot. *)
Definition pop_compact (h : binomial_heap) (temp : size_type)
  : result binomial_heap :=
  last <- vget OobElements (elements_ h) (last_index (elements_ h)) ;;
  index <- vget OobIndex (index_array h) (_id last) ;;
  e1 <- vset OobElements (elements_ h) temp last ;;
  d3 <- dmod (data_ h) index (fun n => set_item_index n temp) ;;
  d4 <- dmod d3 temp (fun n => set_parent n npos) ;;
  d5 <- dmod d4 temp (fun n => set_child n npos) ;;
  d6 <- dmod d5 temp (fun n => set_right_sibling n npos) ;;
  d7 <- dmod d6 temp (fun n => set_degree n 0) ;;
  e2 <- pop_back e1 ;;
  Ok (mk_heap e2 d7 (head_ h) (top_ h) (index_array h)).

Definition pop (h : binomial_heap) : result binomial_heap :=
  if head_ h =? npos then Ok h
  else
    let temp := top_ h in
    r <- pop_detach h ;;
    let (d1, new_head) := r : arena * size_type in
    let h1 := with_data h d1 in
    nh <- dget (data_ h1) (head_ h1) ;;
    h2 <-
      (if right_sibling nh =? npos then Ok (with_head h1 new_head)
       else h3 <- pop_unlink h1 ;; binomial_heap_union h3 new_head) ;;
    t <- get_new_top h2 ;;
    pop_compact (with_top h2 t) temp.

End Heap.


Arguments binomial_heap T : clear implicits.

(** ** Sequences of operations and reachable states *)

Inductive operation (T : Type) : Type :=
| Push (d : T)
| Update (d : T)
| Pop.
Arguments Push {T} d.
Arguments Update {T} d.
Arguments Pop {T}.

Section Runs.

Context {T : Type}.
Variable compare_ : T -> T -> bool.
Variable _id : T -> size_type.
Variable indeterminate : size_type.

Definition step (h : binomial_heap T) (o : operation T)
  : result (binomial_heap T) :=
  match o with
  | Push d => push compare_ _id indeterminate h d
  | Update d => update compare_ _id h d
  | Pop => pop compare_ _id indeterminate h
  end.

Fixpoint run (h : binomial_heap T) (ops : list (operation T))
  : result (binomial_heap T) :=
  match ops with
  | [] => Ok h
  | o :: ops' => h' <- step h o ;; run h' ops'
  end.

(** The states a heap built by [binomial_heap(n, cmp, id)] can be in. *)
Inductive reachable (n : size_type) : binomial_heap T -> Prop :=
| reach_new : reachable n (binomial_heap_new n)
| reach_step h o h' :
    reachable n h -> step h o = Ok h' -> reachable n h'.

(** Number of insertions and of extractions in a sequence. *)
Definition count_push (ops : list (operation T)) : N :=
  vsize (filter (fun o => match o with Push _ => true | _ => false end) ops).
Definition count_pop (ops : list (operation T)) : N :=
  vsize (filter (fun o => match o with Pop => true | _ => false end) ops).

(** Every [Pop] of the sequence is run on a heap with [empty() == false],
    and no operation fails. *)
Fixpoint pops_on_nonempty (h : binomial_heap T) (ops : list (operation T))
  : bool :=
  match ops with
  | [] => true
  | o :: ops' =>
    (match o with Pop => negb (empty h) | _ => true end) &&
    match step h o with
    | Ok h' => pops_on_nonempty h' ops'
    | Err _ => false
    end
  end.

(** [pop] until [n] values have been taken, reading [top] before each. *)
Fixpoint extract (n : nat) (h : binomial_heap T)
  : result (list T * binomial_heap T) :=
  match n with
  | O => Ok ([], h)
  | S n' =>
    v <- top h ;;
    h' <- pop compare_ _id indeterminate h ;;
    r <- extract n' h' ;;
    Ok (v :: fst r, snd r)
  end.

End Runs.

(** ** Observing the root list *)

Fixpoint root_degrees_loop (fuel : nat) (d : arena) (x : size_type)
  : result (list size_type) :=
  match fuel with
  | O => Err Diverge
  | S fuel' =>
    if x =? npos then Ok []
    else
      n <- dget d x ;;
      r <- root_degrees_loop fuel' d (right_sibling n) ;;
      Ok (degree n :: r)
  end.

(** The degrees of the roots, from [head_] along [right_sibling]. *)
Definition root_degrees {T : Type} (h : binomial_heap T)
  : result (list size_type) :=
  root_degrees_loop (fuel_of (data_ h)) (data_ h) (head_ h).

Fixpoint strictly_increasing (l : list N) : bool :=
  match l with
  | [] => true
  | a :: l' =>
    match l' with
    | [] => true
    | b :: _ => (a <? b) && strictly_increasing l'
    end
  end.

(** ** A heap of keyed values

    Values are pairs of a key and a handle; the comparator orders keys by
    [<] (a min-oriented heap) and the handle function reads the handle. *)

Definition keyed : Type := N * N.
Definition key_less (a b : keyed) : bool := fst a <? fst b.
Definition handle_of (a : keyed) : size_type := snd a.

Definition kstep := step key_less handle_of 0.
Definition krun := run key_less handle_of 0.
Definition kpop := pop key_less handle_of 0.
Definition kpush := push key_less handle_of 0.
Definition kupdate := update key_less handle_of.

(** Values with the keys of [ks] and the handles [from], [from + 1], ... *)
Fixpoint keys_from (from : N) (ks : list N) : list keyed :=
  match ks with
  | [] => []
  | k :: ks' => (k, from) :: keys_from (from + 1) ks'
  end.

(** ** Reading the arena

    The link fields of a node as total functions of the arena and a node
    index; outside the arena a link reads as "none" and a degree as [0]. *)

Definition field (f : binomial_heap_node -> size_type) (dflt : size_type)
  (d : arena) (x : size_type) : size_type :=
  match dget d x with Ok n => f n | Err _ => dflt end.

Definition sib : arena -> size_type -> size_type := field right_sibling npos.
Definition chd : arena -> size_type -> size_type := field child npos.
Definition par : arena -> size_type -> size_type := field parent npos.
Definition deg : arena -> size_type -> size_type := field degree 0.
Definition itm : arena -> size_type -> size_type := field item_index npos.

(** ** The shape of the forest

    The invariant of the link structure is stated over two ghost values: the
    list [roots] of the nodes on the root list and, for every node [i], the
    list [kids i] of the nodes on its child list. *)

(** The nodes [l] are linked by [right_sibling] from [p] up to [q]. *)
Fixpoint seg (d : arena) (p : size_type) (l : list size_type) (q : size_type)
  : Prop :=
  match l with
  | [] => p = q
  | x :: l' => p = x /\ x < vsize d /\ seg d (sib d x) l' q
  end.

(** A list that ends with "none". *)
Definition chain (d : arena) (p : size_type) (l : list size_type) : Prop :=
  seg d p l npos.

Definition incr (l : list N) : Prop := StronglySorted N.lt l.
Definition decr (l : list N) : Prop := StronglySorted (fun a b => b < a) l.

(** What merging two strictly increasing lists gives: no descent, and no
    value three times in a row. *)
Fixpoint merged (l : list N) : Prop :=
  match l with
  | [] => True
  | a :: l1 =>
    match l1 with
    | [] => True
    | b :: l2 =>
      a <= b /\
      (a = b -> match l2 with [] => True | c :: _ => b < c end) /\
      merged l1
    end
  end.

Definition head_le (a : N) (l : list N) : Prop :=
  match l with [] => True | b :: _ => a <= b end.

(** The degrees seen by the consolidation loop: [pre] before [x], [dx] at
    [x], [rest] after it.  Either the list up to [x] is strictly increasing,
    or [x] was reached by skipping a root of the same degree, and then the
    next root has this degree too and the one after it has not. *)
Definition cons_inv (pre : list N) (dx : N) (rest : list N) : Prop :=
  merged rest /\ head_le dx rest /\
  (incr (pre ++ [dx]) \/
   (incr pre /\ (forall a, In a pre -> a <= dx) /\ merged (dx :: rest) /\
    exists rest', rest = dx :: rest')).

(** The merge of two lists of nodes by degree, as [merge] does it: the node
    of the first list goes first when its key is strictly smaller. *)
Fixpoint merge_lists (key : size_type -> N) (lp : list size_type)
  : list size_type -> list size_type :=
  match lp with
  | [] => fun lq => lq
  | x :: lp' =>
    fix inner (lq : list size_type) : list size_type :=
      match lq with
      | [] => x :: lp'
      | y :: lq' =>
        if key x <? key y then x :: merge_lists key lp' lq
        else y :: inner lq'
      end
  end.

Definition sum_deg (d : arena) : N :=
  fold_right (fun n s => degree n + s) 0 d.

Definition upd_kids (kids : size_type -> list size_type) (z : size_type)
  (l : list size_type) : size_type -> list size_type :=
  fun i => if i =? z then l else kids i.

(** The part of a child list that is still linked once the node [t] on it
    has lost its sibling link. *)
Fixpoint cut_at (t : size_type) (l : list size_type) : list size_type :=
  match l with
  | [] => []
  | x :: l' => if x =? t then [x] else x :: cut_at t l'
  end.

(** [ex] is the node that [pop] is removing ([npos] outside [pop]): its
    child list has been taken away and its own fields are stale. *)
Record shape (ex : size_type) (d : arena) (hd : size_type)
  (roots : list size_type) (kids : size_type -> list size_type) : Prop := {
  sh_roots : chain d hd roots;
  sh_nodup : NoDup roots;
  sh_kids : forall i, i < vsize d -> i <> ex -> chain d (chd d i) (kids i);
  sh_decr : forall i, i < vsize d -> i <> ex ->
            decr (deg d i :: map (deg d) (kids i));
  sh_out : forall i, vsize d <= i \/ i = ex -> kids i = [];
  sh_rk : forall i x, In x roots -> ~ In x (kids i);
  sh_kk : forall i j x, In x (kids i) -> In x (kids j) -> i = j
}.

(** Every root and every unit of degree is paid for by a node of the
    arena; the degree of the node under removal is not counted. *)
Definition credit (ex : size_type) (d : arena) (roots : list size_type)
  : Prop :=
  sum_deg d + vsize roots <= vsize d + deg d ex.

(** Only [right_sibling] fields differ. *)
Definition links_only (d d' : arena) : Prop :=
  vsize d' = vsize d /\
  forall x, deg d' x = deg d x /\ chd d' x = chd d x /\
            par d' x = par d x /\ itm d' x = itm d x.

(** Value slots are the same. *)
Definition same_items (d d' : arena) : Prop :=
  vsize d' = vsize d /\ forall x, itm d' x = itm d x.

(** Every node refers to a slot of the value store. *)
Definition items_ok {T : Type} (h : binomial_heap T) : Prop :=
  forall x, x < vsize (data_ h) -> itm (data_ h) x < vsize (elements_ h).

(** A parent is a node of larger degree. *)
Definition parents_ok (d : arena) : Prop :=
  forall x, x < vsize d -> par d x <> npos ->
            par d x < vsize d /\ deg d x < deg d (par d x).

(** The nodes of [roots] have no parent. *)
Definition orphans (d : arena) (roots : list size_type) : Prop :=
  forall r, In r roots -> par d r = npos.

(** What [binomial_heap_union] establishes, from a heap [h] whose two root
    lists hold the nodes [roots]. *)
Definition union_post {T : Type} (ex : size_type) (roots : list size_type)
  (h h' : binomial_heap T) : Prop :=
  exists roots' kids',
    shape ex (data_ h') (head_ h') roots' kids' /\
    credit ex (data_ h') roots' /\
    incr (map (deg (data_ h')) roots') /\
    ~ In ex roots' /\ roots' <> [] /\
    same_items (data_ h) (data_ h') /\
    elements_ h' = elements_ h /\ top_ h' = top_ h /\
    index_array h' = index_array h /\
    (parents_ok (data_ h) -> orphans (data_ h) roots ->
     parents_ok (data_ h') /\ orphans (data_ h') roots').

(** The three outcomes of the consolidation loop. *)
Definition union_outcome {T : Type} (ex : size_type) (roots : list size_type)
  (h : binomial_heap T) (r : result (binomial_heap T)) : Prop :=
  match r with
  | Ok h' => union_post ex roots h h'
  | Err OobElements => ~ items_ok h
  | Err _ => False
  end.

(** The invariant of the link structure. *)
Definition forest_ok {T : Type} (h : binomial_heap T) : Prop :=
  exists roots kids,
    shape npos (data_ h) (head_ h) roots kids /\
    credit npos (data_ h) roots /\
    incr (map (deg (data_ h)) roots).

(** ** Concrete scenarios *)

(** The scenario of the specification: keys [5, 3, 8, 1, 9, 2]. *)
Definition six_keys : list (operation keyed) :=
  map Push (keys_from 0 [5; 3; 8; 1; 9; 2]).

(** One extraction, then three insertions: the node of key [2] has index
    [1] and value slot [0]. *)
Definition shifted_ops : list (operation keyed) :=
  [Push (1, 0); Pop; Push (2, 1); Push (3, 2); Push (4, 3)].

(** Three insertions that leave a root of degree 0 on top of the heap, next
    to a root of degree 1. *)
Definition childless_top_ops : list (operation keyed) :=
  map Push (keys_from 0 [2; 3; 1]).

(** Ten insertions and four extractions, keys all different. *)
Definition interleaved_ops : list (operation keyed) :=
  [Push (1, 0); Push (8, 1); Pop; Push (7, 2); Push (10, 3); Push (5, 4);
   Push (3, 5); Push (6, 6); Pop; Push (2, 7); Push (4, 8); Push (9, 9);
   Pop; Pop].

(** An insertion, an extraction and an insertion: one element is left. *)
Definition refilled_ops : list (operation keyed) :=
  [Push (1, 0); Pop; Push (2, 1)].

(** Keys [10, 4, 6], then the value of handle [0] gets the key [1]. *)
Definition decrease_ops : list (operation keyed) :=
  map Push (keys_from 0 [10; 4; 6]) ++ [Update (1, 0)].

(** Capacity 2, nothing inserted. *)
Definition empty_two : binomial_heap keyed := binomial_heap_new 2.

(** Capacity 2, the value of key [5] and handle [0] inserted. *)
Definition one_of_two : list (operation keyed) := [Push (5, 0)].

(** The heap of capacity 6 after the insertions of [six_keys]. *)
Definition six_heap : binomial_heap keyed :=
  Eval cbv in
    match krun (binomial_heap_new 6) six_keys with
    | Ok h => h
    | Err _ => binomial_heap_new 6
    end.

(** ** Heaps built by insertions only *)

(** [t] is a value of [l] that no value of [l] precedes. *)
Definition extremal {T : Type} (compare_ : T -> T -> bool) (l : list T)
  (t : T) : Prop :=
  In t l /\ forall v, In v l -> compare_ v t = false.

(** The state of a heap of capacity [n] after the insertion of the values
    [l], in this order: node [x] owns slot [x], the handle of the last value
    names the last node, and [top_] names an extremal value. *)
Definition inserted {T : Type} (compare_ : T -> T -> bool)
  (_id : T -> size_type) (n : size_type) (l : list T) (h : binomial_heap T)
  : Prop :=
  exists roots kids,
    shape npos (data_ h) (head_ h) roots kids /\
    credit npos (data_ h) roots /\
    incr (map (deg (data_ h)) roots) /\
    parents_ok (data_ h) /\ orphans (data_ h) roots /\
    elements_ h = l /\ vsize (data_ h) = vsize l /\
    (forall x, x < vsize (data_ h) -> itm (data_ h) x = x) /\
    capacity h = n /\
    (forall l' d, l = l' ++ [d] ->
       head_ h <> npos /\
       vget OobIndex (index_array h) (_id d) = Ok (vsize l') /\
       exists t, top h = Ok t /\ extremal compare_ l t).

(** ** The range constructor and the accounting of a run *)

Section Range.

Context {T : Type}.
Variable compare_ : T -> T -> bool.
Variable _id : T -> size_type.
Variable indeterminate : size_type.

(** [while (first != last) { push( *first); ++first; }] *)
Fixpoint push_range (h : binomial_heap T) (l : list T)
  : result (binomial_heap T) :=
  match l with
  | [] => Ok h
  | d :: l' => h' <- push compare_ _id indeterminate h d ;; push_range h' l'
  end.

(** [binomial_heap(first, last, cmp, id)]: the handle index gets
    [std::distance(first, last)] entries, then the values are pushed. *)
Definition binomial_heap_range (l : list T) : result (binomial_heap T) :=
  push_range (binomial_heap_new (vsize l)) l.

(** The number of [Pop]s of a sequence that run on a heap with
    [head_ != -1], the ones that go past the guard of [pop]. *)
Fixpoint removals (h : binomial_heap T) (ops : list (operation T)) : N :=
  match ops with
  | [] => 0
  | o :: ops' =>
    (match o with
     | Pop => if head_ h =? npos then 0 else 1
     | _ => 0
     end) +
    match step compare_ _id indeterminate h o with
    | Ok h' => removals h' ops'
    | Err _ => 0
    end
  end.

End Range.

(** Two roots of degree [0], [3] pushed after [5], before their union: the
    state of [push] between [data_.push_back] and [binomial_heap_union]. *)
Definition two_roots : binomial_heap keyed :=
  mk_heap [(5, 0); (3, 1)]
    [mk_node 0 npos npos npos 0; mk_node 1 npos npos npos 0] 0 0 [0; 1].

(** The handle of the [k]-th value of [l] names the node [k]. *)
Definition handles_in_order {T : Type} (_id : T -> size_type) (l : list T)
  (h : binomial_heap T) : Prop :=
  forall k v, nth_error l k = Some v ->
              vget OobIndex (index_array h) (_id v) = Ok (N.of_nat k).

(** A parent is a node, and no node has a value that precedes the value
    of its parent. *)
Definition heap_ordered {T : Type} (compare_ : T -> T -> bool)
  (h : binomial_heap T) : Prop :=
  forall y,
    par (data_ h) y <> npos ->
    par (data_ h) y < vsize (data_ h) /\
    forall a b,
      value_at h y = Ok a -> value_at h (par (data_ h) y) = Ok b ->
      compare_ a b = false.

(** The heap of capacity 3 after the insertions of [childless_top_ops]. *)
Definition childless_heap : binomial_heap keyed :=
  Eval cbv in
    match krun (binomial_heap_new 3) childless_top_ops with
    | Ok h => h
    | Err _ => binomial_heap_new 3
    end.

(** ** print

    What [print] writes, as a list of tokens: a value, the strings ["("],
    [" "] and [")"], and [std::endl]. *)

Inductive token (T : Type) : Type :=
| Tval (v : T)
| Topen
| Tspace
| Tclose
| Tendl.
Arguments Tval {T} v.
Arguments Topen {T}.
Arguments Tspace {T}.
Arguments Tclose {T}.
Arguments Tendl {T}.

Section Print.

Context {T : Type}.

(** [print_recur(x, os)], and the [do ... while (i != -1)] loop over the
    child list inside it. *)
Fixpoint print_recur (fuel : nat) (h : binomial_heap T) (x : size_type)
  : result (list (token T)) :=
  match fuel with
  | O => Err Diverge
  | S fuel' =>
    if x =? npos then Ok []
    else
      v <- value_at h x ;;
      nx <- dget (data_ h) x ;;
      if 0 <? degree nx then
        body <- print_children fuel' h (child nx) ;;
        Ok (Tval v :: Topen :: body ++ [Tclose])
      else Ok [Tval v]
  end
with print_children (fuel : nat) (h : binomial_heap T) (i : size_type)
  : result (list (token T)) :=
  match fuel with
  | O => Err Diverge
  | S fuel' =>
    a <- print_recur fuel' h i ;;
    ni <- dget (data_ h) i ;;
    if right_sibling ni =? npos then Ok (a ++ [Tspace])
    else
      rest <- print_children fuel' h (right_sibling ni) ;;
      Ok (a ++ Tspace :: rest)
  end.

(** The fuel of [print_recur]: a call on a node of degree [k] nests at most
    [2 * k + 1] calls and loop rounds. *)
Definition print_fuel (d : arena) : nat := S (2 * length d).

(** The [do ... while (i != -1)] loop of [print] over the root list. *)
Fixpoint print_roots (fuel : nat) (h : binomial_heap T) (i : size_type)
  : result (list (token T)) :=
  match fuel with
  | O => Err Diverge
  | S fuel' =>
    a <- print_recur (print_fuel (data_ h)) h i ;;
    ni <- dget (data_ h) i ;;
    if right_sibling ni =? npos then Ok (a ++ [Tendl])
    else
      rest <- print_roots fuel' h (right_sibling ni) ;;
      Ok (a ++ Tendl :: rest)
  end.

Definition print (h : binomial_heap T) : result (list (token T)) :=
  if head_ h =? npos then Ok []
  else print_roots (fuel_of (data_ h)) h (head_ h).

(** The number of lines of an output. *)
Fixpoint count_endl (out : list (token T)) : nat :=
  match out with
  | [] => O
  | Tendl :: out' => S (count_endl out')
  | _ :: out' => count_endl out'
  end.

End Print.

(** A node with a degree other than [0] has a child. *)
Definition childful (d : arena) : Prop :=
  forall x, deg d x <> 0 -> chd d x <> npos.

(** An output without a line end, all of whose values are stored values. *)
Definition plain {T : Type} (h : binomial_heap T) (out : list (token T))
  : Prop :=
  count_endl out = O /\ forall v, In (Tval v) out -> In v (elements_ h).

(** The child loop of [print_recur] succeeds on every child list whose
    first node has a degree below [m], given [2 * m] units of fuel. *)
Definition children_ok {T : Type} (h : binomial_heap T) (m : nat) : Prop :=
  forall l i fuel,
    chain (data_ h) i l -> i <> npos -> decr (map (deg (data_ h)) l) ->
    (N.to_nat (deg (data_ h) i) < m)%nat -> (2 * m <= fuel)%nat ->
    exists out, print_children fuel h i = Ok out /\ plain h out.

(** * Properties *)

(** ** Vectors *)

Lemma vsize_app {A : Type} (v w : list A) : vsize (v ++ w) = vsize v + vsize w.
Proof. unfold vsize. rewrite length_app. lia. Qed.

Lemma vsize_upd {A : Type} (v : list A) i a : vsize (list_upd v i a) = vsize v.
Proof.
  unfold vsize. f_equal. revert i.
  induction v as [|x v IH]; intros [|i]; simpl; auto.
Qed.

Lemma nth_error_upd_eq {A : Type} (v : list A) i a :
  (i < length v)%nat -> nth_error (list_upd v i a) i = Some a.
Proof.
  revert i. induction v as [|x v IH]; intros [|i] H; simpl in *; try lia; auto.
  apply IH. lia.
Qed.

Lemma nth_error_upd_ne {A : Type} (v : list A) i j a :
  i <> j -> nth_error (list_upd v i a) j = nth_error v j.
Proof.
  revert i j. induction v as [|x v IH]; intros [|i] [|j] H; simpl; auto.
  congruence.
Qed.

Lemma vget_ok {A : Type} e (v : list A) i a :
  vget e v i = Ok a -> i < vsize v /\ nth_error v (N.to_nat i) = Some a.
Proof.
  unfold vget. destruct (i <? vsize v) eqn:E; [|discriminate].
  apply N.ltb_lt in E. destruct (nth_error v (N.to_nat i)); [|discriminate].
  intros H. inversion H. auto.
Qed.

Lemma vget_lt {A : Type} e (v : list A) i :
  i < vsize v -> exists a, vget e v i = Ok a.
Proof.
  intros H. unfold vget. apply N.ltb_lt in H as E. rewrite E.
  destruct (nth_error v (N.to_nat i)) eqn:F; eauto.
  apply nth_error_None in F. unfold vsize in H. lia.
Qed.

Lemma vget_err {A : Type} e (v : list A) i e' :
  vget e v i = Err e' -> e' = e /\ vsize v <= i.
Proof.
  unfold vget. destruct (i <? vsize v) eqn:E.
  - apply N.ltb_lt in E. destruct (nth_error v (N.to_nat i)) eqn:F; [discriminate|].
    apply nth_error_None in F. unfold vsize in E. lia.
  - apply N.ltb_ge in E. intros H. inversion H. auto.
Qed.

Lemma vget_oob {A : Type} e (v : list A) i : vsize v <= i -> vget e v i = Err e.
Proof.
  intros H. unfold vget. apply N.ltb_ge in H. now rewrite H.
Qed.

Lemma vget_tag {A : Type} e e' (v : list A) i a :
  vget e v i = Ok a -> vget e' v i = Ok a.
Proof.
  unfold vget. destruct (i <? vsize v); [|discriminate].
  destruct (nth_error v (N.to_nat i)); [auto|discriminate].
Qed.

Lemma vset_ok {A : Type} e (v : list A) i a v' :
  vset e v i a = Ok v' -> i < vsize v /\ v' = list_upd v (N.to_nat i) a.
Proof.
  unfold vset. destruct (i <? vsize v) eqn:E; [|discriminate].
  apply N.ltb_lt in E. intros H. inversion H. auto.
Qed.

Lemma vset_lt {A : Type} e (v : list A) i a :
  i < vsize v -> vset e v i a = Ok (list_upd v (N.to_nat i) a).
Proof. intros H. unfold vset. apply N.ltb_lt in H. now rewrite H. Qed.

Lemma vset_err {A : Type} e (v : list A) i a e' :
  vset e v i a = Err e' -> e' = e /\ vsize v <= i.
Proof.
  unfold vset. destruct (i <? vsize v) eqn:E; [discriminate|].
  apply N.ltb_ge in E. intros H. inversion H. auto.
Qed.

Lemma vget_upd_eq {A : Type} e (v : list A) i a :
  i < vsize v -> vget e (list_upd v (N.to_nat i) a) i = Ok a.
Proof.
  intros H. unfold vget. rewrite vsize_upd. apply N.ltb_lt in H as E. rewrite E.
  rewrite nth_error_upd_eq; auto. unfold vsize in H. lia.
Qed.

Lemma vget_upd_ne {A : Type} e (v : list A) i j a :
  i <> j -> vget e (list_upd v (N.to_nat i) a) j = vget e v j.
Proof.
  intros H. unfold vget. rewrite vsize_upd.
  rewrite nth_error_upd_ne; auto. lia.
Qed.

Lemma vget_app_l {A : Type} e (v w : list A) i :
  i < vsize v -> vget e (v ++ w) i = vget e v i.
Proof.
  intros H. unfold vget. rewrite vsize_app.
  apply N.ltb_lt in H as E. rewrite E.
  assert (E' : (i <? vsize v + vsize w) = true) by (apply N.ltb_lt; lia).
  rewrite E'. rewrite nth_error_app1; auto. unfold vsize in H. lia.
Qed.

Lemma vget_app_last {A : Type} e (v : list A) a :
  vget e (v ++ [a]) (vsize v) = Ok a.
Proof.
  unfold vget. rewrite vsize_app.
  assert (E : (vsize v <? vsize v + vsize [a]) = true)
    by (apply N.ltb_lt; unfold vsize; simpl; lia).
  rewrite E. unfold vsize. rewrite Nat2N.id, nth_error_app2, Nat.sub_diag; auto.
Qed.

Lemma vget_removelast {A : Type} e (v : list A) i :
  i + 1 < vsize v -> vget e (removelast v) i = vget e v i.
Proof.
  intros H. destruct (@exists_last _ v) as [v' [a ->]].
  { intros ->. unfold vsize in H. simpl in H. lia. }
  rewrite removelast_last. rewrite vsize_app in H.
  unfold vsize at 2 in H. simpl in H.
  symmetry. apply vget_app_l. lia.
Qed.

Lemma vsize_removelast {A : Type} (v : list A) :
  v <> [] -> vsize (removelast v) + 1 = vsize v.
Proof.
  intros H. destruct (@exists_last _ v H) as [v' [a ->]].
  rewrite removelast_last, vsize_app. reflexivity.
Qed.

Lemma last_index_pos {A : Type} (v : list A) :
  0 < vsize v -> vsize v <= npos -> last_index v + 1 = vsize v.
Proof.
  intros H1 H2. unfold last_index, wrap, npos, SIZE_WIDTH in *.
  replace (vsize v + 2 ^ 64 - 1) with ((vsize v - 1) + 1 * 2 ^ 64) by lia.
  rewrite N.Div0.mod_add. rewrite N.mod_small; lia.
Qed.

Lemma last_index_nil {A : Type} : last_index (@nil A) = npos.
Proof. reflexivity. Qed.

(** ** Nodes of the arena *)

Lemma dget_ok_lt d i n : dget d i = Ok n -> i < vsize d.
Proof. intros H. apply vget_ok in H. tauto. Qed.

Lemma dget_lt d i : i < vsize d -> exists n, dget d i = Ok n.
Proof. apply vget_lt. Qed.

Lemma dget_err d i e : dget d i = Err e -> e = OobData /\ vsize d <= i.
Proof. apply vget_err. Qed.

Lemma dget_npos d : vsize d <= npos -> dget d npos = Err OobData.
Proof. apply vget_oob. Qed.

Lemma dmod_ok d i f d' :
  dmod d i f = Ok d' ->
  exists n, dget d i = Ok n /\ d' = list_upd d (N.to_nat i) (f n).
Proof.
  unfold dmod. destruct (dget d i) as [n|] eqn:E; simpl; [|discriminate].
  intros H. apply vset_ok in H. exists n. tauto.
Qed.

Lemma dmod_lt d i f :
  i < vsize d ->
  exists n, dget d i = Ok n /\ dmod d i f = Ok (list_upd d (N.to_nat i) (f n)).
Proof.
  intros H. destruct (dget_lt d i H) as [n E]. exists n. split; auto.
  unfold dmod. rewrite E. simpl. now apply vset_lt.
Qed.

Lemma dmod_err d i f e : dmod d i f = Err e -> e = OobData /\ vsize d <= i.
Proof.
  unfold dmod. destruct (dget d i) as [n|] eqn:E; simpl.
  - intros H. apply vset_err in H. auto.
  - intros H. inversion H. subst. now apply dget_err in E.
Qed.

Lemma dmod_vsize d i f d' : dmod d i f = Ok d' -> vsize d' = vsize d.
Proof.
  intros H. apply dmod_ok in H as [n [_ ->]]. apply vsize_upd.
Qed.

Lemma dmod_get_eq d i f d' n :
  dmod d i f = Ok d' -> dget d i = Ok n -> dget d' i = Ok (f n).
Proof.
  intros H E. apply dmod_ok in H as [n' [E' ->]].
  rewrite E in E'. inversion E'. subst. apply vget_upd_eq.
  now apply dget_ok_lt in E.
Qed.

Lemma dmod_get_ne d i f d' j :
  dmod d i f = Ok d' -> j <> i -> dget d' j = dget d j.
Proof.
  intros H E. apply dmod_ok in H as [n' [E' ->]].
  apply vget_upd_ne. auto.
Qed.

Lemma vsize_snoc {A : Type} (v : list A) a : vsize (v ++ [a]) = vsize v + 1.
Proof. rewrite vsize_app. reflexivity. Qed.

(** ** Which errors an operation can raise, and what it leaves alone *)

Ltac inv H := inversion H; subst; clear H.

(** Decides a conjunction of closed equations by running the code. *)
Ltac run_code :=
  repeat (split; [vm_compute; reflexivity|]); vm_compute; reflexivity.


(** Splits the first [bind] of hypothesis [H]. *)
Ltac bind_in H :=
  match type of H with
  | bind ?c _ = _ =>
    let E := fresh "E" in
    destruct c eqn:E; unfold bind at 1 in H; cbv beta iota in H; [|inv H]
  end.

(** Closes a goal about the tag of an error raised by a vector access. *)
Ltac err_base :=
  match goal with
  | H : dget _ _ = Err _ |- _ => apply dget_err in H
  | H : dmod _ _ _ = Err _ |- _ => apply dmod_err in H
  | H : vget _ _ _ = Err _ |- _ => apply vget_err in H
  | H : vset _ _ _ _ = Err _ |- _ => apply vset_err in H
  end; intuition congruence.

(** The same, with names for the value and for the equation. *)
Ltac bind_as H x E :=
  match type of H with
  | bind ?c _ = _ =>
    destruct c as [x|] eqn:E; unfold bind at 1 in H; cbv beta iota in H;
    [|inv H]
  end.

Section Properties.

Context {T : Type}.
Variable compare_ : T -> T -> bool.
Variable _id : T -> size_type.
Variable indeterminate : size_type.

Lemma value_at_err (h : binomial_heap T) x e :
  value_at h x = Err e -> e = OobData \/ e = OobElements.
Proof.
  unfold value_at. intros H. bind_in H.
  - apply vget_err in H. tauto.
  - apply dget_err in E. tauto.
Qed.

Ltac err_val :=
  match goal with
  | H : value_at _ _ = Err _ |- _ => apply value_at_err in H
  end; intuition congruence.

Lemma binomial_link_err d y z e : binomial_link d y z = Err e -> e = OobData.
Proof.
  unfold binomial_link. intros H.
  repeat (bind_in H; [|err_base]). err_base.
Qed.

Ltac err_link :=
  match goal with
  | H : binomial_link _ _ _ = Err _ |- _ => apply binomial_link_err in H
  end; intuition congruence.

Lemma binomial_link_vsize d y z d' :
  binomial_link d y z = Ok d' -> vsize d' = vsize d.
Proof.
  unfold binomial_link. intros H.
  repeat bind_in H.
  repeat match goal with
  | H : dmod _ _ _ = Ok _ |- _ => apply dmod_vsize in H
  end. congruence.
Qed.

Lemma merge_loop_err fuel d c p q e :
  merge_loop fuel d c p q = Err e -> e = OobData \/ e = Diverge.
Proof.
  revert d c p q. induction fuel as [|fuel IH]; intros d c p q H; simpl in H.
  - inv H. auto.
  - destruct (negb (p =? npos) || negb (q =? npos)); [|discriminate].
    bind_in H.
    + destruct a.
      * bind_in H; [|err_base].
        bind_in H; [|err_base]. eauto.
      * bind_in H; [|err_base].
        bind_in H; [|err_base]. eauto.
    + destruct (q =? npos); [discriminate|].
      destruct (negb (p =? npos)); [|discriminate].
      bind_in E; [|err_base].
      bind_in E; [discriminate|err_base].
Qed.

Lemma merge_loop_vsize fuel d c p q d' :
  merge_loop fuel d c p q = Ok d' -> vsize d' = vsize d.
Proof.
  revert d c p q. induction fuel as [|fuel IH]; intros d c p q H; simpl in H.
  - discriminate.
  - destruct (negb (p =? npos) || negb (q =? npos)); [|now inv H].
    bind_in H. destruct a; bind_in H; bind_in H;
      apply IH in H; apply dmod_vsize in E0; congruence.
Qed.

Lemma merge_err (h : binomial_heap T) index e :
  merge indeterminate h index = Err e -> e = OobData \/ e = Diverge.
Proof.
  unfold merge. intros H.
  bind_in H; [|err_base].
  bind_in H; [|err_base].
  bind_in H; [|now apply merge_loop_err in E1].
  bind_in H; [discriminate|err_base].
Qed.

Lemma merge_frame (h : binomial_heap T) index h' :
  merge indeterminate h index = Ok h' ->
  elements_ h' = elements_ h /\ top_ h' = top_ h /\
  index_array h' = index_array h /\ vsize (data_ h') = vsize (data_ h).
Proof.
  unfold merge. intros H. repeat bind_in H. inv H. simpl.
  repeat split; auto.
  apply merge_loop_vsize in E1. rewrite vsize_app in E1.
  assert (a1 <> []).
  { intros ->. unfold vsize in E1. simpl in E1. lia. }
  apply vsize_removelast in H. unfold vsize in *. simpl in *. lia.
Qed.

Lemma union_loop_err fuel (h : binomial_heap T) prev x next e :
  union_loop compare_ fuel h prev x next = Err e -> e <> OobIndex.
Proof.
  revert h prev x next.
  induction fuel as [|fuel IH]; intros h prev x next H; simpl in H.
  - inv H. discriminate.
  - destruct (next =? npos); [discriminate|].
    bind_in H; [|err_base].
    bind_in H; [|err_base].
    bind_in H.
    2:{ destruct (negb (degree a =? degree a0)); [discriminate|].
        destruct (negb (right_sibling a0 =? npos)); [|discriminate].
        bind_in E1; [discriminate|]. err_base. }
    destruct a1.
    + bind_in H; [|err_base]. eauto.
    + bind_in H; [|err_val].
      bind_in H; [|err_val].
      destruct (compare_ a1 a2).
      * bind_in H; [|err_base].
        bind_in H; [|err_link].
        bind_in H; [|err_base]. eauto.
      * bind_in H.
        2:{ destruct (prev =? npos); [discriminate|].
            bind_in E4; [discriminate|]. err_base. }
        bind_in H; [|err_link].
        bind_in H; [|err_base]. eauto.
Qed.

Lemma union_loop_frame fuel (h : binomial_heap T) prev x next h' :
  union_loop compare_ fuel h prev x next = Ok h' ->
  elements_ h' = elements_ h /\ top_ h' = top_ h /\
  index_array h' = index_array h /\ vsize (data_ h') = vsize (data_ h).
Proof.
  revert h prev x next.
  induction fuel as [|fuel IH]; intros h prev x next H; simpl in H.
  - discriminate.
  - destruct (next =? npos); [now inv H|].
    repeat bind_in H. destruct a1.
    + bind_in H. eauto.
    + repeat bind_in H. destruct (compare_ a1 a2).
      * repeat bind_in H. apply IH in H. simpl in H.
        apply binomial_link_vsize in E5. apply dmod_vsize in E4.
        intuition congruence.
      * repeat bind_in H. apply IH in H. simpl in H.
        apply binomial_link_vsize in E5.
        destruct (prev =? npos).
        -- inv E4. simpl in *. intuition congruence.
        -- bind_in E4. inv E4. simpl in *. apply dmod_vsize in E7.
           intuition congruence.
Qed.

Lemma union_err (h : binomial_heap T) index e :
  binomial_heap_union compare_ indeterminate h index = Err e -> e <> OobIndex.
Proof.
  unfold binomial_heap_union. intros H.
  bind_in H; [|apply merge_err in E; intuition congruence].
  bind_in H; [|err_base].
  destruct (right_sibling a0 =? npos); [discriminate|].
  now apply union_loop_err in H.
Qed.

Lemma union_frame (h : binomial_heap T) index h' :
  binomial_heap_union compare_ indeterminate h index = Ok h' ->
  elements_ h' = elements_ h /\ top_ h' = top_ h /\
  index_array h' = index_array h /\ vsize (data_ h') = vsize (data_ h).
Proof.
  unfold binomial_heap_union. intros H. repeat bind_in H.
  apply merge_frame in E.
  destruct (right_sibling a0 =? npos).
  - inv H. auto.
  - apply union_loop_frame in H. intuition congruence.
Qed.

(** [push] does not change the handle capacity. *)
Lemma push_capacity (h : binomial_heap T) d h' :
  push compare_ _id indeterminate h d = Ok h' -> capacity h' = capacity h.
Proof.
  unfold push, push_node, capacity. intros H. bind_in H. bind_in E.
  inv E. apply vset_ok in E0 as [_ ->]. simpl in H.
  destruct (head_ h =? npos).
  - inv H. simpl. apply vsize_upd.
  - repeat bind_in H. apply union_frame in E as (_ & _ & E & _). simpl in E.
    destruct (compare_ a0 a1); inv H; simpl; rewrite E; apply vsize_upd.
Qed.

Lemma update_loop_capacity fuel (h : binomial_heap T) d index p h' index' :
  update_loop compare_ _id fuel h d index p = Ok (h', index') ->
  capacity h' = capacity h /\ data_ h' = data_ h /\ head_ h' = head_ h /\
  top_ h' = top_ h /\ vsize (elements_ h') = vsize (elements_ h).
Proof.
  revert h index p.
  induction fuel as [|fuel IH]; intros h index p H; simpl in H.
  - discriminate.
  - bind_in H. destruct a.
    + repeat bind_in H. apply IH in H. simpl in H. unfold capacity in *.
      simpl in H. apply vset_ok in E7 as [_ ->]. rewrite vsize_upd in H.
      apply vset_ok in E4 as [_ ->]. apply vset_ok in E2 as [_ ->].
      rewrite !vsize_upd in H. tauto.
    + inv H. auto.
Qed.

(** [update] does not change the handle capacity. *)
Lemma update_capacity (h : binomial_heap T) d h' :
  update compare_ _id h d = Ok h' -> capacity h' = capacity h.
Proof.
  unfold update. intros H. repeat bind_in H. destruct a2 as [h1 index'].
  repeat bind_in H. apply update_loop_capacity in E2 as [E2 _].
  unfold capacity in *. simpl in *. apply vset_ok in E3 as [_ ->].
  destruct (compare_ d a3); inv H; simpl; rewrite vsize_upd; auto.
Qed.

(** [pop] does not change the handle capacity. *)
Lemma pop_capacity (h : binomial_heap T) h' :
  pop compare_ _id indeterminate h = Ok h' -> capacity h' = capacity h.
Proof.
  unfold pop, capacity. intros H.
  destruct (head_ h =? npos); [now inv H|].
  bind_in H. destruct a as [d1 new_head]. repeat bind_in H.
  unfold pop_compact in H. repeat bind_in H. inv H. simpl.
  destruct (right_sibling a =? npos).
  - inv E1. reflexivity.
  - bind_in E1. apply union_frame in E1 as (_ & _ & -> & _).
    unfold pop_unlink in E12. bind_in E12.
    destruct (head_ (with_data h d1) =? top_ (with_data h d1)).
    + inv E12. reflexivity.
    + repeat bind_in E12. inv E12. reflexivity.
Qed.

Lemma reachable_capacity n (h : binomial_heap T) :
  reachable compare_ _id indeterminate n h -> capacity h = n.
Proof.
  induction 1 as [|h o h' _ IH H].
  - unfold capacity, binomial_heap_new, vsize. simpl.
    rewrite repeat_length. apply N2Nat.id.
  - rewrite <- IH. destruct o; simpl in H.
    + eapply push_capacity; eauto.
    + eapply update_capacity; eauto.
    + eapply pop_capacity; eauto.
Qed.

(** The only handle-index access of [push] is [index_array[_id(d)]]. *)
Lemma push_index_error (h : binomial_heap T) d :
  push compare_ _id indeterminate h d = Err OobIndex <-> capacity h <= _id d.
Proof.
  unfold push, push_node, capacity. split.
  - intros H. destruct (vset OobIndex (index_array h) (_id d) _) eqn:E; simpl in H.
    + exfalso. destruct (head_ h =? npos); [discriminate|].
      bind_in H; [|apply union_err in E0; congruence].
      bind_in H; [|err_val].
      bind_in H; [|err_val].
      destruct (compare_ a1 a2); discriminate.
    + apply vset_err in E. tauto.
  - intros H. unfold vset. apply N.ltb_ge in H. rewrite H. reflexivity.
Qed.

Lemma update_loop_index_error fuel (h : binomial_heap T) d index p :
  (forall v, _id v < capacity h) ->
  update_loop compare_ _id fuel h d index p <> Err OobIndex.
Proof.
  revert h index p.
  induction fuel as [|fuel IH]; intros h index p Hid H; simpl in H.
  - discriminate.
  - bind_in H.
    2:{ destruct (negb (p =? npos)); [|discriminate].
        bind_in E; [discriminate|]. err_val. }
    destruct a; [|discriminate].
    bind_in H; [|err_base].
    bind_in H; [|err_val].
    bind_in H; [|err_base].
    bind_in H; [|err_base].
    bind_in H; [|err_base].
    bind_in H; [|err_base].
    bind_in H; [|err_base].
    bind_in H.
    + apply IH in H; auto. intros v. unfold capacity. simpl.
      apply vset_ok in E7 as [_ ->]. rewrite vsize_upd. apply Hid.
    + apply vset_err in E7 as [_ E7]. specialize (Hid a5).
      unfold capacity in Hid. lia.
Qed.

Lemma update_index_error (h : binomial_heap T) d :
  (forall v, _id v < capacity h) ->
  update compare_ _id h d <> Err OobIndex.
Proof.
  intros Hid H. unfold update in H.
  bind_in H.
  2:{ apply vget_err in E as [_ E]. specialize (Hid d).
      unfold capacity in Hid. lia. }
  bind_in H; [|err_base].
  bind_in H; [|err_base].
  bind_in H; [|apply update_loop_index_error in E2; auto].
  destruct a2 as [h1 index'].
  apply update_loop_capacity in E2 as [E2 _].
  bind_in H.
  2:{ apply vset_err in E3 as [_ E3]. specialize (Hid d).
      unfold capacity in *. simpl in E2. lia. }
  bind_in H; [|err_val].
  destruct (compare_ d a3); discriminate.
Qed.

Lemma update_index_oob (h : binomial_heap T) d :
  capacity h <= _id d -> update compare_ _id h d = Err OobIndex.
Proof.
  intros H. unfold update. rewrite vget_oob; auto.
Qed.

End Properties.

(** ** Handles and the handle index *)

Section Handles.

Context {T : Type}.
Variable compare_ : T -> T -> bool.
Variable _id : T -> size_type.
Variable indeterminate : size_type.

(** C10.  [push] and [update] index [index_array] at [_id(d)] unchecked: on
    a heap built with capacity [n], none of their handle-index accesses is
    out of bounds exactly when every handle is below [n]; a
    default-constructed heap has capacity [0] and both fail on every value. *)
Theorem handle_accesses_in_bounds_iff n (h : binomial_heap T) :
  reachable compare_ _id indeterminate n h ->
  capacity h = n /\
  ((forall v, _id v < n) <->
   (forall d, push compare_ _id indeterminate h d <> Err OobIndex /\
              update compare_ _id h d <> Err OobIndex)) /\
  (forall head0 top0 d,
     capacity (@binomial_heap_default T head0 top0) = 0 /\
     push compare_ _id indeterminate (binomial_heap_default head0 top0) d
       = Err OobIndex /\
     update compare_ _id (binomial_heap_default head0 top0) d = Err OobIndex).
Proof.
  intros R. apply reachable_capacity in R as C.
  split; [exact C|]. split; [split|].
  - intros Hid d. split.
    + rewrite push_index_error. specialize (Hid d). lia.
    + apply update_index_error. intros v. rewrite C. apply Hid.
  - intros H v. specialize (H v) as [H _].
    rewrite push_index_error in H. lia.
  - intros head0 top0 d. split; [reflexivity|]. split.
    + apply push_index_error. apply N.le_0_l.
    + apply update_index_oob. apply N.le_0_l.
Qed.

(** C4, as the code has it.  [pop] on a heap without roots returns at once
    and changes nothing; [top] with [top_ == -1] indexes [data_] out of
    bounds; [update] does not test whether the handle is live: when the
    handle entry names a node without parent whose slot exists, and [top_]
    is readable, it succeeds and stores the value in that node's slot. *)
Theorem precondition_violations (h : binomial_heap T) :
  (head_ h = npos -> pop compare_ _id indeterminate h = Ok h) /\
  (top_ h = npos -> vsize (data_ h) <= npos -> top h = Err OobData) /\
  (forall d i n nt,
     vget OobIndex (index_array h) (_id d) = Ok i ->
     dget (data_ h) i = Ok n -> parent n = npos ->
     item_index n < vsize (elements_ h) ->
     dget (data_ h) (top_ h) = Ok nt ->
     item_index nt < vsize (elements_ h) ->
     exists h', update compare_ _id h d = Ok h' /\ value_at h' i = Ok d).
Proof.
  split; [|split].
  - intros H. unfold pop. rewrite H. reflexivity.
  - intros H L. unfold top, value_at. rewrite H, dget_npos; auto.
  - intros d i n nt Hi Hn Hp Hs Ht Hts.
    unfold update. rewrite Hi. unfold bind at 1. rewrite Hn. unfold bind at 1.
    rewrite (vset_lt OobElements _ _ d Hs). unfold bind at 1.
    unfold fuel_of. simpl update_loop. rewrite Hp. simpl negb.
    unfold bind at 2. unfold bind at 1. simpl index_array.
    apply vget_ok in Hi as [Hi _].
    rewrite (vset_lt OobIndex _ _ i Hi). unfold bind at 1.
    set (e0 := list_upd (elements_ h) (N.to_nat (item_index n)) d).
    assert (Hv : forall x nx, dget (data_ h) x = Ok nx ->
                 item_index nx < vsize (elements_ h) ->
                 exists v, vget OobElements e0 (item_index nx) = Ok v /\
                           (item_index nx = item_index n -> v = d)).
    { intros x nx Hx Hxs. destruct (N.eq_dec (item_index n) (item_index nx)) as [E|E].
      - exists d. split; auto. rewrite <- E. now apply vget_upd_eq.
      - destruct (vget_lt OobElements (elements_ h) _ Hxs) as [v Hv].
        exists v. split; [|congruence]. unfold e0. now rewrite vget_upd_ne. }
    destruct (Hv _ _ Ht Hts) as [tv [Htv _]].
    unfold value_at at 1. simpl. rewrite Ht. unfold bind at 2. rewrite Htv.
    unfold bind at 1.
    destruct (Hv _ _ Hn Hs) as [v [Hv1 Hv2]]. rewrite (Hv2 eq_refl) in Hv1.
    destruct (compare_ d tv); eexists; (split; [reflexivity|]);
      unfold value_at; simpl; rewrite Hn; simpl; exact Hv1.
Qed.

End Handles.

(** C10 on a heap of capacity 2 with nothing inserted. *)
Lemma handle_accesses_in_bounds_iff_witness :
  capacity empty_two = 2 /\
  ((forall v : keyed, handle_of v < 2) <->
   (forall d, kpush empty_two d <> Err OobIndex /\
              kupdate empty_two d <> Err OobIndex)) /\
  (forall head0 top0 (d : keyed),
     capacity (@binomial_heap_default keyed head0 top0) = 0 /\
     kpush (binomial_heap_default head0 top0) d = Err OobIndex /\
     kupdate (binomial_heap_default head0 top0) d = Err OobIndex).
Proof.
  apply (handle_accesses_in_bounds_iff key_less handle_of 0 2 empty_two).
  apply reach_new.
Defined.

(** C4 as stated fails: [pop] on the empty heap reports nothing, and
    [update] through the handle [1], which was never inserted, replaces the
    value of handle [0]. *)
Lemma precondition_violations_counterexample :
  empty empty_two = true /\
  kpop empty_two = Ok empty_two /\
  exists h h',
    krun empty_two one_of_two = Ok h /\
    elements_ h = [(5, 0)] /\
    kupdate h (1, 1) = Ok h' /\
    elements_ h' = [(1, 1)] /\ size h' = 1.
Proof.
  split; [reflexivity|]. split; [reflexivity|].
  eexists. eexists. run_code.
Qed.

(** C4 as the code has it, on the empty heap of capacity 2 and on the heap
    holding one value. *)
Lemma precondition_violations_witness :
  kpop empty_two = Ok empty_two /\
  top empty_two = Err OobData /\
  exists h h',
    krun empty_two one_of_two = Ok h /\
    kupdate h (1, 1) = Ok h' /\ value_at h' 0 = Ok (1, 1).
Proof.
  destruct (precondition_violations key_less handle_of 0 empty_two)
    as (P & Q & _).
  split; [apply P; reflexivity|].
  split; [apply Q; [reflexivity|vm_compute; discriminate]|].
  exists (mk_heap [(5, 0)] [mk_node 0 npos npos npos 0] 0 0 [0; 0]).
  destruct (precondition_violations key_less handle_of 0
              (mk_heap [(5, 0)] [mk_node 0 npos npos npos 0] 0 0 [0; 0]))
    as (_ & _ & U).
  destruct (U (1, 1) 0 (mk_node 0 npos npos npos 0) (mk_node 0 npos npos npos 0))
    as [h' [U1 U2]]; try reflexivity.
  exists h'. split; [vm_compute; reflexivity|]. split; assumption.
Defined.

(** ** Fields after a write *)

Lemma field_ok f dflt d x n : dget d x = Ok n -> field f dflt d x = f n.
Proof. unfold field. now intros ->. Qed.

Lemma field_oob f dflt d x : vsize d <= x -> field f dflt d x = dflt.
Proof. intros H. unfold field, dget. now rewrite vget_oob. Qed.

Lemma field_dmod_eq f dflt d i g d' n :
  dmod d i g = Ok d' -> dget d i = Ok n -> field f dflt d' i = f (g n).
Proof.
  intros H E. unfold field. now rewrite (dmod_get_eq _ _ _ _ _ H E).
Qed.

Lemma field_dmod_ne f dflt d i g d' x :
  dmod d i g = Ok d' -> x <> i -> field f dflt d' x = field f dflt d x.
Proof.
  intros H E. unfold field. now rewrite (dmod_get_ne _ _ _ _ _ H E).
Qed.

Lemma field_dmod_same f dflt d i g d' :
  dmod d i g = Ok d' -> (forall n, f (g n) = f n) ->
  forall x, field f dflt d' x = field f dflt d x.
Proof.
  intros H Hg x. destruct (N.eq_dec x i) as [->|E].
  - apply dmod_ok in H as H'. destruct H' as [n [E _]].
    rewrite (field_dmod_eq _ _ _ _ _ _ _ H E), Hg.
    symmetry. now apply field_ok.
  - eapply field_dmod_ne; eauto.
Qed.

Lemma dmod_sib_eq d i v d' :
  dmod d i (fun n => set_right_sibling n v) = Ok d' -> sib d' i = v.
Proof.
  intros H. apply dmod_ok in H as H'. destruct H' as [n [E _]].
  unfold sib. now rewrite (field_dmod_eq _ _ _ _ _ _ _ H E).
Qed.

Lemma dmod_sib_links d i v d' :
  dmod d i (fun n => set_right_sibling n v) = Ok d' -> links_only d d'.
Proof.
  intros H. split; [eapply dmod_vsize; eauto|].
  intros x. unfold deg, chd, par, itm.
  repeat split; eapply field_dmod_same; eauto.
Qed.

Lemma links_only_refl d : links_only d d.
Proof. split; auto. Qed.

Lemma links_only_trans d1 d2 d3 :
  links_only d1 d2 -> links_only d2 d3 -> links_only d1 d3.
Proof.
  intros [V1 F1] [V2 F2]. split; [congruence|].
  intros x. destruct (F1 x) as (A1 & B1 & C1 & D1).
  destruct (F2 x) as (A2 & B2 & C2 & D2). repeat split; congruence.
Qed.

(** ** Linked lists in the arena *)

Lemma seg_valid d p l q x : seg d p l q -> In x l -> x < vsize d.
Proof.
  revert p. induction l as [|y l IH]; intros p H I; simpl in *; [tauto|].
  destruct H as (_ & V & H). destruct I as [<-|I]; eauto.
Qed.

Lemma seg_app d p l1 l2 q :
  seg d p (l1 ++ l2) q <-> exists m, seg d p l1 m /\ seg d m l2 q.
Proof.
  revert p. induction l1 as [|x l1 IH]; intros p; simpl.
  - split; [eauto|]. now intros [m [-> H]].
  - rewrite IH. split.
    + intros (E & V & m & H1 & H2). eauto.
    + intros (m & (E & V & H1) & H2). eauto.
Qed.

Lemma seg_frame d d' p l q :
  vsize d <= vsize d' -> (forall x, In x l -> sib d' x = sib d x) ->
  seg d p l q -> seg d' p l q.
Proof.
  intros V. revert p. induction l as [|x l IH]; intros p F H; simpl in *; auto.
  destruct H as (E & L & H). split; [auto|]. split; [lia|].
  rewrite F by auto. apply IH; auto.
Qed.

Lemma chain_npos d l : vsize d <= npos -> chain d npos l -> l = [].
Proof.
  intros V H. destruct l as [|x l]; auto. unfold chain in H. simpl in H.
  destruct H as (E & L & _). lia.
Qed.

Lemma chain_nil d p : chain d p [] -> p = npos.
Proof. auto. Qed.

Lemma chain_cons d p l :
  vsize d <= npos -> p <> npos -> chain d p l ->
  exists l', l = p :: l' /\ p < vsize d /\ chain d (sib d p) l'.
Proof.
  intros V N H. unfold chain in *.
  destruct l as [|x l]; simpl in H; [congruence|].
  destruct H as (-> & L & H). eauto.
Qed.

Lemma chain_fun d p l1 l2 :
  vsize d <= npos -> chain d p l1 -> chain d p l2 -> l1 = l2.
Proof.
  intros V. revert p l2. induction l1 as [|x l1 IH]; intros p l2 H1 H2.
  - unfold chain in H1. simpl in H1. subst. symmetry. eapply chain_npos; eauto.
  - unfold chain in H1. simpl in H1. destruct H1 as (-> & L & H1).
    apply chain_cons in H2 as (l' & -> & _ & H2); auto; [|lia].
    f_equal. eauto.
Qed.

Lemma chain_frame d d' p l :
  vsize d <= vsize d' -> (forall x, In x l -> sib d' x = sib d x) ->
  chain d p l -> chain d' p l.
Proof. apply seg_frame. Qed.

(** A list without repetition of nodes of the arena is no longer than
    the arena. *)
Lemma nodup_length (l : list N) n :
  NoDup l -> (forall x, In x l -> x < N.of_nat n) -> (length l <= n)%nat.
Proof.
  intros ND B.
  assert (H : incl (map N.to_nat l) (seq 0 n)).
  { intros y I. apply in_map_iff in I as (x & <- & I). apply in_seq.
    specialize (B x I). lia. }
  apply NoDup_incl_length in H.
  - now rewrite length_map, length_seq in H.
  - apply Finite.Injective_map_NoDup; auto.
    intros a b E. now apply N2Nat.inj.
Qed.

Lemma chain_length d p l :
  NoDup l -> chain d p l -> (length l <= length d)%nat.
Proof.
  intros ND H. apply nodup_length; auto.
  intros x I. eapply seg_valid in H; eauto.
Qed.

(** ** Sorted lists of degrees *)

Lemma incr_cons a l : incr (a :: l) <-> incr l /\ Forall (N.lt a) l.
Proof.
  split.
  - intros H. inversion H. auto.
  - intros [H1 H2]. now constructor.
Qed.

Lemma decr_cons a l : decr (a :: l) <-> decr l /\ Forall (fun b => b < a) l.
Proof.
  split.
  - intros H. inversion H. auto.
  - intros [H1 H2]. now constructor.
Qed.

Lemma incr_app l1 l2 :
  incr (l1 ++ l2) <->
  incr l1 /\ incr l2 /\ forall a b, In a l1 -> In b l2 -> a < b.
Proof.
  induction l1 as [|x l1 IH]; simpl.
  - split; [intros H|tauto]. repeat split; auto; [constructor|tauto].
  - rewrite !incr_cons, IH, Forall_app, !Forall_forall. split.
    + intros ((H1 & H2 & H3) & H4 & H5). repeat split; auto.
      intros a b [<-|I] J; auto.
    + intros ((H1 & H2) & H3 & H4). repeat split; auto.
Qed.

Lemma decr_app l1 l2 :
  decr (l1 ++ l2) <->
  decr l1 /\ decr l2 /\ forall a b, In a l1 -> In b l2 -> b < a.
Proof.
  induction l1 as [|x l1 IH]; simpl.
  - split; [intros H|tauto]. repeat split; auto; [constructor|tauto].
  - rewrite !decr_cons, IH, Forall_app, !Forall_forall. split.
    + intros ((H1 & H2 & H3) & H4 & H5). repeat split; auto.
      intros a b [<-|I] J; auto.
    + intros ((H1 & H2) & H3 & H4). repeat split; auto.
Qed.

Lemma decr_rev l : decr l -> incr (rev l).
Proof.
  induction l as [|x l IH]; simpl; intros H; [constructor|].
  apply decr_cons in H as [H1 H2]. apply incr_app.
  split; [auto|]. split; [repeat constructor|].
  intros a b I [<-|[]]. apply in_rev in I.
  rewrite Forall_forall in H2. auto.
Qed.

Lemma incr_nodup l : incr l -> NoDup l.
Proof.
  induction l as [|x l IH]; intros H; constructor;
    apply incr_cons in H as [H1 H2]; auto.
  intros I. rewrite Forall_forall in H2. specialize (H2 x I). lia.
Qed.

Lemma decr_nodup l : decr l -> NoDup l.
Proof.
  induction l as [|x l IH]; intros H; constructor;
    apply decr_cons in H as [H1 H2]; auto.
  intros I. rewrite Forall_forall in H2. specialize (H2 x I). lia.
Qed.

Lemma map_nodup {A : Type} (f : A -> N) l : NoDup (map f l) -> NoDup l.
Proof.
  induction l as [|x l IH]; simpl; intros H; constructor; inversion H; subst; auto.
  intros I. apply H2. now apply in_map.
Qed.

(** A strictly decreasing list below [a] has at most [a] members. *)
Lemma decr_length a l : decr (a :: l) -> vsize l <= a.
Proof.
  revert a. induction l as [|x l IH]; intros a H.
  - unfold vsize. simpl. lia.
  - apply decr_cons in H as [H1 H2]. specialize (IH x H1).
    inversion H2; subst. unfold vsize in *. simpl length. lia.
Qed.

Lemma strictly_increasing_incr l : strictly_increasing l = true <-> incr l.
Proof.
  induction l as [|a l IH]; simpl.
  - split; auto. intros _. constructor.
  - destruct l as [|b l].
    + split; auto. intros _. repeat constructor.
    + rewrite andb_true_iff, N.ltb_lt, IH, (incr_cons a). split.
      * intros [H1 H2]. split; auto. constructor; auto.
        apply incr_cons in H2 as [_ H2].
        eapply Forall_impl; [|exact H2]. simpl. intros; lia.
      * intros [H1 H2]. inversion H2. auto.
Qed.

Lemma merged_tail a l : merged (a :: l) -> merged l.
Proof. destruct l; simpl; tauto. Qed.

Lemma incr_merged l : incr l -> merged l.
Proof.
  induction l as [|a l IH]; intros H; simpl; auto.
  apply incr_cons in H as [H1 H2]. destruct l as [|b l]; auto.
  inversion H2; subst. repeat split; auto; lia.
Qed.

(** ** Merging two lists of roots by degree *)

Lemma merge_lists_nil_r k lp : merge_lists k lp [] = lp.
Proof. destruct lp; reflexivity. Qed.

Lemma merge_lists_cons k x lp y lq :
  merge_lists k (x :: lp) (y :: lq) =
  if k x <? k y then x :: merge_lists k lp (y :: lq)
  else y :: merge_lists k (x :: lp) lq.
Proof. reflexivity. Qed.

Lemma merge_lists_ext_in k k' lp lq :
  (forall x, In x (lp ++ lq) -> k x = k' x) ->
  merge_lists k lp lq = merge_lists k' lp lq.
Proof.
  revert lq. induction lp as [|x lp IHp]; intros lq E; auto.
  induction lq as [|y lq IHq]; auto.
  rewrite !merge_lists_cons.
  rewrite (E x) by (simpl; auto).
  rewrite (E y) by (apply in_or_app; simpl; auto).
  rewrite IHp, IHq; auto.
  - intros z I. apply E. apply in_app_or in I. apply in_or_app. simpl in *. tauto.
  - intros z I. apply E. simpl. auto.
Qed.

Lemma merge_lists_ext k k' lp lq :
  (forall x, k x = k' x) -> merge_lists k lp lq = merge_lists k' lp lq.
Proof. intros E. apply merge_lists_ext_in. auto. Qed.

Lemma merge_lists_perm k lp lq : Permutation (merge_lists k lp lq) (lp ++ lq).
Proof.
  revert lq. induction lp as [|x lp IHp]; intros lq; auto.
  induction lq as [|y lq IHq].
  - rewrite merge_lists_nil_r, app_nil_r. auto.
  - rewrite merge_lists_cons. destruct (k x <? k y).
    + simpl. constructor. apply IHp.
    + rewrite IHq. apply Permutation_middle.
Qed.

Lemma merge_lists_head k lp lq r R :
  merge_lists k lp lq = r :: R ->
  (exists lp', lp = r :: lp') \/ (exists lq', lq = r :: lq').
Proof.
  destruct lp as [|x lp]; [simpl; eauto|].
  destruct lq as [|y lq]; [rewrite merge_lists_nil_r; eauto|].
  rewrite merge_lists_cons. destruct (k x <? k y); intros H; inv H; eauto.
Qed.

Lemma merge_lists_merged k lp lq :
  incr (map k lp) -> incr (map k lq) -> merged (map k (merge_lists k lp lq)).
Proof.
  revert lq. induction lp as [|x lp IHp]; intros lq Hp Hq.
  - simpl. now apply incr_merged.
  - induction lq as [|y lq IHq].
    + rewrite merge_lists_nil_r. now apply incr_merged.
    + simpl in Hp, Hq. apply incr_cons in Hp as Hp'. destruct Hp' as [Hp1 Hp2].
      apply incr_cons in Hq as Hq'. destruct Hq' as [Hq1 Hq2].
      rewrite Forall_forall in Hp2, Hq2.
      rewrite merge_lists_cons. destruct (k x <? k y) eqn:E.
      * apply N.ltb_lt in E. specialize (IHp (y :: lq) Hp1 Hq).
        destruct (merge_lists k lp (y :: lq)) as [|r R] eqn:M; [simpl; auto|].
        assert (L : k x < k r).
        { apply merge_lists_head in M as [[lp' ->]|[lq' M]].
          - apply Hp2. simpl. auto.
          - inv M. auto. }
        change (merged (k x :: k r :: map k R)). simpl.
        repeat split; [lia|lia|exact IHp].
      * apply N.ltb_ge in E. specialize (IHq Hq1).
        destruct (merge_lists k (x :: lp) lq) as [|r R] eqn:M; [simpl; auto|].
        change (merged (k y :: k r :: map k R)).
        change (merged (k r :: map k R)) in IHq.
        cbn [merged]. split; [|split; [|exact IHq]].
        -- apply merge_lists_head in M as [[lp' M]|[lq' ->]].
           ++ inv M. auto.
           ++ apply N.lt_le_incl, Hq2. simpl. auto.
        -- intros Eyr. destruct lq as [|y' lq].
           ++ rewrite merge_lists_nil_r in M. inv M.
              destruct R as [|c R]; simpl; auto. apply Hp2. simpl. auto.
           ++ assert (Ly : k y < k y') by (apply Hq2; simpl; auto).
              rewrite merge_lists_cons in M.
              destruct (k x <? k y') eqn:E'.
              ** inv M. destruct (merge_lists k lp (y' :: lq)) as [|c C] eqn:M';
                   simpl; auto.
                 apply merge_lists_head in M' as [[lp' ->]|[lq' M']].
                 --- apply Hp2. simpl. auto.
                 --- inv M'. lia.
              ** inv M. lia.
Qed.

(** ** The sum of the degrees *)

Lemma sum_deg_app a b : sum_deg (a ++ b) = sum_deg a + sum_deg b.
Proof.
  induction a as [|n a IH]; simpl; auto. rewrite IH. lia.
Qed.

Lemma sum_deg_upd d i n n' :
  nth_error d i = Some n ->
  sum_deg (list_upd d i n') + degree n = sum_deg d + degree n'.
Proof.
  revert i. induction d as [|m d IH]; intros [|i] H; simpl in *; try discriminate.
  - inv H. lia.
  - specialize (IH i H). lia.
Qed.

Lemma sum_deg_dmod d i g d' n :
  dmod d i g = Ok d' -> dget d i = Ok n ->
  sum_deg d' + degree n = sum_deg d + degree (g n).
Proof.
  intros H E. apply dmod_ok in H as [n' [E' ->]].
  rewrite E in E'. inv E'. apply vget_ok in E as [_ E].
  now apply sum_deg_upd.
Qed.

Lemma sum_deg_same d i g d' :
  dmod d i g = Ok d' -> (forall n, degree (g n) = degree n) ->
  sum_deg d' = sum_deg d.
Proof.
  intros H G. apply dmod_ok in H as H'. destruct H' as [n [E _]].
  pose proof (sum_deg_dmod _ _ _ _ _ H E) as S. rewrite G in S. lia.
Qed.

Lemma deg_le_sum d x : deg d x <= sum_deg d.
Proof.
  unfold deg, field. destruct (dget d x) as [n|] eqn:E; [|lia].
  apply vget_ok in E as [_ E]. revert E. generalize (N.to_nat x) as i.
  induction d as [|m d IH]; intros [|i] H; simpl in *; try discriminate.
  - inv H. lia.
  - specialize (IH i H). lia.
Qed.

Lemma deg2_le_sum d x y : x <> y -> deg d x + deg d y <= sum_deg d.
Proof.
  intros N. destruct (dget d x) as [n|] eqn:E.
  - destruct (dmod_lt d x (fun n => set_degree n 0)) as (n' & E' & H).
    { eapply dget_ok_lt; eauto. }
    rewrite E in E'. inv E'.
    pose proof (sum_deg_dmod _ _ _ _ _ H E) as S. simpl in S.
    pose proof (deg_le_sum (list_upd d (N.to_nat x) (set_degree n' 0)) y) as L.
    unfold deg in L at 1.
    rewrite (field_dmod_ne _ _ _ _ _ _ _ H) in L by auto.
    unfold deg at 1. rewrite (field_ok _ _ _ _ _ E). fold deg in L. lia.
  - unfold deg at 1. unfold field. rewrite E. apply deg_le_sum.
Qed.

Lemma sum_deg_ext d d' :
  vsize d' = vsize d -> (forall x, deg d' x = deg d x) -> sum_deg d' = sum_deg d.
Proof.
  intros V F.
  assert (M : map degree d' = map degree d).
  { apply nth_error_ext. intros i. rewrite !nth_error_map.
    destruct (Nat.lt_ge_cases i (length d)) as [L|L].
    - specialize (F (N.of_nat i)). unfold deg, field, dget, vget in F.
      unfold vsize in *. rewrite V in F.
      assert (E : (N.of_nat i <? N.of_nat (length d)) = true)
        by (apply N.ltb_lt; lia).
      rewrite E, Nat2N.id in F.
      destruct (nth_error d' i) eqn:E1, (nth_error d i) eqn:E2; simpl; auto.
      + now rewrite F.
      + apply nth_error_None in E2. lia.
      + apply nth_error_None in E1. unfold vsize in V. lia.
    - assert (E1 : nth_error d i = None) by now apply nth_error_None.
      assert (E2 : nth_error d' i = None).
      { apply nth_error_None. unfold vsize in V. lia. }
      now rewrite E1, E2. }
  unfold sum_deg. clear F V. revert d' M.
  induction d as [|n d IH]; intros [|n' d'] M; simpl in *; try discriminate; auto.
  injection M as M1 M2. rewrite (IH d' M2), M1. reflexivity.
Qed.

(** ** merge *)

Lemma chain_head_npos d p l :
  vsize d <= npos -> chain d p l -> (p =? npos) = true -> l = [].
Proof.
  intros V H E. apply N.eqb_eq in E. subst. eapply chain_npos; eauto.
Qed.

Lemma chain_head_valid d p l :
  vsize d <= npos -> chain d p l -> (p =? npos) = false ->
  exists l', l = p :: l' /\ p < vsize d /\ chain d (sib d p) l'.
Proof.
  intros V H E. apply N.eqb_neq in E. now apply chain_cons.
Qed.

Lemma sib_ok d x n : dget d x = Ok n -> right_sibling n = sib d x.
Proof. intros H. unfold sib. now rewrite (field_ok _ _ _ _ _ H). Qed.

Lemma deg_ok d x n : dget d x = Ok n -> degree n = deg d x.
Proof. intros H. unfold deg. now rewrite (field_ok _ _ _ _ _ H). Qed.

Lemma chd_ok d x n : dget d x = Ok n -> child n = chd d x.
Proof. intros H. unfold chd. now rewrite (field_ok _ _ _ _ _ H). Qed.

Lemma par_ok d x n : dget d x = Ok n -> parent n = par d x.
Proof. intros H. unfold par. now rewrite (field_ok _ _ _ _ _ H). Qed.

Lemma itm_ok d x n : dget d x = Ok n -> item_index n = itm d x.
Proof. intros H. unfold itm. now rewrite (field_ok _ _ _ _ _ H). Qed.

Lemma dmod_sib_ne d i v d' x :
  dmod d i (fun n => set_right_sibling n v) = Ok d' -> x <> i ->
  sib d' x = sib d x.
Proof. intros H E. unfold sib. eapply field_dmod_ne; eauto. Qed.

Lemma merge_loop_spec fuel : forall lp lq D cur p q,
  vsize D <= npos -> cur < vsize D ->
  chain D p lp -> chain D q lq ->
  NoDup (lp ++ lq) -> ~ In cur (lp ++ lq) ->
  (lp ++ lq = [] -> sib D cur = npos) ->
  (length lp + length lq < fuel)%nat ->
  exists D', merge_loop fuel D cur p q = Ok D' /\
    links_only D D' /\
    chain D' (sib D' cur) (merge_lists (deg D) lp lq) /\
    (forall x, x <> cur -> ~ In x (lp ++ lq) -> dget D' x = dget D x).
Proof.
  induction fuel as [|fuel IH]; intros lp lq D cur p q V C Hp Hq ND NI E0 F;
    [lia|].
  simpl merge_loop.
  (* the node [z] that is taken, and what is left of the two lists *)
  assert (CASES :
    (lp = [] /\ lq = [] /\ p = npos /\ q = npos) \/
    (exists x lp', lp = x :: lp' /\ p = x /\ x <> npos /\
       (lq = [] \/ exists y lq', lq = y :: lq' /\ (deg D x <? deg D y) = true) /\
       merge_lists (deg D) lp lq = x :: merge_lists (deg D) lp' lq) \/
    (exists y lq', lq = y :: lq' /\ q = y /\ y <> npos /\
       (lp = [] \/ exists x lp', lp = x :: lp' /\ (deg D x <? deg D y) = false) /\
       merge_lists (deg D) lp lq = y :: merge_lists (deg D) lp lq')).
  { unfold chain in Hp, Hq. destruct lp as [|x lp'], lq as [|y lq']; simpl in Hp, Hq.
    - left. auto.
    - right. right. destruct Hq as (-> & L & _). exists y, lq'.
      split; [reflexivity|]. split; [reflexivity|]. split; [lia|].
      split; [auto|reflexivity].
    - right. left. destruct Hp as (-> & L & _). exists x, lp'.
      split; [reflexivity|]. split; [reflexivity|]. split; [lia|].
      split; [auto|]. rewrite !merge_lists_nil_r. reflexivity.
    - destruct Hp as (-> & Lx & _), Hq as (-> & Ly & _).
      rewrite merge_lists_cons. destruct (deg D x <? deg D y) eqn:E.
      + right. left. exists x, lp'.
        split; [reflexivity|]. split; [reflexivity|]. split; [lia|].
        split; [|reflexivity]. right. eauto.
      + right. right. exists y, lq'.
        split; [reflexivity|]. split; [reflexivity|]. split; [lia|].
        split; [|reflexivity]. right. eauto. }
  destruct CASES as [(-> & -> & -> & ->)|[(x & lp' & -> & -> & Nx & Hc & M)|
                                           (y & lq' & -> & -> & Ny & Hc & M)]].
  - (* both lists are empty *)
    simpl. exists D. split; [reflexivity|]. split; [apply links_only_refl|].
    split; [|auto]. unfold chain. simpl. auto.
  - (* the node of the first list is taken *)
    assert (Ex : (x =? npos) = false) by now apply N.eqb_neq.
    rewrite Ex. simpl negb. simpl orb.
    unfold chain in Hp. simpl in Hp. destruct Hp as (_ & Lx & Hp).
    assert (TP : (if q =? npos then Ok true
                  else if true then np <- dget D x;; nq <- dget D q;;
                                    Ok (degree np <? degree nq)
                  else Ok false) = Ok true).
    { destruct Hc as [->|(y & lq' & -> & Hc)].
      - apply chain_nil in Hq. subst. reflexivity.
      - unfold chain in Hq. simpl in Hq. destruct Hq as (-> & Ly & _).
        assert (Ey : (y =? npos) = false) by (apply N.eqb_neq; lia).
        rewrite Ey. destruct (dget_lt D x Lx) as [nx Gx].
        destruct (dget_lt D y Ly) as [ny Gy]. rewrite Gx, Gy. simpl.
        now rewrite (deg_ok _ _ _ Gx), (deg_ok _ _ _ Gy), Hc. }
    rewrite TP. unfold bind at 1.
    destruct (dmod_lt D cur (fun n => set_right_sibling n x) C) as (nc & Gc & Hm).
    rewrite Hm. unfold bind at 1.
    set (D1 := list_upd D (N.to_nat cur) (set_right_sibling nc x)) in *.
    assert (L1 : links_only D D1) by (eapply dmod_sib_links; eauto).
    assert (NCx : x <> cur) by (intros ->; apply NI; simpl; auto).
    assert (Lx1 : x < vsize D1) by (destruct L1 as [-> _]; auto).
    destruct (dget_lt D1 x Lx1) as [nx Gx]. rewrite Gx. unfold bind at 1.
    rewrite (sib_ok _ _ _ Gx).
    assert (S1 : forall z, z <> cur -> sib D1 z = sib D z).
    { intros z Hz. eapply dmod_sib_ne; eauto. }
    destruct (IH lp' lq D1 x (sib D1 x) q) as (D' & R & L' & CH & FR).
    + destruct L1 as [-> _]. auto.
    + auto.
    + rewrite S1 by auto. eapply chain_frame; [| |exact Hp].
      * destruct L1 as [-> _]. lia.
      * intros z Hz. apply S1. intros ->. apply NI. simpl. right.
        apply in_or_app. auto.
    + eapply chain_frame; [| |exact Hq].
      * destruct L1 as [-> _]. lia.
      * intros z Hz. apply S1. intros ->. apply NI.
        apply in_or_app. auto.
    + simpl in ND. now inv ND.
    + simpl in ND. now inv ND.
    + intros E. apply app_eq_nil in E as [-> ->]. rewrite S1 by auto.
      now apply chain_nil in Hp.
    + simpl in F. lia.
    + exists D'. split; [exact R|]. split; [eapply links_only_trans; eauto|].
      assert (NIc : ~ In cur (lp' ++ lq)) by (intros Hi; apply NI; simpl; auto).
      split.
      * rewrite M. unfold chain. simpl.
        assert (Sc : sib D' cur = x).
        { unfold sib, field. rewrite FR by auto. fold (field right_sibling npos D1 cur).
          fold (sib D1 cur). eapply dmod_sib_eq; eauto. }
        rewrite Sc. split; [auto|]. split.
        -- destruct L' as [-> _]. auto.
        -- erewrite merge_lists_ext; [exact CH|].
           intros z. destruct L1 as [_ L1]. now destruct (L1 z) as [-> _].
      * intros z Hz Hi. rewrite FR.
        -- eapply dmod_get_ne; eauto.
        -- intros ->. apply Hi. simpl. auto.
        -- intros Hi'. apply Hi. simpl. auto.
  - (* the node of the second list is taken *)
    assert (Ey : (y =? npos) = false) by now apply N.eqb_neq.
    rewrite Ey. rewrite orb_true_r.
    unfold chain in Hq. simpl in Hq. destruct Hq as (_ & Ly & Hq).
    assert (TP : (if negb (p =? npos) then np <- dget D p;; nq <- dget D y;;
                                    Ok (degree np <? degree nq)
                  else Ok false) = Ok false).
    { destruct Hc as [->|(x & lp' & -> & Hc)].
      - apply chain_nil in Hp. subst. reflexivity.
      - unfold chain in Hp. simpl in Hp. destruct Hp as (-> & Lx & _).
        assert (Ex : (x =? npos) = false) by (apply N.eqb_neq; lia).
        rewrite Ex. destruct (dget_lt D x Lx) as [nx Gx].
        destruct (dget_lt D y Ly) as [ny Gy]. rewrite Gx, Gy. simpl.
        now rewrite (deg_ok _ _ _ Gx), (deg_ok _ _ _ Gy), Hc. }
    rewrite TP. unfold bind at 1.
    destruct (dmod_lt D cur (fun n => set_right_sibling n y) C) as (nc & Gc & Hm).
    rewrite Hm. unfold bind at 1.
    set (D1 := list_upd D (N.to_nat cur) (set_right_sibling nc y)) in *.
    assert (L1 : links_only D D1) by (eapply dmod_sib_links; eauto).
    assert (NCy : y <> cur).
    { intros ->. apply NI. apply in_or_app. simpl. auto. }
    assert (Ly1 : y < vsize D1) by (destruct L1 as [-> _]; auto).
    destruct (dget_lt D1 y Ly1) as [ny Gy]. rewrite Gy. unfold bind at 1.
    rewrite (sib_ok _ _ _ Gy).
    assert (S1 : forall z, z <> cur -> sib D1 z = sib D z).
    { intros z Hz. eapply dmod_sib_ne; eauto. }
    assert (ND' : NoDup (lp ++ lq')) by (eapply NoDup_remove_1; eauto).
    assert (NIy : ~ In y (lp ++ lq')) by (eapply NoDup_remove_2; eauto).
    destruct (IH lp lq' D1 y p (sib D1 y)) as (D' & R & L' & CH & FR).
    + destruct L1 as [-> _]. auto.
    + auto.
    + eapply chain_frame; [| |exact Hp].
      * destruct L1 as [-> _]. lia.
      * intros z Hz. apply S1. intros ->. apply NI.
        apply in_or_app. auto.
    + rewrite S1 by auto. eapply chain_frame; [| |exact Hq].
      * destruct L1 as [-> _]. lia.
      * intros z Hz. apply S1. intros ->. apply NI.
        apply in_or_app. simpl. auto.
    + auto.
    + auto.
    + intros E. apply app_eq_nil in E as [-> ->]. rewrite S1 by auto.
      now apply chain_nil in Hq.
    + simpl in F. lia.
    + exists D'. split; [exact R|]. split; [eapply links_only_trans; eauto|].
      assert (NIc : ~ In cur (lp ++ lq')).
      { intros Hi. apply NI. apply in_app_or in Hi.
        apply in_or_app. simpl. tauto. }
      split.
      * rewrite M. unfold chain. simpl.
        assert (Sc : sib D' cur = y).
        { unfold sib, field. rewrite FR by auto. fold (field right_sibling npos D1 cur).
          fold (sib D1 cur). eapply dmod_sib_eq; eauto. }
        rewrite Sc. split; [auto|]. split.
        -- destruct L' as [-> _]. auto.
        -- erewrite merge_lists_ext; [exact CH|].
           intros z. destruct L1 as [_ L1]. now destruct (L1 z) as [-> _].
      * intros z Hz Hi. rewrite FR.
        -- eapply dmod_get_ne; eauto.
        -- intros ->. apply Hi. apply in_or_app. simpl. auto.
        -- intros Hi'. apply Hi. apply in_app_or in Hi'.
           apply in_or_app. simpl. tauto.
Qed.

Lemma seg_transfer d d' p l q :
  (forall x, In x l -> x < vsize d' /\ sib d' x = sib d x) ->
  seg d p l q -> seg d' p l q.
Proof.
  revert p. induction l as [|x l IH]; intros p F H; simpl in *; auto.
  destruct H as (E & L & H). destruct (F x) as [L' S]; auto.
  split; [auto|]. split; [auto|]. rewrite S. apply IH; auto.
Qed.

Lemma field_app_l f dflt d s x :
  x < vsize d -> field f dflt (d ++ s) x = field f dflt d x.
Proof. intros H. unfold field, dget. now rewrite vget_app_l. Qed.

Lemma field_removelast f dflt (d : arena) x :
  x + 1 < vsize d -> field f dflt (removelast d) x = field f dflt d x.
Proof. intros H. unfold field, dget. now rewrite vget_removelast. Qed.

Lemma field_dmod f dflt d i g d' n w :
  dmod d i g = Ok d' -> dget d i = Ok n ->
  field f dflt d' w = (if w =? i then f (g n) else field f dflt d w).
Proof.
  intros H E. destruct (w =? i) eqn:Ew.
  - apply N.eqb_eq in Ew. subst. eapply field_dmod_eq; eauto.
  - apply N.eqb_neq in Ew. eapply field_dmod_ne; eauto.
Qed.

Lemma merge_spec {T : Type} indeterminate (h : binomial_heap T) index lp lq :
  vsize (data_ h) < npos ->
  chain (data_ h) (head_ h) lp -> chain (data_ h) index lq ->
  lp <> [] -> lq <> [] -> NoDup (lp ++ lq) ->
  exists h', merge indeterminate h index = Ok h' /\
    elements_ h' = elements_ h /\ top_ h' = top_ h /\
    index_array h' = index_array h /\
    links_only (data_ h) (data_ h') /\
    chain (data_ h') (head_ h') (merge_lists (deg (data_ h)) lp lq) /\
    (forall x, ~ In x (lp ++ lq) -> dget (data_ h') x = dget (data_ h) x).
Proof.
  intros V Hp Hq Np Nq ND. unfold merge.
  set (d := data_ h) in *.
  assert (Vall : forall x, In x (lp ++ lq) -> x < vsize d).
  { intros x I. apply in_app_or in I as [I|I];
      [apply (seg_valid _ _ _ _ _ Hp I)|apply (seg_valid _ _ _ _ _ Hq I)]. }
  destruct lp as [|p lp']; [congruence|]. destruct lq as [|q lq']; [congruence|].
  assert (Ep : head_ h = p) by (unfold chain in Hp; simpl in Hp; tauto).
  assert (Eq : index = q) by (unfold chain in Hq; simpl in Hq; tauto).
  rewrite Ep, Eq in *.
  destruct (dget_lt d p) as [np Gp]; [apply Vall; simpl; auto|].
  destruct (dget_lt d q) as [nq Gq]; [apply Vall; apply in_or_app; simpl; auto|].
  rewrite Gp, Gq. unfold bind at 1. unfold bind at 1.
  set (s := binomial_heap_node_default indeterminate).
  set (D0 := d ++ [s]).
  assert (V0 : vsize D0 = vsize d + 1) by (unfold D0; now rewrite vsize_app).
  assert (S0 : forall x, x < vsize d -> sib D0 x = sib d x).
  { intros x Hx. unfold sib, D0. now apply field_app_l. }
  destruct (merge_loop_spec (fuel_of D0) (p :: lp') (q :: lq') D0 (vsize d) p q)
    as (D' & R & [V' L'] & CH & FR).
  - lia.
  - lia.
  - eapply seg_transfer; [|exact Hp]. intros x I. split.
    + rewrite V0. assert (x < vsize d) by (apply Vall, in_or_app; auto). lia.
    + apply S0. apply Vall, in_or_app; auto.
  - eapply seg_transfer; [|exact Hq]. intros x I. split.
    + rewrite V0. assert (x < vsize d) by (apply Vall, in_or_app; auto). lia.
    + apply S0. apply Vall, in_or_app; auto.
  - exact ND.
  - intros I. apply Vall in I. lia.
  - discriminate.
  - assert (length ((p :: lp') ++ q :: lq') <= length d)%nat.
    { apply nodup_length; auto. }
    unfold fuel_of, D0. rewrite length_app in *. simpl in *. lia.
  - rewrite R. unfold bind at 1.
    assert (LI : last_index D' = vsize d).
    { assert (last_index D' + 1 = vsize D') by (apply last_index_pos; lia). lia. }
    rewrite LI.
    destruct (dget_lt D' (vsize d)) as [nl Gl]; [lia|].
    rewrite Gl. unfold bind at 1.
    eexists. split; [reflexivity|].
    cbn [elements_ data_ head_ top_ index_array].
    assert (NE : D' <> []).
    { intros ->. change (vsize (@nil binomial_heap_node)) with 0 in V'. lia. }
    pose proof (vsize_removelast D' NE) as VR.
    assert (GR : forall x, x < vsize d -> dget (removelast D') x = dget D' x).
    { intros x Hx. apply vget_removelast. lia. }
    assert (FF : forall f dflt,
                 (forall x, field f dflt D' x = field f dflt D0 x) ->
                 forall x, field f dflt (removelast D') x = field f dflt d x).
    { intros f dflt Hf x. destruct (N.lt_ge_cases x (vsize d)).
      - unfold field at 1. rewrite GR by auto. fold (field f dflt D' x).
        rewrite Hf. unfold D0. now apply field_app_l.
      - rewrite !field_oob; auto; lia. }
    split; [auto|]. split; [auto|]. split; [auto|]. split; [|split].
    + split; [lia|]. intros x. repeat split.
      * apply FF. intros y. apply L'.
      * apply FF. intros y. apply L'.
      * apply FF. intros y. apply L'.
      * apply FF. intros y. apply L'.
    + rewrite (sib_ok _ _ _ Gl).
      rewrite (merge_lists_ext_in (deg d) (deg D0)).
      * eapply seg_transfer; [|exact CH]. intros x I.
        assert (Hx : x < vsize d).
        { apply Vall. eapply Permutation_in; [apply merge_lists_perm|exact I]. }
        split; [lia|]. unfold sib, field. now rewrite GR.
      * intros x I. symmetry. unfold deg, D0. apply field_app_l. now apply Vall.
    + intros x NIx. destruct (N.lt_ge_cases x (vsize d)).
      * rewrite GR by auto. rewrite FR; auto; [|lia].
        unfold D0, dget. now apply vget_app_l.
      * unfold dget. rewrite !vget_oob; auto; lia.
Qed.

(** ** Writes of one field *)

Lemma field_dmod_upd f dflt d i g d' v :
  dmod d i g = Ok d' -> (forall n, f (g n) = v) ->
  forall w, field f dflt d' w = (if w =? i then v else field f dflt d w).
Proof.
  intros H G w. apply dmod_ok in H as H'. destruct H' as [n [E _]].
  rewrite (field_dmod _ _ _ _ _ _ _ w H E), G. reflexivity.
Qed.

Lemma dmod_parent d i v d' :
  dmod d i (fun n => set_parent n v) = Ok d' ->
  vsize d' = vsize d /\
  forall w, par d' w = (if w =? i then v else par d w) /\
            sib d' w = sib d w /\ chd d' w = chd d w /\
            deg d' w = deg d w /\ itm d' w = itm d w.
Proof.
  intros H. split; [eapply dmod_vsize; eauto|]. intros w.
  unfold par, sib, chd, deg, itm.
  rewrite (field_dmod_upd parent _ _ _ _ _ v H) by reflexivity.
  repeat split; eapply field_dmod_same; eauto.
Qed.

Lemma dmod_sibling d i v d' :
  dmod d i (fun n => set_right_sibling n v) = Ok d' ->
  vsize d' = vsize d /\
  forall w, sib d' w = (if w =? i then v else sib d w) /\
            par d' w = par d w /\ chd d' w = chd d w /\
            deg d' w = deg d w /\ itm d' w = itm d w.
Proof.
  intros H. split; [eapply dmod_vsize; eauto|]. intros w.
  unfold par, sib, chd, deg, itm.
  rewrite (field_dmod_upd right_sibling _ _ _ _ _ v H) by reflexivity.
  repeat split; eapply field_dmod_same; eauto.
Qed.

Lemma dmod_child d i v d' :
  dmod d i (fun n => set_child n v) = Ok d' ->
  vsize d' = vsize d /\
  forall w, chd d' w = (if w =? i then v else chd d w) /\
            par d' w = par d w /\ sib d' w = sib d w /\
            deg d' w = deg d w /\ itm d' w = itm d w.
Proof.
  intros H. split; [eapply dmod_vsize; eauto|]. intros w.
  unfold par, sib, chd, deg, itm.
  rewrite (field_dmod_upd child _ _ _ _ _ v H) by reflexivity.
  repeat split; eapply field_dmod_same; eauto.
Qed.

Lemma dmod_degree d i v d' :
  dmod d i (fun n => set_degree n v) = Ok d' ->
  vsize d' = vsize d /\
  forall w, deg d' w = (if w =? i then v else deg d w) /\
            par d' w = par d w /\ sib d' w = sib d w /\
            chd d' w = chd d w /\ itm d' w = itm d w.
Proof.
  intros H. split; [eapply dmod_vsize; eauto|]. intros w.
  unfold par, sib, chd, deg, itm.
  rewrite (field_dmod_upd degree _ _ _ _ _ v H) by reflexivity.
  repeat split; eapply field_dmod_same; eauto.
Qed.

Lemma dmod_item d i v d' :
  dmod d i (fun n => set_item_index n v) = Ok d' ->
  vsize d' = vsize d /\
  forall w, itm d' w = (if w =? i then v else itm d w) /\
            par d' w = par d w /\ sib d' w = sib d w /\
            chd d' w = chd d w /\ deg d' w = deg d w.
Proof.
  intros H. split; [eapply dmod_vsize; eauto|]. intros w.
  unfold par, sib, chd, deg, itm.
  rewrite (field_dmod_upd item_index _ _ _ _ _ v H) by reflexivity.
  repeat split; eapply field_dmod_same; eauto.
Qed.

(** ** binomial_link *)

Lemma binomial_link_spec d y z :
  y < vsize d -> z < vsize d -> y <> z ->
  exists d', binomial_link d y z = Ok d' /\ vsize d' = vsize d /\
    forall w,
      sib d' w = (if w =? y then chd d z else sib d w) /\
      chd d' w = (if w =? z then y else chd d w) /\
      par d' w = (if w =? y then z else par d w) /\
      deg d' w = (if w =? z then wrap (deg d z + 1) else deg d w) /\
      itm d' w = itm d w.
Proof.
  intros Ly Lz Nyz. unfold binomial_link.
  destruct (dmod_lt d y (fun n => set_parent n z) Ly) as (ny & Gy & H1).
  rewrite H1. unfold bind at 1. set (d1 := list_upd d _ _) in *.
  apply dmod_parent in H1 as [V1 F1].
  destruct (dget_lt d1 z) as [nz Gz]; [lia|]. rewrite Gz. unfold bind at 1.
  destruct (dmod_lt d1 y (fun n => set_right_sibling n (child nz)))
    as (ny1 & Gy1 & H2); [lia|].
  rewrite H2. unfold bind at 1. set (d2 := list_upd d1 _ _) in *.
  apply dmod_sibling in H2 as [V2 F2].
  destruct (dmod_lt d2 z (fun n => set_child n y)) as (nz2 & Gz2 & H3); [lia|].
  rewrite H3. unfold bind at 1. set (d3 := list_upd d2 _ _) in *.
  apply dmod_child in H3 as [V3 F3].
  destruct (dget_lt d3 z) as [nz3 Gz3]; [lia|]. rewrite Gz3. unfold bind at 1.
  destruct (dmod_lt d3 z (fun n => set_degree n (wrap (degree nz3 + 1))))
    as (nz3' & Gz3' & H4); [lia|].
  rewrite H4. eexists. split; [reflexivity|]. set (d4 := list_upd d3 _ _) in *.
  apply dmod_degree in H4 as [V4 F4]. split; [congruence|].
  rewrite (chd_ok _ _ _ Gz) in F2. rewrite (deg_ok _ _ _ Gz3) in F4.
  assert (C1 : chd d1 z = chd d z) by (destruct (F1 z); tauto).
  assert (D3 : deg d3 z = deg d z).
  { destruct (F3 z) as (_ & _ & _ & -> & _).
    destruct (F2 z) as (_ & _ & _ & -> & _).
    destruct (F1 z) as (_ & _ & _ & -> & _). reflexivity. }
  rewrite C1 in F2. rewrite D3 in F4.
  intros w.
  destruct (F1 w) as (A1 & B1 & C1' & D1 & E1).
  destruct (F2 w) as (A2 & B2 & C2 & D2 & E2).
  destruct (F3 w) as (A3 & B3 & C3 & D3' & E3).
  destruct (F4 w) as (A4 & B4 & C4 & D4 & E4).
  destruct (w =? y), (w =? z); repeat split; congruence.
Qed.

(** ** Linking two roots keeps the shape *)

Lemma upd_kids_eq kids z l : upd_kids kids z l z = l.
Proof. unfold upd_kids. now rewrite N.eqb_refl. Qed.

Lemma upd_kids_ne kids z l i : i <> z -> upd_kids kids z l i = kids i.
Proof.
  intros H. unfold upd_kids. apply N.eqb_neq in H. now rewrite H.
Qed.

Lemma shape_link ex d hd roots kids d2 hd2 roots2 y z :
  shape ex d hd roots kids ->
  In y roots -> In z roots -> z <> ex -> y <> z ->
  NoDup roots2 -> incl roots2 roots -> ~ In y roots2 ->
  chain d2 hd2 roots2 ->
  vsize d2 = vsize d ->
  (forall w, ~ In w roots -> sib d2 w = sib d w) ->
  sib d2 y = chd d z ->
  (forall w, chd d2 w = (if w =? z then y else chd d w)) ->
  (forall w, deg d2 w = (if w =? z then deg d z + 1 else deg d w)) ->
  deg d y = deg d z ->
  shape ex d2 hd2 roots2 (upd_kids kids z (y :: kids z)).
Proof.
  intros SH Iy Iz Zex Nyz ND2 INC NIy CH2 V2 FS SY FC FD DYZ.
  destruct SH as [SR SN SK SD SO SRK SKK].
  assert (Vy : y < vsize d) by (eapply seg_valid; eauto).
  assert (Vz : z < vsize d) by (eapply seg_valid; eauto).
  assert (KF : forall i, i < vsize d -> i <> ex ->
               forall x, In x (kids i) -> x < vsize d2 /\ sib d2 x = sib d x).
  { intros i Vi Ei x Ix. split.
    - rewrite V2. eapply seg_valid; [apply (SK i Vi Ei)|exact Ix].
    - apply FS. intros Ir. exact (SRK i x Ir Ix). }
  assert (KD : forall i, map (deg d2) (kids i) = map (deg d) (kids i)).
  { intros i. apply map_ext_in. intros w Iw. rewrite FD.
    destruct (w =? z) eqn:E; auto. apply N.eqb_eq in E. subst.
    exfalso. exact (SRK i z Iz Iw). }
  constructor.
  - exact CH2.
  - exact ND2.
  - intros i Vi Ei. rewrite V2 in Vi. destruct (N.eq_dec i z) as [->|Niz].
    + rewrite upd_kids_eq. rewrite FC, N.eqb_refl. unfold chain. simpl.
      split; [reflexivity|]. split; [lia|]. rewrite SY.
      eapply seg_transfer; [|apply (SK z Vz Zex)]. apply KF; auto.
    + rewrite upd_kids_ne by auto. rewrite FC.
      apply N.eqb_neq in Niz as E. rewrite E.
      eapply seg_transfer; [|apply (SK i Vi Ei)]. apply KF; auto.
  - intros i Vi Ei. rewrite V2 in Vi. destruct (N.eq_dec i z) as [->|Niz].
    + rewrite upd_kids_eq. simpl map. rewrite KD, !FD, N.eqb_refl.
      apply N.eqb_neq in Nyz as E. rewrite E, DYZ.
      specialize (SD z Vz Zex). apply decr_cons. split; [exact SD|].
      constructor; [lia|]. apply decr_cons in SD as [_ SD].
      eapply Forall_impl; [|exact SD]. simpl. intros; lia.
    + rewrite upd_kids_ne by auto. rewrite KD, FD.
      apply N.eqb_neq in Niz as E. rewrite E. auto.
  - intros i Hi. rewrite upd_kids_ne; [apply SO; rewrite <- V2; auto|].
    intros ->. destruct Hi; [lia|congruence].
  - intros i x Ix. apply INC in Ix as Ix'. destruct (N.eq_dec i z) as [->|Niz].
    + rewrite upd_kids_eq. intros [<-|I]; [auto|]. exact (SRK z x Ix' I).
    + rewrite upd_kids_ne by auto. auto.
  - intros i j x. destruct (N.eq_dec i z) as [->|Niz], (N.eq_dec j z) as [->|Njz];
      auto; rewrite ?upd_kids_eq, ?upd_kids_ne by auto.
    + intros [<-|I] J.
      * exfalso. exact (SRK j y Iy J).
      * eauto.
    + intros I [<-|J].
      * exfalso. exact (SRK i y Iy I).
      * eauto.
    + eauto.
Qed.

(** ** One consolidation step *)

Lemma sum_deg_incr d d2 z :
  vsize d2 = vsize d -> z < vsize d ->
  (forall w, deg d2 w = (if w =? z then deg d z + 1 else deg d w)) ->
  sum_deg d2 = sum_deg d + 1.
Proof.
  intros V Vz FD.
  destruct (dmod_lt d z (fun n => set_degree n (deg d z + 1)) Vz) as (n & G & H).
  set (d1 := list_upd d _ _) in *.
  pose proof (sum_deg_dmod _ _ _ _ _ H G) as S. simpl in S.
  rewrite (deg_ok _ _ _ G) in S.
  apply dmod_degree in H as [V1 F1].
  assert (E : sum_deg d2 = sum_deg d1).
  { apply sum_deg_ext; [congruence|]. intros x. rewrite FD.
    destruct (F1 x) as [-> _]. reflexivity. }
  lia.
Qed.

Lemma credit_room ex d roots z :
  credit ex d roots -> z <> ex -> (2 <= length roots)%nat -> vsize d <= npos ->
  wrap (deg d z + 1) = deg d z + 1.
Proof.
  intros C Nz L V. unfold credit in C.
  pose proof (deg2_le_sum d z ex Nz) as S.
  unfold wrap. apply N.mod_small. unfold vsize at 1 in C.
  unfold npos, SIZE_WIDTH in *. lia.
Qed.

Lemma map_deg_same d d2 z l :
  (forall w, w <> z -> deg d2 w = deg d w) -> ~ In z l ->
  map (deg d2) l = map (deg d) l.
Proof.
  intros F N. apply map_ext_in. intros w I. apply F. intros ->. auto.
Qed.

Lemma incr_last_up l a b : incr (l ++ [a]) -> a <= b -> incr (l ++ [b]).
Proof.
  rewrite !incr_app. intros (H1 & H2 & H3) L. split; [auto|].
  split; [repeat constructor|]. intros x y Ix [<-|[]].
  specialize (H3 x a Ix). simpl in H3. specialize (H3 (or_introl eq_refl)). lia.
Qed.

(** The two adjacent roots [a] and [b] of equal degree become one tree: the
    root [z] stays, the root [y] goes below it. *)
Lemma cons_link ex d hd pre a b rest' kids d2 hd2 y z :
  vsize d <= npos ->
  shape ex d hd (pre ++ a :: b :: rest') kids ->
  credit ex d (pre ++ a :: b :: rest') ->
  ~ In ex (pre ++ a :: b :: rest') ->
  cons_inv (map (deg d) pre) (deg d a) (map (deg d) (b :: rest')) ->
  deg d a = deg d b ->
  (match rest' with [] => True | t :: _ => deg d t <> deg d a end) ->
  (y = b /\ z = a) \/ (y = a /\ z = b) ->
  chain d2 hd2 (pre ++ z :: rest') ->
  vsize d2 = vsize d ->
  (forall w, ~ In w (pre ++ a :: b :: rest') -> sib d2 w = sib d w) ->
  sib d2 y = chd d z ->
  (forall w, chd d2 w = (if w =? z then y else chd d w)) ->
  (forall w, deg d2 w = (if w =? z then deg d z + 1 else deg d w)) ->
  (forall w, par d2 w = (if w =? y then z else par d w)) ->
  (forall w, itm d2 w = itm d w) ->
  shape ex d2 hd2 (pre ++ z :: rest') (upd_kids kids z (y :: kids z)) /\
  credit ex d2 (pre ++ z :: rest') /\
  ~ In ex (pre ++ z :: rest') /\
  cons_inv (map (deg d2) pre) (deg d2 z) (map (deg d2) rest') /\
  same_items d d2 /\
  (parents_ok d -> orphans d (pre ++ a :: b :: rest') ->
   parents_ok d2 /\ orphans d2 (pre ++ z :: rest')).
Proof.
  intros V SH CR NEX CI DAB TH YZ CH2 V2 FS SY FC FD FP FI.
  set (roots := pre ++ a :: b :: rest') in *.
  set (roots2 := pre ++ z :: rest') in *.
  assert (ND : NoDup roots) by (destruct SH; auto).
  assert (Ia : In a roots) by (apply in_or_app; simpl; auto).
  assert (Ib : In b roots) by (apply in_or_app; simpl; auto).
  assert (Nab : a <> b).
  { intros ->. apply NoDup_remove_2 in ND. apply ND.
    apply in_or_app. simpl. auto. }
  assert (Iy : In y roots) by (destruct YZ as [[-> ->]|[-> ->]]; auto).
  assert (Iz : In z roots) by (destruct YZ as [[-> ->]|[-> ->]]; auto).
  assert (Nyz : y <> z) by (destruct YZ as [[-> ->]|[-> ->]]; auto).
  assert (Zex : z <> ex) by (intros ->; auto).
  assert (Vz : z < vsize d) by (destruct SH; eapply seg_valid; eauto).
  assert (Vy : y < vsize d) by (destruct SH; eapply seg_valid; eauto).
  assert (INC : incl roots2 roots).
  { intros w I. apply in_app_or in I as [I|[<-|I]]; auto.
    - apply in_or_app. auto.
    - apply in_or_app. simpl. auto. }
  assert (ND2 : NoDup roots2 /\ ~ In y roots2).
  { unfold roots, roots2 in *.
    destruct YZ as [[-> ->]|[-> ->]].
    - change (pre ++ a :: b :: rest') with (pre ++ [a] ++ b :: rest') in ND.
      rewrite app_assoc in ND.
      pose proof (NoDup_remove_1 _ _ _ ND) as N1.
      pose proof (NoDup_remove_2 _ _ _ ND) as N2.
      rewrite <- app_assoc in N1, N2. simpl in N1, N2. auto.
    - pose proof (NoDup_remove_1 _ _ _ ND) as N1.
      pose proof (NoDup_remove_2 _ _ _ ND) as N2. auto. }
  destruct ND2 as [ND2 NIy].
  assert (LEN : length roots = S (length roots2)).
  { unfold roots, roots2. rewrite !length_app. simpl. lia. }
  assert (DZ : deg d z = deg d a) by (destruct YZ as [[-> ->]|[-> ->]]; auto).
  assert (DY : deg d y = deg d z) by (destruct YZ as [[-> ->]|[-> ->]]; auto).
  assert (FD' : forall w, w <> z -> deg d2 w = deg d w).
  { intros w Nw. rewrite FD. apply N.eqb_neq in Nw. now rewrite Nw. }
  assert (NZpre : ~ In z pre).
  { intros I. apply NoDup_remove_2 in ND.
    destruct YZ as [[-> ->]|[-> ->]].
    - apply ND. apply in_or_app. auto.
    - change (pre ++ a :: b :: rest') with (pre ++ [a] ++ b :: rest') in *.
      unfold roots in ND2. apply NoDup_remove_2 in ND2. apply ND2.
      apply in_or_app. auto. }
  assert (NZrest : ~ In z rest').
  { intros I. apply NoDup_remove_2 in ND2. apply ND2.
    apply in_or_app. auto. }
  split; [|split; [|split; [|split; [|split]]]].
  - eapply shape_link; eauto.
  - unfold credit in *. rewrite (sum_deg_incr d d2 z); auto.
    rewrite FD' by auto. unfold vsize at 1. unfold vsize at 1 in CR.
    rewrite V2. lia.
  - intros I. apply NEX. now apply INC.
  - rewrite (map_deg_same d d2 z pre), (map_deg_same d d2 z rest'); auto.
    rewrite FD, N.eqb_refl, DZ.
    destruct CI as (M & HL & AB). simpl map in M, HL.
    split; [|split].
    + now apply merged_tail in M.
    + destruct rest' as [|t rest'']; simpl; auto.
      simpl in M. destruct M as (L & _ & _). lia.
    + left. destruct AB as [A|(B1 & B2 & _)].
      * eapply incr_last_up; eauto. lia.
      * apply incr_app. split; [auto|]. split; [repeat constructor|].
        intros u v Iu [<-|[]]. specialize (B2 u Iu). lia.
  - split; auto.
  - intros PO OR. split.
    + intros w Vw Pw. rewrite V2 in Vw. rewrite FP in Pw |- *.
      destruct (w =? y) eqn:E.
      * apply N.eqb_eq in E. subst w. rewrite V2. split; [auto|].
        rewrite (FD z), N.eqb_refl. rewrite (FD' y) by auto. lia.
      * destruct (PO w Vw Pw) as [P1 P2]. rewrite V2. split; [auto|].
        assert (Nwz : w <> z).
        { intros ->. apply Pw. now apply OR. }
        rewrite (FD' w) by auto. rewrite (FD (par d w)).
        destruct (par d w =? z) eqn:Ep; [|lia].
        apply N.eqb_eq in Ep. rewrite Ep in P2. lia.
    + intros r Ir. rewrite FP.
      destruct (r =? y) eqn:E.
      * apply N.eqb_eq in E. subst. tauto.
      * apply OR. now apply INC.
Qed.

(** ** The consolidation loop *)

Lemma chain_split d hd pre x rest :
  chain d hd (pre ++ x :: rest) <->
  seg d hd pre x /\ x < vsize d /\ chain d (sib d x) rest.
Proof.
  unfold chain. rewrite seg_app. simpl. split.
  - intros (m & H1 & -> & H2 & H3). auto.
  - intros (H1 & H2 & H3). exists x. auto.
Qed.

Lemma chain_hd d p l : chain d p l -> p = hd npos l.
Proof. destruct l; unfold chain; simpl; tauto. Qed.

Lemma seg_last d hd pre x :
  seg d hd pre x -> pre <> [] ->
  exists pre0, pre = pre0 ++ [last pre npos] /\
    seg d hd pre0 (last pre npos) /\
    last pre npos < vsize d /\ sib d (last pre npos) = x.
Proof.
  intros H N. destruct (exists_last N) as (pre0 & p & ->).
  rewrite last_last. exists pre0. split; [reflexivity|].
  apply seg_app in H as (m & H1 & H2). simpl in H2.
  destruct H2 as (-> & V & ->). auto.
Qed.

Lemma value_at_cases {T : Type} (h : binomial_heap T) x :
  x < vsize (data_ h) ->
  (exists v, value_at h x = Ok v) \/
  (value_at h x = Err OobElements /\ ~ items_ok h).
Proof.
  intros V. unfold value_at. destruct (dget_lt _ _ V) as [n G]. rewrite G.
  unfold bind. destruct (vget OobElements (elements_ h) (item_index n)) eqn:E.
  - left. eauto.
  - right. apply vget_err in E as [-> E]. split; [reflexivity|].
    intros I. specialize (I x V). rewrite <- (itm_ok _ _ _ G) in I. lia.
Qed.

Lemma union_outcome_mono {T : Type} ex roots roots2 (h h2 : binomial_heap T) r :
  union_outcome ex roots2 h2 r ->
  same_items (data_ h) (data_ h2) ->
  elements_ h2 = elements_ h -> top_ h2 = top_ h ->
  index_array h2 = index_array h ->
  (parents_ok (data_ h) -> orphans (data_ h) roots ->
   parents_ok (data_ h2) /\ orphans (data_ h2) roots2) ->
  union_outcome ex roots h r.
Proof.
  intros O [V I] E1 E2 E3 P. destruct r as [h'|e]; simpl in *.
  - destruct O as (roots' & kids' & A & B & C & D & E & [V' I'] & F1 & F2 & F3 & G).
    exists roots', kids'.
    split; [exact A|]. split; [exact B|]. split; [exact C|].
    split; [exact D|]. split; [exact E|].
    split; [split; [congruence|intros x; rewrite I'; apply I]|].
    split; [congruence|]. split; [congruence|]. split; [congruence|].
    intros PO OR. destruct (P PO OR) as [P1 P2]. now apply G.
  - destruct e; auto. intros IO. apply O. intros x Vx.
    rewrite I, E1. apply IO. now rewrite <- V.
Qed.

Lemma nodup_app_parts {A : Type} (l1 l2 : list A) :
  NoDup (l1 ++ l2) ->
  NoDup l1 /\ NoDup l2 /\ forall w, In w l1 -> ~ In w l2.
Proof.
  induction l1 as [|a l1 IH]; simpl; intros H.
  - repeat split; auto. constructor.
  - inv H. destruct (IH H3) as (A1 & A2 & A3). repeat split; auto.
    + constructor; auto. intros I. apply H2. apply in_or_app. auto.
    + intros w [<-|I] J; [|eapply A3; eauto].
      apply H2. apply in_or_app. auto.
Qed.

Section Union.

Context {T : Type}.
Variable compare_ : T -> T -> bool.

Lemma union_loop_spec fuel : forall (h : binomial_heap T) pre x rest kids ex,
  vsize (data_ h) <= npos ->
  shape ex (data_ h) (head_ h) (pre ++ x :: rest) kids ->
  credit ex (data_ h) (pre ++ x :: rest) ->
  ~ In ex (pre ++ x :: rest) ->
  cons_inv (map (deg (data_ h)) pre) (deg (data_ h) x)
    (map (deg (data_ h)) rest) ->
  (length rest < fuel)%nat ->
  union_outcome ex (pre ++ x :: rest) h
    (union_loop compare_ fuel h (last pre npos) x (hd npos rest)).
Proof.
  induction fuel as [|fuel IH]; intros h pre x rest kids ex V SH CR NEX CI F;
    [lia|].
  simpl union_loop.
  pose proof (sh_roots _ _ _ _ _ SH) as CH.
  apply chain_split in CH as (SPre & Vx & CRest).
  destruct rest as [|nx rest'].
  - (* the end of the list *)
    simpl hd. rewrite N.eqb_refl. simpl.
    exists (pre ++ [x]), kids.
    split; [exact SH|]. split; [exact CR|]. split.
    { destruct CI as (_ & _ & [A|(_ & _ & _ & r & Hr)]); [|discriminate].
      rewrite map_app. exact A. }
    split; [exact NEX|]. split.
    { intros E. apply app_eq_nil in E as [_ E]. discriminate. }
    split; [split; auto|]. split; [auto|]. split; [auto|]. split; [auto|].
    intros PO OR. split; assumption.
  - (* [next_x] is a root *)
    simpl hd. unfold chain in CRest. simpl in CRest.
    destruct CRest as (Sx & Vn & CRest).
    assert (En : (nx =? npos) = false) by (apply N.eqb_neq; lia).
    rewrite En.
    destruct (dget_lt _ _ Vx) as [nX GX]. destruct (dget_lt _ _ Vn) as [nN GN].
    rewrite GX. unfold bind at 1. rewrite GN. unfold bind at 1.
    rewrite (deg_ok _ _ _ GX), (deg_ok _ _ _ GN), (sib_ok _ _ _ GN).
    set (d := data_ h) in *.
    set (roots := pre ++ x :: nx :: rest') in *.
    assert (ND : NoDup roots) by (destruct SH; auto).
    assert (Nxn : x <> nx).
    { intros ->. apply NoDup_remove_2 in ND. apply ND.
      apply in_or_app. simpl. auto. }
    (* the test of the loop body *)
    set (third_same := match rest' with
                       | [] => false
                       | t :: _ => deg d t =? deg d x
                       end).
    assert (SK : (if negb (deg d x =? deg d nx) then Ok true
                  else if negb (sib d nx =? npos)
                  then nnn <- dget d (sib d nx) ;; Ok (degree nnn =? deg d x)
                  else Ok false)
                 = Ok (negb (deg d x =? deg d nx) || third_same)).
    { destruct (deg d x =? deg d nx); simpl; auto.
      unfold third_same. destruct rest' as [|t rest''].
      - apply chain_nil in CRest. rewrite CRest. reflexivity.
      - unfold chain in CRest. simpl in CRest. destruct CRest as (-> & Vt & _).
        assert (Et : (t =? npos) = false) by (apply N.eqb_neq; lia).
        rewrite Et. simpl. destruct (dget_lt _ _ Vt) as [nT GT].
        rewrite GT. simpl. now rewrite (deg_ok _ _ _ GT). }
    rewrite SK. unfold bind at 1. clear SK.
    destruct CI as (M & HL & AB). simpl map in M, HL. simpl in HL.
    destruct (negb (deg d x =? deg d nx) || third_same) eqn:SKIP.
    + (* the root [x] is passed *)
      unfold bind at 1. rewrite (sib_ok _ _ _ GN).
      fold d. rewrite (chain_hd _ _ _ CRest).
      specialize (IH h (pre ++ [x]) nx rest' kids ex).
      rewrite last_last in IH. fold d in IH.
      replace ((pre ++ [x]) ++ nx :: rest') with roots in IH
        by (unfold roots; now rewrite <- app_assoc).
      apply IH; auto; [|simpl in F; lia].
      rewrite map_app. simpl map.
      split; [now apply merged_tail in M|]. split.
      { destruct rest' as [|t rest'']; simpl; auto. simpl in M. tauto. }
      apply orb_true_iff in SKIP as [SKIP|SKIP].
      * left. apply negb_true_iff, N.eqb_neq in SKIP.
        destruct AB as [A|(_ & _ & _ & r & Hr)].
        -- apply incr_app. apply incr_app in A as A'.
           split; [exact A|]. split; [repeat constructor|].
           intros u v Iu [<-|[]]. apply in_app_or in Iu as [Iu|[<-|[]]].
           ++ destruct A' as (_ & _ & A3). specialize (A3 u (deg d x) Iu).
              simpl in A3. specialize (A3 (or_introl eq_refl)). lia.
           ++ lia.
        -- inv Hr. congruence.
      * right. unfold third_same in SKIP. destruct rest' as [|t rest'']; [discriminate|].
        apply N.eqb_eq in SKIP.
        assert (Exn : deg d x = deg d nx).
        { simpl in M. destruct M as (L1 & _ & _). lia. }
        destruct AB as [A|(_ & _ & B & _)].
        -- split; [exact A|]. split.
           { intros u Iu. apply in_app_or in Iu as [Iu|[<-|[]]]; [|lia].
             apply incr_app in A as (_ & _ & A3). specialize (A3 u (deg d x) Iu).
             simpl in A3. specialize (A3 (or_introl eq_refl)). lia. }
           split; [exact M|]. exists (map (deg d) rest''). simpl.
           f_equal. congruence.
        -- exfalso. simpl in B. destruct B as (_ & B & _).
           specialize (B Exn). simpl in M. lia.
    + (* the roots [x] and [next_x] are linked *)
      apply orb_false_iff in SKIP as [S1 S2].
      apply negb_false_iff, N.eqb_eq in S1.
      assert (TH : match rest' with [] => True | t :: _ => deg d t <> deg d x end).
      { unfold third_same in S2. destruct rest'; auto. now apply N.eqb_neq. }
      destruct (value_at_cases h x Vx) as [[a Ea]|[Ea NI]];
        rewrite Ea; unfold bind at 1; [|exact NI].
      destruct (value_at_cases h nx Vn) as [[b Eb]|[Eb NI]];
        rewrite Eb; unfold bind at 1; [|exact NI].
      assert (L2 : (2 <= length roots)%nat).
      { unfold roots. rewrite length_app. simpl. lia. }
      assert (Nxe : x <> ex).
      { intros ->. apply NEX. apply in_or_app. simpl. auto. }
      assert (Nne : nx <> ex).
      { intros ->. apply NEX. apply in_or_app. simpl. auto. }
      assert (DIST : (forall w, In w pre -> w <> x /\ w <> nx /\ ~ In w rest') /\
                     (forall w, In w rest' -> w <> x /\ w <> nx)).
      { assert (ND' := ND). unfold roots in ND'.
        apply nodup_app_parts in ND' as (N1 & N2 & N3).
        rewrite !NoDup_cons_iff in N2. simpl in N2. split.
        - intros w Iw. specialize (N3 w Iw). simpl in N3.
          split; [intros ->; tauto|]. split; [intros ->; tauto|tauto].
        - intros w Iw. split; intros ->; tauto. }
      destruct DIST as [DP DR].
      assert (HR : sib d nx = hd npos rest') by (apply (chain_hd _ _ _ CRest)).
      destruct (compare_ a b).
      * (* [next_x] goes below [x] *)
        destruct (dmod_lt d x (fun n => set_right_sibling n (sib d nx)) Vx)
          as (n1 & G1 & H1).
        rewrite H1. unfold bind at 1. set (d1 := list_upd d _ _) in *.
        apply dmod_sibling in H1 as [V1 F1].
        destruct (binomial_link_spec d1 nx x) as (d2 & H2 & V2 & F2);
          [lia|lia|auto|].
        rewrite H2. unfold bind at 1.
        destruct (dget_lt d2 x) as [nx2 G2]; [lia|].
        rewrite G2. unfold bind at 1. rewrite (sib_ok _ _ _ G2).
        assert (W : wrap (deg d x + 1) = deg d x + 1)
          by (eapply credit_room; eauto).
        assert (FS : forall w, sib d2 w =
                     (if w =? nx then chd d x
                      else if w =? x then sib d nx else sib d w)).
        { intros w. destruct (F2 w) as (-> & _).
          destruct (F1 w) as (-> & _). destruct (F1 x) as (_ & _ & -> & _).
          reflexivity. }
        assert (FC : forall w, chd d2 w = (if w =? x then nx else chd d w)).
        { intros w. destruct (F2 w) as (_ & -> & _).
          destruct (F1 w) as (_ & _ & -> & _). reflexivity. }
        assert (FP : forall w, par d2 w = (if w =? nx then x else par d w)).
        { intros w. destruct (F2 w) as (_ & _ & -> & _).
          destruct (F1 w) as (_ & -> & _). reflexivity. }
        assert (FD : forall w, deg d2 w = (if w =? x then deg d x + 1 else deg d w)).
        { intros w. destruct (F2 w) as (_ & _ & _ & -> & _).
          destruct (F1 w) as (_ & _ & _ & -> & _).
          destruct (F1 x) as (_ & _ & _ & -> & _). now rewrite W. }
        assert (FI : forall w, itm d2 w = itm d w).
        { intros w. destruct (F2 w) as (_ & _ & _ & _ & ->).
          destruct (F1 w) as (_ & _ & _ & _ & ->). reflexivity. }
        assert (SX2 : sib d2 x = sib d nx).
        { rewrite FS. apply N.eqb_neq in Nxn as E. now rewrite E, N.eqb_refl. }
        assert (SO : forall w, w <> x -> w <> nx -> sib d2 w = sib d w).
        { intros w A1 A2. rewrite FS. apply N.eqb_neq in A1, A2.
          now rewrite A1, A2. }
        assert (CH2 : chain d2 (head_ h) (pre ++ x :: rest')).
        { apply chain_split. split; [|split].
          - eapply seg_transfer; [|exact SPre]. intros w Iw.
            destruct (DP w Iw) as (A1 & A2 & _). split.
            + rewrite V2, V1. apply (seg_valid _ _ _ _ _ SPre Iw).
            + now apply SO.
          - lia.
          - rewrite SX2. eapply seg_transfer; [|exact CRest]. intros w Iw.
            destruct (DR w Iw) as (A1 & A2). split.
            + rewrite V2, V1. apply (seg_valid _ _ _ _ _ CRest Iw).
            + now apply SO. }
        destruct (cons_link ex d (head_ h) pre x nx rest' kids d2 (head_ h) nx x)
          as (SH2 & CR2 & NEX2 & CI2 & SI2 & PO2); auto; try congruence.
        { split; [exact M|]. split; [exact HL|exact AB]. }
        { intros w Iw. apply SO; intros ->; apply Iw; apply in_or_app;
            simpl; auto. }
        { rewrite FS. now rewrite N.eqb_refl. }
        rewrite SX2, HR.
        eapply union_outcome_mono with (h2 := with_data h d2);
          [|exact SI2|reflexivity|reflexivity|reflexivity|exact PO2].
        apply (IH (with_data h d2) pre x rest'
                 (upd_kids kids x (nx :: kids x)) ex); simpl; auto.
        -- lia.
        -- simpl in F. lia.
      * (* [x] goes below [next_x] *)
        assert (H1 : exists h1,
          (if last pre npos =? npos then Ok (with_head h nx)
           else d1 <- dmod d (last pre npos)
                        (fun n => set_right_sibling n nx) ;;
                Ok (with_data h d1)) = Ok h1 /\
          links_only d (data_ h1) /\
          (forall w, ~ In w pre -> sib (data_ h1) w = sib d w) /\
          seg (data_ h1) (head_ h1) pre nx /\
          elements_ h1 = elements_ h /\ top_ h1 = top_ h /\
          index_array h1 = index_array h).
        { destruct pre as [|p0 pre1].
          - simpl last. rewrite N.eqb_refl. eexists. split; [reflexivity|].
            simpl. split; [apply links_only_refl|]. repeat split; auto.
          - destruct (seg_last _ _ _ _ SPre) as (pre0 & EP & S0 & Vl & Sl);
              [discriminate|].
            set (lp := last (p0 :: pre1) npos) in *.
            assert (El : (lp =? npos) = false) by (apply N.eqb_neq; lia).
            rewrite El.
            destruct (dmod_lt d lp (fun n => set_right_sibling n nx) Vl)
              as (n1 & G1 & H1).
            rewrite H1. unfold bind at 1. eexists. split; [reflexivity|].
            cbn [data_ head_ elements_ top_ index_array with_data].
            set (d1 := list_upd d _ _) in *.
            apply dmod_sib_links in H1 as L1.
            apply dmod_sibling in H1 as [V1 F1].
            split; [exact L1|]. split; [|split; [|auto]].
            + intros w Nw. destruct (F1 w) as (-> & _).
              destruct (w =? lp) eqn:E; auto. apply N.eqb_eq in E. subst w.
              exfalso. apply Nw. rewrite EP. apply in_or_app. simpl. auto.
            + rewrite EP. apply seg_app. exists lp. split.
              * eapply seg_transfer; [|exact S0]. intros w Iw. split.
                -- rewrite V1. apply (seg_valid _ _ _ _ _ S0 Iw).
                -- destruct (F1 w) as (-> & _).
                   destruct (w =? lp) eqn:E; auto. apply N.eqb_eq in E. subst w.
                   exfalso. assert (NDp : NoDup (p0 :: pre1)).
                   { assert (ND' := ND). unfold roots in ND'.
                     now apply nodup_app_parts in ND' as (N1 & _). }
                   rewrite EP in NDp. apply NoDup_remove_2 in NDp.
                   apply NDp. rewrite app_nil_r. exact Iw.
              * simpl. split; [auto|]. split; [lia|].
                destruct (F1 lp) as (-> & _). now rewrite N.eqb_refl. }
        destruct H1 as (h1 & -> & [V1 L1] & S1' & SP1 & E1 & E2 & E3).
        unfold bind at 1. set (d1 := data_ h1) in *.
        destruct (binomial_link_spec d1 x nx) as (d2 & H2 & V2 & F2);
          [lia|lia|auto|].
        rewrite H2. unfold bind at 1.
        destruct (dget_lt d2 nx) as [nn2 G2]; [lia|].
        rewrite G2. unfold bind at 1. rewrite (sib_ok _ _ _ G2).
        assert (W : wrap (deg d nx + 1) = deg d nx + 1)
          by (eapply credit_room; eauto).
        assert (FS : forall w, sib d2 w =
                     (if w =? x then chd d nx else sib d1 w)).
        { intros w. destruct (F2 w) as (-> & _).
          destruct (L1 nx) as (_ & -> & _). reflexivity. }
        assert (FC : forall w, chd d2 w = (if w =? nx then x else chd d w)).
        { intros w. destruct (F2 w) as (_ & -> & _).
          destruct (L1 w) as (_ & -> & _). reflexivity. }
        assert (FP : forall w, par d2 w = (if w =? x then nx else par d w)).
        { intros w. destruct (F2 w) as (_ & _ & -> & _).
          destruct (L1 w) as (_ & _ & -> & _). reflexivity. }
        assert (FD : forall w, deg d2 w = (if w =? nx then deg d nx + 1 else deg d w)).
        { intros w. destruct (F2 w) as (_ & _ & _ & -> & _).
          destruct (L1 w) as (-> & _). destruct (L1 nx) as (-> & _).
          now rewrite W. }
        assert (FI : forall w, itm d2 w = itm d w).
        { intros w. destruct (F2 w) as (_ & _ & _ & _ & ->).
          destruct (L1 w) as (_ & _ & _ & ->). reflexivity. }
        assert (SO : forall w, w <> x -> sib d2 w = sib d1 w).
        { intros w A1. rewrite FS. apply N.eqb_neq in A1. now rewrite A1. }
        assert (NPn : ~ In nx pre).
        { intros I. destruct (DP nx I) as (_ & A & _). congruence. }
        assert (SN2 : sib d2 nx = sib d nx).
        { rewrite SO by auto. now apply S1'. }
        assert (CH2 : chain d2 (head_ h1) (pre ++ nx :: rest')).
        { apply chain_split. split; [|split].
          - eapply seg_transfer; [|exact SP1]. intros w Iw.
            destruct (DP w Iw) as (A1 & A2 & _). split.
            + rewrite V2, V1. apply (seg_valid _ _ _ _ _ SPre Iw).
            + now apply SO.
          - lia.
          - rewrite SN2. eapply seg_transfer; [|exact CRest]. intros w Iw.
            destruct (DR w Iw) as (A1 & A2). split.
            + rewrite V2, V1. apply (seg_valid _ _ _ _ _ CRest Iw).
            + rewrite SO by auto. apply S1'. intros I.
              destruct (DP w I) as (_ & _ & A3). auto. }
        destruct (cons_link ex d (head_ h) pre x nx rest' kids d2 (head_ h1) x nx)
          as (SH2 & CR2 & NEX2 & CI2 & SI2 & PO2); auto; try congruence.
        { split; [exact M|]. split; [exact HL|exact AB]. }
        { intros w Iw. rewrite SO.
          - apply S1'. intros I. apply Iw. apply in_or_app. auto.
          - intros ->. apply Iw. apply in_or_app. simpl. auto. }
        { rewrite FS. now rewrite N.eqb_refl. }
        rewrite SN2, HR.
        eapply union_outcome_mono with (h2 := with_data h1 d2);
          [|exact SI2|exact E1|exact E2|exact E3|exact PO2].
        apply (IH (with_data h1 d2) pre nx rest'
                 (upd_kids kids nx (x :: kids nx)) ex); simpl; auto.
        -- lia.
        -- simpl in F. lia.
Qed.

Variable indeterminate : size_type.

Lemma links_only_parents d d1 l l1 :
  links_only d d1 -> (forall x, In x l1 -> In x l) ->
  parents_ok d -> orphans d l -> parents_ok d1 /\ orphans d1 l1.
Proof.
  intros [V L] I PO OR. split.
  - intros w Vw Pw. destruct (L w) as (Dw & _ & Pw' & _).
    rewrite Pw' in *. rewrite V in *. destruct (PO w Vw Pw) as [P1 P2].
    split; [auto|]. destruct (L (par d w)) as (-> & _). congruence.
  - intros r Ir. destruct (L r) as (_ & _ & -> & _). auto.
Qed.

(** [binomial_heap_union(index)] on the root list [lp] of the heap and a
    second list [lq] that starts at [index]. *)
Lemma union_spec (h : binomial_heap T) index lp lq kids ex :
  vsize (data_ h) < npos ->
  shape ex (data_ h) (head_ h) lp kids ->
  chain (data_ h) index lq -> lp <> [] -> lq <> [] ->
  (forall x, In x lq -> ~ In x lp /\ forall i, ~ In x (kids i)) ->
  sum_deg (data_ h) + vsize lp + vsize lq
    <= vsize (data_ h) + deg (data_ h) ex ->
  ~ In ex (lp ++ lq) ->
  incr (map (deg (data_ h)) lp) -> incr (map (deg (data_ h)) lq) ->
  union_outcome ex (lp ++ lq) h
    (binomial_heap_union compare_ indeterminate h index).
Proof.
  intros V SH Cq Np Nq DJ CR NEX Ip Iq.
  set (d := data_ h) in *.
  assert (NDq : NoDup lq) by (apply (map_nodup (deg d)), incr_nodup, Iq).
  assert (ND : NoDup (lp ++ lq)).
  { apply NoDup_app; [destruct SH; auto|auto|].
    intros x I1 I2. now apply (DJ x I2). }
  destruct (merge_spec indeterminate h index lp lq V (sh_roots _ _ _ _ _ SH)
              Cq Np Nq ND)
    as (h1 & Hm & E1 & E2 & E3 & [V1 L1] & CH1 & FR1).
  fold d in CH1, FR1, L1, V1.
  set (d1 := data_ h1) in *.
  set (ml := merge_lists (deg d) lp lq) in *.
  assert (PM : Permutation ml (lp ++ lq)) by apply merge_lists_perm.
  assert (IM : forall x, In x ml <-> In x (lp ++ lq)).
  { intros x. split; apply Permutation_in; [auto|now symmetry]. }
  assert (D1 : forall x, deg d1 x = deg d x) by (intros x; now destruct (L1 x)).
  assert (SH1 : shape ex d1 (head_ h1) ml kids).
  { destruct SH as [SR SN SK SD SO SRK SKK]. constructor; auto.
    - eapply Permutation_NoDup; [symmetry; exact PM|exact ND].
    - intros i Vi Ei. rewrite V1 in Vi. destruct (L1 i) as (_ & -> & _).
      eapply seg_transfer; [|apply (SK i Vi Ei)]. intros x Ix. split.
      + rewrite V1. apply (seg_valid _ _ _ _ _ (SK i Vi Ei) Ix).
      + unfold sib, field. rewrite FR1; auto. intros I.
        apply in_app_or in I as [I|I].
        * exact (SRK i x I Ix).
        * exact (proj2 (DJ x I) i Ix).
    - intros i Vi Ei. rewrite V1 in Vi. rewrite D1.
      rewrite (map_ext _ _ D1). auto.
    - intros i Hi. apply SO. now rewrite <- V1.
    - intros i x Ix. apply IM in Ix. apply in_app_or in Ix as [I|I].
      + now apply SRK.
      + apply (DJ x I). }
  assert (CR1 : credit ex d1 ml).
  { unfold credit. rewrite (sum_deg_ext d d1 V1 D1), D1, V1.
    unfold vsize at 1. rewrite (Permutation_length PM), length_app.
    unfold vsize in CR at 1 2. lia. }
  assert (MG : merged (map (deg d1) ml)).
  { rewrite (map_ext _ _ D1). now apply merge_lists_merged. }
  destruct ml as [|x rest] eqn:EM.
  { exfalso. apply Permutation_nil in PM. apply app_eq_nil in PM. tauto. }
  unfold binomial_heap_union. rewrite Hm. unfold bind at 1. fold d1.
  assert (Ex : head_ h1 = x) by (unfold chain in CH1; simpl in CH1; tauto).
  unfold chain in CH1. simpl in CH1. destruct CH1 as (_ & Vx & CRest).
  rewrite Ex in *.
  destruct (dget_lt _ _ Vx) as [nX GX]. rewrite GX. unfold bind at 1.
  rewrite (sib_ok _ _ _ GX).
  assert (LOOP : (if sib d1 x =? npos then Ok h1
                  else union_loop compare_ (fuel_of d1) h1 npos x (sib d1 x))
                 = union_loop compare_ (fuel_of d1) h1 (last [] npos) x
                     (hd npos rest)).
  { rewrite (chain_hd _ _ _ CRest). simpl last.
    destruct (hd npos rest =? npos) eqn:E; auto.
    unfold fuel_of. simpl union_loop. now rewrite E. }
  rewrite LOOP.
  eapply union_outcome_mono with (h2 := h1) (roots2 := [] ++ x :: rest); auto.
  - apply (union_loop_spec (fuel_of d1) h1 [] x rest kids ex).
    + fold d1. lia.
    + fold d1. rewrite Ex. exact SH1.
    + exact CR1.
    + simpl. intros I. apply NEX. apply IM. exact I.
    + simpl map. fold d1. simpl in MG. split; [|split].
      * now apply merged_tail in MG.
      * destruct rest; simpl; auto. simpl in MG. tauto.
      * left. simpl. repeat constructor.
    + assert (length (x :: rest) <= length d1)%nat.
      { apply nodup_length.
        - eapply Permutation_NoDup; [symmetry; exact PM|exact ND].
        - intros y Iy. change (y < vsize d1). rewrite V1. apply IM in Iy.
          apply in_app_or in Iy as [I|I].
          + apply (seg_valid _ _ _ _ _ (sh_roots _ _ _ _ _ SH) I).
          + apply (seg_valid _ _ _ _ _ Cq I). }
      unfold fuel_of. simpl in *. lia.
  - split; auto. intros y. fold d d1. now destruct (L1 y) as (_ & _ & _ & ->).
  - fold d d1. apply links_only_parents; [split; auto|].
    intros y Iy. simpl in Iy. now apply IM.
Qed.

End Union.

(** ** A new node at the end of the arena *)

Lemma dget_app_last d n : dget (d ++ [n]) (vsize d) = Ok n.
Proof. apply vget_app_last. Qed.

Lemma field_app_last f dflt d n : field f dflt (d ++ [n]) (vsize d) = f n.
Proof. unfold field. now rewrite dget_app_last. Qed.

Lemma shape_valid ex d hd roots kids i x :
  shape ex d hd roots kids -> In x (kids i) -> x < vsize d.
Proof.
  intros SH I. destruct (N.lt_ge_cases i (vsize d)) as [Vi|Vi].
  - destruct (N.eq_dec i ex) as [->|Ei].
    + rewrite (sh_out _ _ _ _ _ SH ex) in I by auto. destruct I.
    + eapply seg_valid; [apply (sh_kids _ _ _ _ _ SH i Vi Ei)|exact I].
  - rewrite (sh_out _ _ _ _ _ SH i) in I by auto. destruct I.
Qed.

Lemma shape_push d hd roots kids n :
  vsize d < npos ->
  shape npos d hd roots kids -> child n = npos ->
  shape npos (d ++ [n]) hd roots kids.
Proof.
  intros V SH Cn.
  pose proof (fun i x => shape_valid _ _ _ _ _ i x SH) as KV.
  destruct SH as [SR SN SK SD SO SRK SKK].
  assert (FA : forall f dflt x, x < vsize d ->
               field f dflt (d ++ [n]) x = field f dflt d x).
  { intros. now apply field_app_l. }
  assert (VA : vsize (d ++ [n]) = vsize d + 1) by now rewrite vsize_app.
  constructor; auto.
  - eapply seg_transfer; [|exact SR]. intros x Ix.
    assert (x < vsize d) by (eapply seg_valid; eauto).
    split; [lia|]. now apply FA.
  - intros i Vi Ei. destruct (N.lt_ge_cases i (vsize d)) as [L|L].
    + unfold chd. rewrite FA by auto.
      eapply seg_transfer; [|apply (SK i L Ei)]. intros x Ix.
      assert (x < vsize d) by (eapply KV; eauto).
      split; [lia|]. now apply FA.
    + assert (i = vsize d) by lia. subst i.
      unfold chd. rewrite field_app_last, Cn, SO by (left; lia).
      reflexivity.
  - intros i Vi Ei. destruct (N.lt_ge_cases i (vsize d)) as [L|L].
    + unfold deg. rewrite FA by auto.
      rewrite (map_ext_in _ (deg d)); [apply (SD i L Ei)|].
      intros x Ix. apply FA. eapply KV; eauto.
    + rewrite SO by (left; lia). simpl. repeat constructor.
  - intros i Hi. apply SO. lia.
Qed.

(** ** The loops of pop *)

Lemma reverse_loop_spec : forall l fuel d acc nh p,
  vsize d <= npos -> chain d p l -> chain d nh acc -> NoDup (l ++ acc) ->
  (length l < fuel)%nat ->
  exists d', reverse_loop fuel d nh p = Ok (d', hd nh (rev l)) /\
    chain d' (hd nh (rev l)) (rev l ++ acc) /\
    vsize d' = vsize d /\
    (forall w, deg d' w = deg d w /\ chd d' w = chd d w /\ itm d' w = itm d w) /\
    (forall w, ~ In w l -> dget d' w = dget d w) /\
    (forall w, In w l -> par d' w = npos).
Proof.
  induction l as [|x l IH]; intros fuel d acc nh p V Hp Ha ND F;
    (destruct fuel as [|fuel]; [simpl in F; lia|]); simpl reverse_loop.
  - apply chain_nil in Hp. subst. rewrite N.eqb_refl.
    exists d. simpl. repeat split; auto. intros w [].
  - unfold chain in Hp. simpl in Hp. destruct Hp as (-> & Vx & Hp).
    assert (Ex : (x =? npos) = false) by (apply N.eqb_neq; lia).
    rewrite Ex. destruct (dget_lt _ _ Vx) as [nx Gx].
    rewrite Gx. unfold bind at 1. rewrite (sib_ok _ _ _ Gx).
    destruct (dmod_lt d x (fun n => set_parent n npos) Vx) as (n1 & G1 & H1).
    rewrite H1. unfold bind at 1. set (d1 := list_upd d _ _) in *.
    pose proof (fun w => dmod_get_ne _ _ _ _ w H1) as NE1.
    apply dmod_parent in H1 as [V1 F1].
    destruct (dmod_lt d1 x (fun n => set_right_sibling n nh)) as (n2 & G2 & H2);
      [lia|].
    rewrite H2. unfold bind at 1. set (d2 := list_upd d1 _ _) in *.
    pose proof (fun w => dmod_get_ne _ _ _ _ w H2) as NE2.
    apply dmod_sibling in H2 as [V2 F2].
    simpl in ND. inversion ND as [|? ? NIx ND']. subst.
    assert (SO : forall w, w <> x -> sib d2 w = sib d w).
    { intros w Nw. destruct (F2 w) as (-> & _). destruct (F1 w) as (_ & -> & _).
      apply N.eqb_neq in Nw. now rewrite Nw. }
    destruct (IH fuel d2 (x :: acc) x (sib d x)) as (d' & R & CH & V' & FD & FR & FP).
    + lia.
    + eapply seg_transfer; [|exact Hp]. intros w Iw. split.
      * rewrite V2, V1. apply (seg_valid _ _ _ _ _ Hp Iw).
      * apply SO. intros ->. apply NIx. apply in_or_app. auto.
    + unfold chain. simpl. split; [auto|]. split; [lia|].
      destruct (F2 x) as (-> & _). rewrite N.eqb_refl.
      eapply seg_transfer; [|exact Ha]. intros w Iw. split.
      * rewrite V2, V1. apply (seg_valid _ _ _ _ _ Ha Iw).
      * apply SO. intros ->. apply NIx. apply in_or_app. auto.
    + apply NoDup_app.
      * apply nodup_app_parts in ND'. tauto.
      * constructor.
        -- intros I. apply NIx. apply in_or_app. auto.
        -- apply nodup_app_parts in ND'. tauto.
      * intros w I1 [<-|I2].
        -- apply NIx. apply in_or_app. auto.
        -- apply nodup_app_parts in ND' as (_ & _ & D). exact (D w I1 I2).
    + simpl in F. lia.
    + assert (HD : hd x (rev l) = hd nh (rev (x :: l))).
      { simpl rev. destruct (rev l); reflexivity. }
      rewrite HD in R, CH. exists d'. split; [exact R|].
      simpl rev at 2. rewrite <- app_assoc. simpl. split; [exact CH|].
      split; [congruence|]. split; [|split].
      * intros w. destruct (FD w) as (A & B & C).
        destruct (F2 w) as (_ & _ & B2 & A2 & C2).
        destruct (F1 w) as (_ & _ & B1 & A1 & C1).
        repeat split; congruence.
      * intros w Nw. rewrite FR by (intros I; apply Nw; simpl; auto).
        rewrite NE2, NE1; auto; intros ->; apply Nw; simpl; auto.
      * intros w [<-|Iw]; [|now apply FP].
        unfold par, field. rewrite FR.
        -- fold (field parent npos d2 x). fold (par d2 x).
           destruct (F2 x) as (_ & -> & _). destruct (F1 x) as (-> & _).
           now rewrite N.eqb_refl.
        -- intros I. apply NIx. apply in_or_app. auto.
Qed.

Lemma find_prev_spec fuel : forall d p l t tmp,
  vsize d <= npos -> chain d p l -> t <> npos ->
  find_prev_loop fuel d p t = Ok tmp ->
  exists l1 l2, l = l1 ++ tmp :: t :: l2.
Proof.
  induction fuel as [|fuel IH]; intros d p l t tmp V H Nt R; simpl in R;
    [discriminate|].
  destruct (dget d p) as [np|] eqn:Gp; simpl in R; [|discriminate].
  apply dget_ok_lt in Gp as Vp.
  apply chain_cons in H as (l' & -> & _ & H); auto; [|lia].
  rewrite (sib_ok _ _ _ Gp) in R.
  destruct (sib d p =? t) eqn:E.
  - inv R. apply N.eqb_eq in E. rewrite E in H.
    apply chain_cons in H as (l2 & -> & _ & _); auto.
    exists [], l2. reflexivity.
  - destruct (IH _ _ _ _ _ V H Nt R) as (l1 & l2 & ->).
    exists (p :: l1), l2. reflexivity.
Qed.

(** ** The shape through the steps of pop *)

Lemma shape_reroot ex d hd roots kids d' hd' roots' :
  shape ex d hd roots kids ->
  vsize d' = vsize d ->
  (forall w, deg d' w = deg d w /\ chd d' w = chd d w) ->
  (forall i x, In x (kids i) -> sib d' x = sib d x) ->
  chain d' hd' roots' -> NoDup roots' ->
  (forall i x, In x roots' -> ~ In x (kids i)) ->
  shape ex d' hd' roots' kids.
Proof.
  intros SH V L FS CH ND RK.
  pose proof (fun i x => shape_valid _ _ _ _ _ i x SH) as KV.
  destruct SH as [SR SN SK SD SO SRK SKK]. constructor; auto.
  - intros i Vi Ei. rewrite V in Vi. destruct (L i) as (_ & ->).
    eapply seg_transfer; [|apply (SK i Vi Ei)]. intros x Ix. split.
    + rewrite V. eapply KV; eauto.
    + eapply FS; eauto.
  - intros i Vi Ei. rewrite V in Vi. destruct (L i) as (-> & _).
    rewrite (map_ext (deg d') (deg d)); [auto|]. intros x. now destruct (L x).
  - intros i Hi. apply SO. now rewrite <- V.
Qed.

(** The child list of [t] is taken away from it. *)
Lemma shape_detach d hd roots kids t d1 :
  vsize d <= npos ->
  shape npos d hd roots kids ->
  vsize d1 = vsize d ->
  (forall w, deg d1 w = deg d w /\ chd d1 w = chd d w) ->
  (forall w, ~ In w (kids t) -> sib d1 w = sib d w) ->
  shape t d1 hd roots (upd_kids kids t []).
Proof.
  intros VN SH V L FS.
  pose proof (fun i x => shape_valid _ _ _ _ _ i x SH) as KV.
  destruct SH as [SR SN SK SD SO SRK SKK]. constructor; auto.
  - eapply seg_transfer; [|exact SR]. intros x Ix. split.
    + rewrite V. eapply seg_valid; eauto.
    + apply FS. intros I. exact (SRK t x Ix I).
  - intros i Vi Ei. rewrite V in Vi. rewrite upd_kids_ne by auto.
    destruct (L i) as (_ & ->).
    assert (Ni : i <> npos) by lia.
    eapply seg_transfer; [|apply (SK i Vi Ni)]. intros x Ix. split.
    + rewrite V. eapply KV; eauto.
    + apply FS. intros I. apply Ei. exact (SKK i t x Ix I).
  - intros i Vi Ei. rewrite V in Vi. rewrite upd_kids_ne by auto.
    destruct (L i) as (-> & _).
    rewrite (map_ext (deg d1) (deg d)); [apply SD; auto; lia|].
    intros x. now destruct (L x).
  - intros i [Hi| ->].
    + destruct (N.eq_dec i t) as [->|E]; [apply upd_kids_eq|].
      rewrite upd_kids_ne by auto. apply SO. left. now rewrite <- V.
    + apply upd_kids_eq.
  - intros i x Ix. destruct (N.eq_dec i t) as [->|E].
    + rewrite upd_kids_eq. auto.
    + rewrite upd_kids_ne by auto. auto.
  - intros i j x. destruct (N.eq_dec i t) as [->|Ei].
    + rewrite upd_kids_eq. intros [].
    + destruct (N.eq_dec j t) as [->|Ej].
      * rewrite upd_kids_eq. intros _ [].
      * rewrite !upd_kids_ne by auto. apply SKK.
Qed.

Lemma cut_at_incl t l x : In x (cut_at t l) -> In x l.
Proof.
  induction l as [|y l IH]; simpl; auto.
  destruct (y =? t); simpl; tauto.
Qed.

Lemma cut_at_chain d d' t p l :
  chain d p l -> vsize d' = vsize d ->
  (forall w, w <> t -> sib d' w = sib d w) -> sib d' t = npos ->
  chain d' p (cut_at t l).
Proof.
  intros H V FS St. revert p H. unfold chain.
  induction l as [|x l IH]; intros p H; simpl in *; auto.
  destruct H as (-> & Vx & H). destruct (x =? t) eqn:E.
  - apply N.eqb_eq in E. subst. simpl. repeat split; auto. lia.
  - apply N.eqb_neq in E. simpl. split; [auto|]. split; [lia|].
    rewrite FS by auto. now apply IH.
Qed.

Lemma cut_at_decr d d' t a l :
  (forall w, deg d' w = (if w =? t then 0 else deg d w)) ->
  decr (a :: map (deg d) l) -> decr (a :: map (deg d') (cut_at t l)).
Proof.
  intros FD. revert a. induction l as [|x l IH]; intros a H; simpl in *; auto.
  apply decr_cons in H as [H1 H2]. inversion H2 as [|? ? Hx H2']. subst.
  destruct (x =? t) eqn:E.
  - simpl. rewrite FD, E. apply decr_cons. split; [repeat constructor|].
    constructor; [lia|constructor].
  - simpl. rewrite (FD x), E. specialize (IH _ H1).
    apply decr_cons. split; [exact IH|]. constructor; [exact Hx|].
    apply decr_cons in IH as [_ IH]. eapply Forall_impl; [|exact IH].
    simpl. intros; lia.
Qed.

Lemma sum_deg_zero d d2 t :
  vsize d2 = vsize d -> t < vsize d ->
  (forall w, deg d2 w = (if w =? t then 0 else deg d w)) ->
  sum_deg d2 + deg d t = sum_deg d.
Proof.
  intros V Vt FD.
  destruct (dmod_lt d t (fun n => set_degree n 0) Vt) as (n & G & H).
  set (d1 := list_upd d _ _) in *.
  pose proof (sum_deg_dmod _ _ _ _ _ H G) as S. simpl in S.
  rewrite (deg_ok _ _ _ G) in S.
  apply dmod_degree in H as [V1 F1].
  assert (E : sum_deg d2 = sum_deg d1).
  { apply sum_deg_ext; [congruence|]. intros x. rewrite FD.
    destruct (F1 x) as [-> _]. reflexivity. }
  lia.
Qed.

(** The node [t] is reset: the shape holds again without exception. *)
Lemma shape_invalidate t d hd roots kids d' :
  vsize d <= npos -> t < vsize d ->
  shape t d hd roots kids -> credit t d roots -> ~ In t roots ->
  vsize d' = vsize d ->
  (forall w, sib d' w = (if w =? t then npos else sib d w)) ->
  (forall w, chd d' w = (if w =? t then npos else chd d w)) ->
  (forall w, deg d' w = (if w =? t then 0 else deg d w)) ->
  shape npos d' hd roots (fun i => if i =? t then [] else cut_at t (kids i)) /\
  credit npos d' roots /\
  map (deg d') roots = map (deg d) roots.
Proof.
  intros VN Vt SH CR NI V FS FC FD.
  assert (FS' : forall w, w <> t -> sib d' w = sib d w).
  { intros w Nw. rewrite FS. apply N.eqb_neq in Nw. now rewrite Nw. }
  destruct SH as [SR SN SK SD SO SRK SKK].
  split; [|split].
  - constructor; auto.
    + eapply seg_transfer; [|exact SR]. intros x Ix. split.
      * rewrite V. eapply seg_valid; eauto.
      * apply FS'. intros ->. auto.
    + intros i Vi Ei. rewrite V in Vi. rewrite FC.
      destruct (i =? t) eqn:E; [reflexivity|]. apply N.eqb_neq in E.
      apply (cut_at_chain d); auto.
      rewrite FS. now rewrite N.eqb_refl.
    + intros i Vi Ei. rewrite V in Vi. rewrite (FD i).
      destruct (i =? t) eqn:E; [simpl; repeat constructor|].
      apply N.eqb_neq in E. apply (cut_at_decr d); auto.
    + intros i Hi. destruct (i =? t) eqn:E; auto. apply N.eqb_neq in E.
      rewrite SO; [reflexivity|]. destruct Hi as [Hi| ->]; [left; lia|].
      left. lia.
    + intros i x Ix. destruct (i =? t); [auto|].
      intros I. apply cut_at_incl in I. exact (SRK i x Ix I).
    + intros i j x. destruct (i =? t) eqn:Ei; [intros []|].
      destruct (j =? t) eqn:Ej; [intros _ []|].
      intros I J. apply cut_at_incl in I, J. eauto.
  - unfold credit in *. pose proof (sum_deg_zero d d' t V Vt FD) as S.
    unfold deg at 1. rewrite field_oob by lia. lia.
  - apply map_ext_in. intros x Ix. rewrite FD.
    destruct (x =? t) eqn:E; auto. apply N.eqb_eq in E. subst. tauto.
Qed.

Lemma incr_remove l1 a l2 : incr (l1 ++ a :: l2) -> incr (l1 ++ l2).
Proof.
  rewrite !incr_app. intros (H1 & H2 & H3). apply incr_cons in H2 as [H2 _].
  repeat split; auto. intros x y Ix Iy. apply H3; simpl; auto.
Qed.

(** ** The operations keep the forest well formed *)

Section Forest.

Context {T : Type}.
Variable compare_ : T -> T -> bool.
Variable _id : T -> size_type.
Variable indeterminate : size_type.

Lemma push_node_ok (h : binomial_heap T) d h1 idx :
  push_node _id h d = Ok (h1, idx) -> vsize (data_ h) < npos ->
  idx = vsize (data_ h) /\
  data_ h1 = data_ h ++ [mk_node (last_index (elements_ h ++ [d]))
                           npos npos npos 0] /\
  elements_ h1 = elements_ h ++ [d] /\
  head_ h1 = head_ h /\ top_ h1 = top_ h /\
  vget OobIndex (index_array h1) (_id d) = Ok idx /\
  capacity h1 = capacity h.
Proof.
  unfold push_node. intros H V. bind_in H. inv H. simpl.
  apply vset_ok in E as [L ->].
  assert (I : last_index
                (data_ h ++ [mk_node (last_index (elements_ h ++ [d]))
                               npos npos npos 0]) = vsize (data_ h)).
  { match goal with |- last_index ?l = _ =>
      assert (last_index l + 1 = vsize l) as A
    end.
    { apply last_index_pos; rewrite vsize_snoc; lia. }
    rewrite vsize_snoc in A. lia. }
  rewrite I. repeat split; auto.
  - now apply vget_upd_eq.
  - unfold capacity. simpl. apply vsize_upd.
Qed.

(** The call of [binomial_heap_union] in [push]. *)
Lemma push_union (h : binomial_heap T) v h1 idx roots kids :
  shape npos (data_ h) (head_ h) roots kids ->
  credit npos (data_ h) roots ->
  incr (map (deg (data_ h)) roots) ->
  vsize (data_ h) + 1 < npos -> head_ h <> npos ->
  push_node _id h v = Ok (h1, idx) ->
  union_outcome npos (roots ++ [idx]) h1
    (binomial_heap_union compare_ indeterminate h1 idx).
Proof.
  intros SH CR IN V HN PN.
  destruct (push_node_ok _ _ _ _ PN) as (-> & D1 & E1 & H1 & T1 & _); [lia|].
  set (d := data_ h) in *.
  set (n := mk_node (last_index (elements_ h ++ [v])) npos npos npos 0) in *.
  assert (V1 : vsize (data_ h1) = vsize d + 1) by (rewrite D1; apply vsize_snoc).
  assert (FA : forall f dflt x, x < vsize d ->
               field f dflt (data_ h1) x = field f dflt d x).
  { intros. rewrite D1. now apply field_app_l. }
  assert (RV : forall x, In x roots -> x < vsize d).
  { intros x Ix. eapply seg_valid; [apply (sh_roots _ _ _ _ _ SH)|exact Ix]. }
  assert (DR : map (deg (data_ h1)) roots = map (deg d) roots).
  { apply map_ext_in. intros x Ix. apply FA. auto. }
  apply union_spec with (kids := kids).
  - lia.
  - rewrite D1, H1. apply shape_push; auto. lia.
  - rewrite D1. unfold chain. simpl. split; [auto|].
    split; [rewrite vsize_snoc; lia|].
    unfold sib. now rewrite field_app_last.
  - intros ->. pose proof (sh_roots _ _ _ _ _ SH) as C.
    apply chain_nil in C. auto.
  - discriminate.
  - intros x [<-|[]]. split.
    + intros I. apply RV in I. lia.
    + intros i I. apply (shape_valid _ _ _ _ _ _ _ SH) in I. lia.
  - assert (SD1 : sum_deg (data_ h1) = sum_deg d).
    { rewrite D1, sum_deg_app. simpl. lia. }
    unfold credit in CR. rewrite SD1, V1.
    unfold deg in CR |- *. rewrite field_oob in CR by (fold d; lia).
    rewrite field_oob by lia.
    change (vsize [vsize d]) with 1. lia.
  - intros I. apply in_app_or in I as [I|[I|[]]].
    + apply RV in I. lia.
    + lia.
  - now rewrite DR.
  - simpl. repeat constructor.
Qed.

Lemma forest_nonempty (h : binomial_heap T) roots kids :
  shape npos (data_ h) (head_ h) roots kids -> vsize (data_ h) <= npos ->
  (head_ h = npos <-> roots = []).
Proof.
  intros SH V. pose proof (sh_roots _ _ _ _ _ SH) as C. split.
  - intros E. rewrite E in C. eapply chain_npos; eauto.
  - intros ->. now apply chain_nil in C.
Qed.

(** [push] keeps the forest well formed and adds one node. *)
Lemma push_forest (h : binomial_heap T) d h' :
  forest_ok h -> vsize (data_ h) + 1 < npos ->
  push compare_ _id indeterminate h d = Ok h' ->
  forest_ok h' /\ vsize (data_ h') = vsize (data_ h) + 1.
Proof.
  intros (roots & kids & SH & CR & IN) V P. unfold push in P.
  bind_in P. destruct a as [h1 idx].
  destruct (push_node_ok _ _ _ _ E) as (-> & D1 & E1 & H1 & T1 & _); [lia|].
  assert (V1 : vsize (data_ h1) = vsize (data_ h) + 1)
    by (rewrite D1; apply vsize_snoc).
  destruct (head_ h1 =? npos) eqn:HN.
  - apply N.eqb_eq in HN. inv P. simpl. split; [|exact V1].
    rewrite H1 in HN.
    assert (R0 : roots = []).
    { eapply forest_nonempty; eauto. lia. }
    subst roots. exists [vsize (data_ h)], kids.
    cbn [data_ head_ with_top with_head].
    assert (SH1 : shape npos (data_ h1) (head_ h) [] kids).
    { rewrite D1. apply shape_push; auto. lia. }
    split; [|split].
    + eapply shape_reroot; eauto.
      * unfold chain. simpl. split; [auto|]. split; [lia|].
        rewrite D1. unfold sib. now rewrite field_app_last.
      * repeat constructor. auto.
      * intros i x [<-|[]] I.
        apply (shape_valid _ _ _ _ _ _ _ SH) in I. lia.
    + assert (SD1 : sum_deg (data_ h1) = sum_deg (data_ h)).
      { rewrite D1, sum_deg_app. simpl. lia. }
      unfold credit in *. rewrite SD1, V1.
      unfold deg in CR |- *. rewrite field_oob in CR by lia.
      rewrite field_oob by lia.
      change (vsize [vsize (data_ h)]) with 1.
      change (vsize (@nil size_type)) with 0 in CR. lia.
    + simpl. repeat constructor.
  - apply N.eqb_neq in HN. rewrite H1 in HN.
    pose proof (push_union h d h1 (vsize (data_ h)) roots kids SH CR IN V HN E)
      as U.
    bind_in P. simpl in U.
    destruct U as (roots' & kids' & A & B & C & _ & _ & [SI _] & _).
    repeat bind_in P.
    assert (F : forest_ok a) by (exists roots', kids'; auto).
    destruct (compare_ a0 a1); inv P; simpl; split; auto; congruence.
Qed.

Lemma union_npos (h : binomial_heap T) h' :
  vsize (data_ h) <= npos ->
  binomial_heap_union compare_ indeterminate h npos <> Ok h'.
Proof.
  intros V H. unfold binomial_heap_union, merge in H.
  rewrite (dget_npos _ V) in H.
  destruct (dget (data_ h) (head_ h)); discriminate.
Qed.

Lemma pop_detach_spec (h : binomial_heap T) roots kids d1 nh :
  shape npos (data_ h) (head_ h) roots kids -> vsize (data_ h) <= npos ->
  pop_detach h = Ok (d1, nh) ->
  top_ h < vsize (data_ h) /\
  nh = hd npos (rev (kids (top_ h))) /\
  chain d1 nh (rev (kids (top_ h))) /\
  vsize d1 = vsize (data_ h) /\
  (forall w, deg d1 w = deg (data_ h) w /\ chd d1 w = chd (data_ h) w /\
             itm d1 w = itm (data_ h) w) /\
  (forall w, ~ In w (kids (top_ h)) -> dget d1 w = dget (data_ h) w).
Proof.
  intros SH V H. unfold pop_detach in H. bind_in H.
  apply dget_ok_lt in E as Vt. split; [exact Vt|].
  set (t := top_ h) in *. set (d := data_ h) in *.
  assert (CK : chain d (chd d t) (kids t)).
  { apply (sh_kids _ _ _ _ _ SH); auto. lia. }
  rewrite (chd_ok _ _ _ E) in H.
  destruct (chd d t =? npos) eqn:EC; cbn [negb] in H.
  - inv H. apply N.eqb_eq in EC. rewrite EC in CK.
    apply chain_npos in CK; auto. rewrite CK. simpl.
    repeat split; auto.
  - destruct (reverse_loop_spec (kids t) (fuel_of d) d [] npos (chd d t))
      as (d' & R & CH & V' & FD & FR & _); auto.
    + reflexivity.
    + rewrite app_nil_r. apply (map_nodup (deg d)).
      apply decr_nodup. pose proof (sh_decr _ _ _ _ _ SH t Vt) as D.
      apply decr_cons in D; [tauto|lia].
    + unfold fuel_of.
      assert (length (kids t) <= length d)%nat; [|lia].
      apply (chain_length d (chd d t)); auto.
      apply (map_nodup (deg d)).
      apply decr_nodup. pose proof (sh_decr _ _ _ _ _ SH t Vt) as D.
      apply decr_cons in D; [tauto|lia].
    + rewrite R in H. inv H. rewrite app_nil_r in CH. repeat split; auto;
        apply FD.
Qed.

(** [pop] up to the new root list: the old top [t] is off the list and its
    children are on it. *)
Lemma pop_relink (h : binomial_heap T) roots kids d1 nh nhd h2 :
  shape npos (data_ h) (head_ h) roots kids ->
  credit npos (data_ h) roots ->
  incr (map (deg (data_ h)) roots) ->
  vsize (data_ h) < npos ->
  pop_detach h = Ok (d1, nh) ->
  dget d1 (head_ h) = Ok nhd ->
  (if right_sibling nhd =? npos then Ok (with_head (with_data h d1) nh)
   else h3 <- pop_unlink (with_data h d1) ;;
        binomial_heap_union compare_ indeterminate h3 nh) = Ok h2 ->
  exists roots2 kids2,
    shape (top_ h) (data_ h2) (head_ h2) roots2 kids2 /\
    credit (top_ h) (data_ h2) roots2 /\
    incr (map (deg (data_ h2)) roots2) /\
    ~ In (top_ h) roots2 /\
    vsize (data_ h2) = vsize (data_ h) /\
    top_ h < vsize (data_ h) /\
    elements_ h2 = elements_ h /\ index_array h2 = index_array h.
Proof.
  intros SH CR IN V PD GH H2.
  assert (VN : vsize (data_ h) <= npos) by lia.
  destruct (pop_detach_spec h roots kids d1 nh SH VN PD)
    as (Vt & Enh & CK & V1 & F1 & FR1).
  set (t := top_ h) in *. set (d := data_ h) in *. set (K := kids t) in *.
  assert (Nt : t <> npos) by lia.
  pose proof (sh_decr _ _ _ _ _ SH t Vt Nt) as DK. fold K in DK.
  assert (LK : vsize K <= deg d t).
  { apply decr_length in DK. unfold vsize in *. now rewrite length_map in DK. }
  assert (NtK : ~ In t K).
  { intros I. apply decr_cons in DK as [_ DK]. rewrite Forall_forall in DK.
    specialize (DK (deg d t) (in_map _ _ _ I)). lia. }
  assert (NDK : NoDup (rev K)).
  { apply NoDup_rev. apply (map_nodup (deg d)). apply decr_nodup.
    now apply decr_cons in DK. }
  assert (D1 : forall w, deg d1 w = deg d w) by (intros w; now destruct (F1 w)).
  assert (S1 : forall w, ~ In w K -> sib d1 w = sib d w).
  { intros w Nw. unfold sib, field. now rewrite FR1. }
  assert (SH1 : shape t d1 (head_ h) roots (upd_kids kids t [])).
  { apply (shape_detach d); auto. intros w. destruct (F1 w). tauto. }
  assert (SD1 : sum_deg d1 = sum_deg d) by (apply sum_deg_ext; auto).
  assert (IK : incr (map (deg d1) (rev K))).
  { rewrite (map_ext _ _ D1), map_rev. apply decr_rev.
    now apply decr_cons in DK. }
  assert (RKK : forall i x, In x (rev K) -> ~ In x (upd_kids kids t [] i)).
  { intros i x Ix. apply in_rev in Ix. destruct (N.eq_dec i t) as [->|E].
    - rewrite upd_kids_eq. auto.
    - rewrite upd_kids_ne by auto. intros I. apply E.
      exact (sh_kk _ _ _ _ _ SH i t x I Ix). }
  assert (RKR : forall x, In x (rev K) -> ~ In x roots).
  { intros x Ix I. apply in_rev in Ix. exact (sh_rk _ _ _ _ _ SH t x I Ix). }
  pose proof (sh_roots _ _ _ _ _ SH1) as CR1.
  apply dget_ok_lt in GH as Vh.
  apply chain_cons in CR1 as (rest & ER & _ & CRest); [|lia|lia].
  subst roots.
  rewrite (sib_ok _ _ _ GH) in H2.
  destruct (sib d1 (head_ h) =? npos) eqn:ES.
  - (* the old top was the only root, or no root at all *)
    inv H2. cbn [data_ head_ with_head with_data elements_ index_array].
    exists (rev K), (upd_kids kids t []).
    apply N.eqb_eq in ES. rewrite ES in CRest.
    apply chain_npos in CRest; [|lia]. subst rest.
    split; [|split; [|split; [|split]]]; auto.
    + eapply shape_reroot; eauto.
    + unfold credit in *. rewrite SD1, D1, V1.
      change (vsize [head_ h]) with 1 in CR.
      unfold deg at 1 in CR. rewrite field_oob in CR by (fold d; lia).
      assert (vsize (rev K) = vsize K) by (unfold vsize; now rewrite length_rev).
      lia.
    + intros I. apply in_rev in I. auto.
  - (* the old top leaves a list of several roots *)
    apply N.eqb_neq in ES.
    bind_in H2. rename a into h3.
    assert (U : exists roots3,
      shape t (data_ h3) (head_ h3) roots3 (upd_kids kids t []) /\
      roots3 <> [] /\ ~ In t roots3 /\ incl roots3 (head_ h :: rest) /\
      S (length roots3) = length (head_ h :: rest) /\
      incr (map (deg d) roots3) /\
      vsize (data_ h3) = vsize d /\
      (forall w, deg (data_ h3) w = deg d w) /\
      sum_deg (data_ h3) = sum_deg d /\
      chain (data_ h3) nh (rev K) /\
      elements_ h3 = elements_ h /\ index_array h3 = index_array h /\
      top_ h3 = t).
    { unfold pop_unlink in E.
      cbn [data_ head_ top_ with_data] in E. rewrite GH in E.
      unfold bind at 1 in E. fold t in E.
      assert (ND : NoDup (head_ h :: rest)) by (destruct SH; auto).
      destruct (head_ h =? t) eqn:EH.
      - apply N.eqb_eq in EH. inv E.
        cbn [data_ head_ top_ with_head with_data elements_ index_array].
        exists rest. rewrite (sib_ok _ _ _ GH).
        inversion ND as [|? ? NIh ND']. subst.
        split; [|split; [|split; [|split; [|split; [|split]]]]]; auto.
        + eapply shape_reroot; eauto.
          intros i x Ix. apply (sh_rk _ _ _ _ _ SH1). simpl. auto.
        + intros ->. apply chain_nil in CRest. auto.
        + rewrite <- EH. exact NIh.
        + intros x Ix. simpl. auto.
        + simpl in IN. apply incr_cons in IN. tauto.
        + repeat split; auto.
      - apply N.eqb_neq in EH. bind_as E tmp E0. bind_as E nt E1.
        bind_as E d2 E2. inv E.
        cbn [data_ head_ top_ with_head with_data elements_ index_array].
        rewrite (sib_ok _ _ _ E1) in E2.
        assert (VN1 : vsize d1 <= npos) by lia.
        destruct (find_prev_spec _ _ _ _ _ _ VN1
                    (sh_roots _ _ _ _ _ SH1) Nt E0) as (l1 & l2 & EL).
        exists (l1 ++ tmp :: l2).
        pose proof (sh_roots _ _ _ _ _ SH1) as C1. rewrite EL in C1.
        apply chain_split in C1 as (Sg1 & Vtmp & C1).
        unfold chain in C1. simpl in C1. destruct C1 as (St & _ & C2).
        apply dmod_sibling in E2 as [V2 F2].
        rewrite EL in ND.
        assert (ND3 : NoDup (l1 ++ tmp :: l2)).
        { change (l1 ++ tmp :: t :: l2) with (l1 ++ [tmp] ++ t :: l2) in ND.
          rewrite app_assoc in ND. apply NoDup_remove_1 in ND.
          now rewrite <- app_assoc in ND. }
        assert (NT3 : ~ In t (l1 ++ tmp :: l2)).
        { change (l1 ++ tmp :: t :: l2) with (l1 ++ [tmp] ++ t :: l2) in ND.
          rewrite app_assoc in ND. apply NoDup_remove_2 in ND.
          now rewrite <- app_assoc in ND. }
        assert (INC : incl (l1 ++ tmp :: l2) (head_ h :: rest)).
        { rewrite EL. intros x Ix. apply in_app_or in Ix as [I|[<-|I]];
            apply in_or_app; simpl; auto. }
        assert (SO : forall w, w <> tmp -> sib d2 w = sib d1 w).
        { intros w Nw. destruct (F2 w) as (-> & _).
          apply N.eqb_neq in Nw. now rewrite Nw. }
        assert (NTmp : ~ In tmp l1 /\ ~ In tmp l2).
        { apply NoDup_remove_2 in ND3. split; intros I; apply ND3;
            apply in_or_app; auto. }
        assert (D2 : forall w, deg d2 w = deg d w).
        { intros w. destruct (F2 w) as (_ & _ & _ & -> & _). apply D1. }
        split; [|split; [|split; [|split; [|split; [|split]]]]]; auto.
        + eapply shape_reroot; [exact SH1| | | | |exact ND3|]; auto.
          * intros w. destruct (F2 w) as (_ & _ & -> & -> & _). tauto.
          * intros i x Ix. apply SO. intros ->.
            apply (sh_rk _ _ _ _ _ SH1 i tmp); auto.
            rewrite EL. apply in_or_app. simpl. auto.
          * apply chain_split. split; [|split].
            -- eapply seg_transfer; [|exact Sg1]. intros x Ix. split.
               ++ rewrite V2. apply (seg_valid _ _ _ _ _ Sg1 Ix).
               ++ apply SO. intros ->. tauto.
            -- lia.
            -- destruct (F2 tmp) as (-> & _). rewrite N.eqb_refl.
               eapply seg_transfer; [|exact C2]. intros x Ix. split.
               ++ rewrite V2. apply (seg_valid _ _ _ _ _ C2 Ix).
               ++ apply SO. intros ->. tauto.
          * intros i x Ix. apply (sh_rk _ _ _ _ _ SH1). now apply INC.
        + intros E. apply app_eq_nil in E as [_ E]. discriminate.
        + rewrite EL. rewrite !length_app. simpl. lia.
        + rewrite EL in IN.
          change (l1 ++ tmp :: t :: l2) with (l1 ++ [tmp] ++ t :: l2) in IN.
          rewrite app_assoc, map_app in IN. simpl map in IN.
          apply incr_remove in IN. rewrite <- map_app, <- app_assoc in IN.
          exact IN.
        + split; [congruence|]. split; [exact D2|]. split.
          * apply sum_deg_ext; [congruence|exact D2].
          * split; [|auto]. eapply seg_transfer; [|exact CK]. intros x Ix.
            split.
            -- rewrite V2. apply (seg_valid _ _ _ _ _ CK Ix).
            -- apply SO. intros ->. apply (RKR tmp Ix).
               rewrite EL. apply in_or_app. simpl. auto. }
    destruct U as (roots3 & SH3 & NE3 & NT3 & INC3 & LEN3 & IN3 & V3 & D3 & SD3
                   & CK3 & EE3 & EI3 & ET3).
    destruct (list_eq_dec N.eq_dec K []) as [EK|NK].
    { exfalso. rewrite EK in Enh. simpl in Enh. subst nh.
      eapply union_npos; [|exact H2]. rewrite V3. lia. }
    pose proof (union_spec compare_ indeterminate h3 nh roots3 (rev K)
                  (upd_kids kids t []) t) as U.
    rewrite H2 in U. simpl in U.
    destruct U as (roots' & kids' & A & B & C & D & _ & [SV _] & EE & _ & EI & _).
    + rewrite V3. lia.
    + exact SH3.
    + exact CK3.
    + exact NE3.
    + intros ER. apply NK. apply (f_equal (@rev _)) in ER.
      now rewrite rev_involutive in ER.
    + intros x Ix. split; [|intros i; now apply RKK].
      intros I. apply (RKR x Ix). now apply INC3.
    + rewrite SD3, V3, D3. unfold credit in CR.
      unfold deg at 1 in CR. rewrite field_oob in CR by (fold d; lia).
      assert (vsize (rev K) = vsize K) by (unfold vsize; now rewrite length_rev).
      fold d in CR. unfold vsize at 1 in CR. rewrite <- LEN3 in CR.
      unfold vsize at 1. lia.
    + intros I. apply in_app_or in I as [I|I]; [auto|].
      apply in_rev in I. auto.
    + now rewrite (map_ext _ _ D3).
    + rewrite (map_ext _ _ D3). rewrite <- (map_ext _ _ D1). exact IK.
    + exists roots', kids'.
      split; [exact A|]. split; [exact B|]. split; [exact C|].
      split; [exact D|]. repeat split; auto; congruence.
Qed.

Lemma pop_compact_forest (h : binomial_heap T) t roots kids h' :
  shape t (data_ h) (head_ h) roots kids ->
  credit t (data_ h) roots ->
  incr (map (deg (data_ h)) roots) ->
  ~ In t roots -> vsize (data_ h) <= npos ->
  pop_compact _id h t = Ok h' ->
  forest_ok h' /\ vsize (data_ h') = vsize (data_ h).
Proof.
  intros SH CR IN NI V H. unfold pop_compact in H.
  bind_as H lst E0. bind_as H index E1. bind_as H e1 E2.
  bind_as H d3 E3. bind_as H d4 E4. bind_as H d5 E5. bind_as H d6 E6.
  bind_as H d7 E7. bind_as H e2 E8. inv H.
  cbn [data_ head_].
  apply dmod_ok in E4 as E4'. destruct E4' as (n4 & G4 & _).
  apply dget_ok_lt in G4 as Vt.
  apply dmod_item in E3 as [V3 F3]. apply dmod_parent in E4 as [V4 F4].
  apply dmod_child in E5 as [V5 F5]. apply dmod_sibling in E6 as [V6 F6].
  apply dmod_degree in E7 as [V7 F7].
  set (d := data_ h) in *.
  assert (VV : vsize d7 = vsize d) by congruence.
  destruct (shape_invalidate t d (head_ h) roots kids d7) as (A & B & C); auto.
  - lia.
  - intros w. destruct (F7 w) as (_ & _ & -> & _). destruct (F6 w) as (-> & _).
    destruct (w =? t); auto.
    destruct (F5 w) as (_ & _ & -> & _). destruct (F4 w) as (_ & -> & _).
    destruct (F3 w) as (_ & _ & -> & _). reflexivity.
  - intros w. destruct (F7 w) as (_ & _ & _ & -> & _).
    destruct (F6 w) as (_ & _ & -> & _). destruct (F5 w) as (-> & _).
    destruct (w =? t); auto.
    destruct (F4 w) as (_ & _ & -> & _).
    destruct (F3 w) as (_ & _ & _ & -> & _). reflexivity.
  - intros w. destruct (F7 w) as (-> & _). destruct (w =? t); auto.
    destruct (F6 w) as (_ & _ & _ & -> & _).
    destruct (F5 w) as (_ & _ & _ & -> & _).
    destruct (F4 w) as (_ & _ & _ & -> & _).
    destruct (F3 w) as (_ & _ & _ & _ & ->). reflexivity.
  - split; [|exact VV]. eexists. eexists. cbn [data_ head_].
    split; [exact A|]. split; [exact B|]. now rewrite C.
Qed.

(** [pop] keeps the forest well formed and the size of the arena. *)
Lemma pop_forest (h : binomial_heap T) h' :
  forest_ok h -> vsize (data_ h) < npos ->
  pop compare_ _id indeterminate h = Ok h' ->
  forest_ok h' /\ vsize (data_ h') = vsize (data_ h).
Proof.
  intros F V P. unfold pop in P.
  destruct (head_ h =? npos); [inv P; auto|].
  bind_in P. destruct a as [d1 nh]. bind_as P nhd E0. bind_as P h2 E1.
  bind_as P tn E2.
  destruct F as (roots & kids & SH & CR & IN).
  cbn [data_ head_ with_data] in E0.
  destruct (pop_relink h roots kids d1 nh nhd h2 SH CR IN V E E0 E1)
    as (roots2 & kids2 & A & B & C & D & V2 & _).
  destruct (pop_compact_forest (with_top h2 tn) (top_ h) roots2 kids2 h')
    as [F' V']; auto.
  - cbn [data_ with_top]. lia.
  - cbn [data_ with_top] in V'. split; [auto|congruence].
Qed.

Lemma update_frame (h : binomial_heap T) d h' :
  update compare_ _id h d = Ok h' ->
  data_ h' = data_ h /\ head_ h' = head_ h.
Proof.
  unfold update. intros H. bind_as H index E0. bind_as H ni E1.
  bind_as H e0 E2. bind_as H r E3. destruct r as [h1 index'].
  bind_as H ia E4. bind_as H tv E5.
  apply update_loop_capacity in E3 as (_ & A & B & _).
  destruct (compare_ d tv); inv H; simpl; auto.
Qed.

Lemma update_forest (h : binomial_heap T) d h' :
  forest_ok h -> update compare_ _id h d = Ok h' ->
  forest_ok h' /\ vsize (data_ h') = vsize (data_ h).
Proof.
  intros F H. apply update_frame in H as [A B]. unfold forest_ok.
  rewrite A, B. auto.
Qed.

Lemma reverse_loop_vsize fuel d nh p d' nh' :
  reverse_loop fuel d nh p = Ok (d', nh') -> vsize d' = vsize d.
Proof.
  revert d nh p. induction fuel as [|fuel IH]; intros d nh p H; simpl in H;
    [discriminate|].
  destruct (p =? npos); [now inv H|].
  bind_as H nt E0. bind_as H d1 E1. bind_as H d2 E2.
  apply IH in H. apply dmod_vsize in E1, E2. congruence.
Qed.

Lemma push_data_size (h : binomial_heap T) d h' :
  push compare_ _id indeterminate h d = Ok h' ->
  vsize (data_ h') = vsize (data_ h) + 1.
Proof.
  unfold push, push_node. intros H. bind_as H r E0. bind_as E0 ia E1. inv E0.
  cbn [head_ data_] in H. destruct (head_ h =? npos).
  - inv H. simpl. apply vsize_snoc.
  - bind_as H h2 E2. bind_as H a E3. bind_as H b E4.
    apply union_frame in E2 as (_ & _ & _ & E2); [|exact _id]. simpl in E2.
    rewrite vsize_snoc in E2.
    destruct (compare_ a b); inv H; simpl; auto.
Qed.

Lemma pop_data_size (h : binomial_heap T) h' :
  pop compare_ _id indeterminate h = Ok h' ->
  vsize (data_ h') = vsize (data_ h).
Proof.
  unfold pop. intros H. destruct (head_ h =? npos); [now inv H|].
  bind_as H r E0. destruct r as [d1 nh]. bind_as H nhd E1. bind_as H h2 E2.
  bind_as H tn E3.
  assert (V1 : vsize d1 = vsize (data_ h)).
  { unfold pop_detach in E0. bind_as E0 nt E4.
    destruct (negb (child nt =? npos)).
    - now apply reverse_loop_vsize in E0.
    - now inv E0. }
  assert (V2 : vsize (data_ h2) = vsize d1).
  { destruct (right_sibling nhd =? npos).
    - now inv E2.
    - bind_as E2 h3 E4. apply union_frame in E2 as (_ & _ & _ & ->); [|exact _id].
      unfold pop_unlink in E4. bind_as E4 n0 E5.
      cbn [data_ head_ top_ with_data] in *.
      destruct (head_ h =? top_ h).
      + now inv E4.
      + bind_as E4 tmp E6. bind_as E4 nt E7. bind_as E4 d2 E8. inv E4.
        simpl. now apply dmod_vsize in E8. }
  unfold pop_compact in H.
  bind_as H lst E4. bind_as H index E5. bind_as H e1 E6.
  bind_as H d3 E7. bind_as H d4 E8. bind_as H d5 E9. bind_as H d6 E10.
  bind_as H d7 E11. bind_as H e2 E12. inv H. cbn [data_ with_top] in *.
  apply dmod_vsize in E7, E8, E9, E10, E11. congruence.
Qed.

Lemma step_data_size (h : binomial_heap T) o h' :
  step compare_ _id indeterminate h o = Ok h' ->
  vsize (data_ h) <= vsize (data_ h').
Proof.
  destruct o; simpl; intros H.
  - apply push_data_size in H. lia.
  - apply update_frame in H as [-> _]. lia.
  - apply pop_data_size in H. lia.
Qed.

(** Every reachable state has a well-formed forest. *)
Lemma reachable_forest n (h : binomial_heap T) :
  reachable compare_ _id indeterminate n h ->
  vsize (data_ h) < npos -> forest_ok h.
Proof.
  induction 1 as [|h o h' R IH S]; intros V.
  - exists [], (fun _ => []). split; [|split].
    + constructor; simpl; auto.
      * reflexivity.
      * constructor.
      * intros w Vw. unfold vsize in Vw. simpl in Vw. lia.
      * intros w Vw. unfold vsize in Vw. simpl in Vw. lia.
      * intros _ _ _ [].
    + unfold credit, deg, field. simpl. unfold vsize. simpl. lia.
    + constructor.
  - pose proof (step_data_size _ _ _ S) as L.
    assert (F : forest_ok h) by (apply IH; lia).
    destruct o; simpl in S.
    + apply push_data_size in S as S'.
      eapply push_forest; eauto. lia.
    + eapply update_forest; eauto.
    + eapply pop_forest; eauto. lia.
Qed.

End Forest.

(** ** Reading the root list *)

Lemma root_degrees_chain d : vsize d <= npos -> forall l p fuel,
  chain d p l -> (length l < fuel)%nat ->
  root_degrees_loop fuel d p = Ok (map (deg d) l).
Proof.
  intros V. induction l as [|x l IH]; intros p fuel C F;
    (destruct fuel as [|fuel]; [simpl in F; lia|]); simpl.
  - apply chain_nil in C. subst. now rewrite N.eqb_refl.
  - unfold chain in C. simpl in C. destruct C as (-> & Vx & C).
    destruct (N.eqb_spec x npos) as [->|Nx]; [lia|].
    destruct (dget_lt d x Vx) as [n G]. rewrite G. unfold bind.
    rewrite (sib_ok _ _ _ G), (deg_ok _ _ _ G).
    rewrite (IH (sib d x) fuel); auto. simpl in F. lia.
Qed.

(** A well-formed root list with increasing degrees is read back in full,
    and no degree occurs twice in it. *)
Lemma shape_root_degrees {T : Type} (h : binomial_heap T) ex roots kids :
  shape ex (data_ h) (head_ h) roots kids ->
  incr (map (deg (data_ h)) roots) -> vsize (data_ h) <= npos ->
  exists ds, root_degrees h = Ok ds /\ strictly_increasing ds = true /\
             NoDup ds.
Proof.
  intros SH IN V. exists (map (deg (data_ h)) roots).
  split; [|split].
  - unfold root_degrees, fuel_of. apply root_degrees_chain; auto.
    + apply (sh_roots _ _ _ _ _ SH).
    + pose proof (chain_length _ _ _ (sh_nodup _ _ _ _ _ SH)
                    (sh_roots _ _ _ _ _ SH)). lia.
  - now apply strictly_increasing_incr.
  - now apply incr_nodup.
Qed.
(** ** The root-degree invariant *)

Section RootDegrees.

Context {T : Type}.
Variable compare_ : T -> T -> bool.
Variable _id : T -> size_type.
Variable indeterminate : size_type.

Lemma run_reachable n ops : forall (h h' : binomial_heap T),
  reachable compare_ _id indeterminate n h ->
  run compare_ _id indeterminate h ops = Ok h' ->
  reachable compare_ _id indeterminate n h'.
Proof.
  induction ops as [|o ops IH]; intros h h' R H; simpl in H.
  - now inv H.
  - bind_as H h1 E. eapply IH; [|exact H]. eapply reach_step; eauto.
Qed.

(** C5.  In every state reached from [binomial_heap(n, cmp, id)] by [push],
    [update] and [pop], reading the root list from [head_] along
    [right_sibling] ends and gives strictly increasing degrees, so no two
    roots have the same degree; the same holds right after the call of
    [binomial_heap_union] in [push], and right after the one in [pop]
    (there the removed node is already out of the root list). *)
Theorem root_degrees_strictly_increasing n (h : binomial_heap T) :
  reachable compare_ _id indeterminate n h ->
  vsize (data_ h) + 1 < npos ->
  (exists ds, root_degrees h = Ok ds /\ strictly_increasing ds = true /\
              NoDup ds) /\
  (forall v h1 idx h2,
     push_node _id h v = Ok (h1, idx) -> head_ h1 <> npos ->
     binomial_heap_union compare_ indeterminate h1 idx = Ok h2 ->
     exists ds, root_degrees h2 = Ok ds /\ strictly_increasing ds = true /\
                NoDup ds) /\
  (forall d1 nh nhd h3 h2,
     pop_detach h = Ok (d1, nh) ->
     dget d1 (head_ h) = Ok nhd -> right_sibling nhd <> npos ->
     pop_unlink (with_data h d1) = Ok h3 ->
     binomial_heap_union compare_ indeterminate h3 nh = Ok h2 ->
     exists ds, root_degrees h2 = Ok ds /\ strictly_increasing ds = true /\
                NoDup ds).
Proof.
  intros R V.
  assert (F : forest_ok h) by (eapply reachable_forest; eauto; lia).
  destruct F as (roots & kids & SH & CR & IN).
  split; [|split].
  - eapply shape_root_degrees; eauto. lia.
  - intros v h1 idx h2 PN HN U.
    destruct (push_node_ok _id _ _ _ _ PN) as (_ & D1 & _ & H1 & _); [lia|].
    pose proof (push_union compare_ _id indeterminate h v h1 idx roots kids
                  SH CR IN V) as O.
    rewrite H1 in HN. specialize (O HN PN). rewrite U in O.
    destruct O as (roots' & kids' & SH' & _ & IN' & _ & _ & [V' _] & _).
    eapply shape_root_degrees; eauto.
    rewrite V', D1, vsize_snoc. lia.
  - intros d1 nh nhd h3 h2 PD G NS PU U.
    destruct (pop_relink compare_ indeterminate h roots kids d1 nh nhd h2)
      as (roots2 & kids2 & SH2 & _ & IN2 & _ & V2 & _); auto.
    + lia.
    + apply N.eqb_neq in NS. rewrite NS, PU. exact U.
    + eapply shape_root_degrees; eauto. lia.
Qed.

End RootDegrees.

(** C5 on the heap of the keys [5, 3, 8, 1, 9, 2]: two roots, of degrees 1
    and 2. *)
Lemma root_degrees_strictly_increasing_witness :
  krun (binomial_heap_new 6) six_keys = Ok six_heap /\
  root_degrees six_heap = Ok [1; 2] /\
  exists ds, root_degrees six_heap = Ok ds /\
             strictly_increasing ds = true /\ NoDup ds.
Proof.
  split; [vm_compute; reflexivity|]. split; [vm_compute; reflexivity|].
  apply (root_degrees_strictly_increasing key_less handle_of 0 6 six_heap).
  - apply (run_reachable key_less handle_of 0 6 six_keys
             (binomial_heap_new 6)); [apply reach_new|vm_compute; reflexivity].
  - vm_compute. reflexivity.
Defined.
(** ** Insertions *)

Lemma vsize_0_nil {A : Type} (v : list A) : vsize v = 0 -> v = [].
Proof. destruct v; auto. unfold vsize. simpl. lia. Qed.

Lemma value_at_itm {T : Type} (h : binomial_heap T) x :
  x < vsize (data_ h) ->
  value_at h x = vget OobElements (elements_ h) (itm (data_ h) x).
Proof.
  intros V. unfold value_at. destruct (dget_lt _ _ V) as [n G].
  rewrite G. unfold bind. now rewrite (itm_ok _ _ _ G).
Qed.

Lemma last_cases {A : Type} (l : list A) :
  l = [] \/ exists l' a, l = l' ++ [a].
Proof.
  destruct l as [|a l]; auto. right.
  destruct (@exists_last _ (a :: l)) as (l' & x & E); [discriminate|eauto].
Qed.

Section Insertions.

Context {T : Type}.
Variable compare_ : T -> T -> bool.
Variable _id : T -> size_type.
Variable indeterminate : size_type.

Hypothesis compare_irrefl : forall a, compare_ a a = false.
Hypothesis compare_trans : forall a b c,
  compare_ a b = true -> compare_ b c = true -> compare_ a c = true.

Lemma extremal_single d : extremal compare_ [d] d.
Proof. split; [now left|]. intros v [<-|[]]. apply compare_irrefl. Qed.

Lemma extremal_snoc l t d :
  extremal compare_ l t ->
  extremal compare_ (l ++ [d]) (if compare_ d t then d else t).
Proof.
  intros [I M]. destruct (compare_ d t) eqn:E; split.
  - apply in_or_app. right. now left.
  - intros v Iv. apply in_app_or in Iv as [Iv|[<-|[]]].
    + destruct (compare_ v d) eqn:F; auto.
      rewrite <- (M v Iv). symmetry. eapply compare_trans; eauto.
    + apply compare_irrefl.
  - apply in_or_app. now left.
  - intros v Iv. apply in_app_or in Iv as [Iv|[<-|[]]]; auto.
Qed.

Lemma inserted_new n : inserted compare_ _id n [] (binomial_heap_new n).
Proof.
  exists [], (fun _ => []).
  assert (V0 : forall w, ~ w < vsize (data_ (@binomial_heap_new T n))).
  { intros w Vw. unfold vsize in Vw. simpl in Vw. lia. }
  split.
  { constructor; simpl; auto.
    - reflexivity.
    - constructor.
    - intros w Vw. now apply V0 in Vw.
    - intros w Vw. now apply V0 in Vw.
    - intros _ _ _ []. }
  split. { unfold credit, deg, field. simpl. unfold vsize. simpl. lia. }
  split. { constructor. }
  split. { intros w Vw. now apply V0 in Vw. }
  split. { intros r []. }
  split. { reflexivity. }
  split. { reflexivity. }
  split. { intros w Vw. now apply V0 in Vw. }
  split.
  { unfold capacity, binomial_heap_new, vsize. simpl.
    rewrite repeat_length. lia. }
  intros l' d E. now destruct l'.
Qed.

(** [push] on a heap built by insertions succeeds. *)
Lemma push_inserted n l (h : binomial_heap T) d :
  inserted compare_ _id n l h -> _id d < n -> vsize l + 1 < npos ->
  exists h', push compare_ _id indeterminate h d = Ok h' /\
             inserted compare_ _id n (l ++ [d]) h'.
Proof.
  intros (roots & kids & SH & CR & IN & PO & OR & EL & VS & IT & CAP & LAST)
    Hid V.
  assert (PN : exists h1 idx, push_node _id h d = Ok (h1, idx)).
  { unfold push_node. rewrite vset_lt; [unfold bind; eauto|].
    unfold capacity in CAP. rewrite CAP. exact Hid. }
  destruct PN as (h1 & idx & PN).
  destruct (push_node_ok _id _ _ _ _ PN) as (-> & D1 & E1 & H1 & T1 & IA1 & C1);
    [lia|].
  set (dd := data_ h) in *.
  assert (V1 : vsize (data_ h1) = vsize dd + 1)
    by (rewrite D1; apply vsize_snoc).
  assert (LI : last_index (elements_ h ++ [d]) = vsize dd).
  { assert (A : last_index (elements_ h ++ [d]) + 1
                = vsize (elements_ h ++ [d])).
    { apply last_index_pos; rewrite vsize_snoc, EL; lia. }
    rewrite vsize_snoc in A. apply N.add_cancel_r in A.
    rewrite A, EL. now symmetry. }
  assert (IT1 : forall x, x < vsize (data_ h1) -> itm (data_ h1) x = x).
  { intros x Vx. rewrite D1. destruct (N.eq_dec x (vsize dd)) as [->|Nx].
    - unfold itm. rewrite field_app_last. exact LI.
    - unfold itm. rewrite field_app_l by lia. apply IT. lia. }
  assert (PO1 : parents_ok (data_ h1)).
  { intros x Vx. rewrite D1. destruct (N.eq_dec x (vsize dd)) as [->|Nx].
    - unfold par. rewrite field_app_last. simpl. congruence.
    - unfold par, deg. rewrite !field_app_l by lia. intros Px.
      destruct (PO x) as [A B]; [lia|exact Px|].
      rewrite field_app_l by exact A. rewrite vsize_snoc.
      split; [unfold par in A; lia|exact B]. }
  assert (RV : forall x, In x roots -> x < vsize dd).
  { intros x Ix. eapply seg_valid; [apply (sh_roots _ _ _ _ _ SH)|exact Ix]. }
  assert (OR1 : orphans (data_ h1) (roots ++ [vsize dd])).
  { intros r Ir. rewrite D1. apply in_app_or in Ir as [Ir|[<-|[]]].
    - unfold par. rewrite field_app_l by auto. now apply OR.
    - unfold par. now rewrite field_app_last. }
  assert (VA : forall (h2 : binomial_heap T) x,
            same_items (data_ h1) (data_ h2) -> elements_ h2 = elements_ h1 ->
            x < vsize (data_ h1) ->
            value_at h2 x = vget OobElements (l ++ [d]) x).
  { intros h2 x [A B] C Vx. rewrite value_at_itm by lia.
    rewrite B, IT1, C, E1, EL; auto. }
  assert (LAST' : forall (h2 : binomial_heap T),
            head_ h2 <> npos ->
            index_array h2 = index_array h1 ->
            (exists t, top h2 = Ok t /\ extremal compare_ (l ++ [d]) t) ->
            forall l' d', l ++ [d] = l' ++ [d'] ->
              head_ h2 <> npos /\
              vget OobIndex (index_array h2) (_id d') = Ok (vsize l') /\
              exists t, top h2 = Ok t /\ extremal compare_ (l ++ [d]) t).
  { intros h2 A B C l' d' E. apply app_inj_tail in E as [<- <-].
    split; [exact A|]. split; [|exact C]. rewrite B, IA1. now rewrite VS. }
  unfold push. rewrite PN. unfold bind at 1. cbv beta iota.
  destruct (head_ h1 =? npos) eqn:HN.
  - apply N.eqb_eq in HN. rewrite H1 in HN.
    assert (L0 : l = []).
    { destruct (last_cases l) as [|(l' & a & E)]; auto.
      destruct (LAST _ _ E) as [A _]. contradiction. }
    assert (D0 : dd = []).
    { apply vsize_0_nil. rewrite VS, L0. reflexivity. }
    eexists. split; [reflexivity|].
    assert (P : push compare_ _id indeterminate h d
                = Ok (with_top (with_head h1 (vsize dd)) (vsize dd))).
    { unfold push. rewrite PN. unfold bind. cbv beta iota.
      rewrite H1, HN, N.eqb_refl. reflexivity. }
    apply push_forest in P as [(roots' & kids' & A & B & C) _];
      [|exists roots, kids; auto|fold dd; lia].
    exists roots', kids'. cbn [data_ head_ elements_ with_top with_head] in *.
    split; [exact A|]. split; [exact B|]. split; [exact C|].
    split; [exact PO1|].
    split.
    { intros r _. rewrite D1, D0. unfold par, field, dget, vget. simpl.
      destruct r as [|p]; simpl; auto.
      destruct (N.pos p <? vsize _); auto.
      destruct (Pos.to_nat p) eqn:Ep; [lia|]. simpl.
      now destruct n0. }
    split; [now rewrite E1, EL|].
    split; [now rewrite V1, VS, vsize_snoc|].
    split; [exact IT1|].
    split; [unfold capacity in *; simpl; congruence|].
    apply (LAST' (with_top (with_head h1 (vsize dd)) (vsize dd))).
    + simpl. rewrite D0. discriminate.
    + reflexivity.
    + exists d. split; [|rewrite L0; apply extremal_single].
      unfold top. cbn [top_ with_top].
      rewrite (VA _ (vsize dd)).
      * rewrite D0, L0. reflexivity.
      * split; auto.
      * reflexivity.
      * lia.
  - apply N.eqb_neq in HN. rewrite H1 in HN.
    pose proof (push_union compare_ _id indeterminate h d h1 (vsize dd)
                  roots kids SH CR IN) as O.
    specialize (O ltac:(fold dd; lia) HN PN).
    destruct (binomial_heap_union compare_ indeterminate h1 (vsize dd))
      as [h2|e] eqn:U; cycle 1.
    { exfalso. simpl in O.
      assert (IO : items_ok h1).
      { intros x Vx. rewrite IT1, E1, vsize_snoc, EL by exact Vx. lia. }
      destruct e; auto. }
    destruct O as (roots' & kids' & SH' & CR' & IN' & _ & NE' & SI & EL' & TP'
                   & IA' & PP).
    destruct (PP PO1 OR1) as [PO' OR'].
    assert (HN' : head_ h2 <> npos).
    { intros E. apply NE'. eapply forest_nonempty; eauto.
      destruct SI as [-> _]. lia. }
    destruct (last_cases l) as [->|(l' & a & E)].
    { exfalso. change (vsize (@nil T)) with 0 in VS. apply HN.
      eapply forest_nonempty; eauto; [fold dd; lia|].
      destruct roots as [|r roots]; auto.
      specialize (RV r (or_introl eq_refl)). lia. }
    destruct (LAST _ _ E) as (_ & _ & t & TT & EX).
    unfold top in TT. 
    assert (Vt : top_ h < vsize dd).
    { unfold value_at in TT. destruct (dget (data_ h) (top_ h)) eqn:G;
        [|discriminate]. now apply dget_ok_lt in G. }
    rewrite value_at_itm, IT, EL in TT by exact Vt.
    unfold bind at 1.
    assert (GD : vget OobElements (l ++ [d]) (vsize dd) = Ok d)
      by (rewrite VS; apply vget_app_last).
    rewrite (VA h2 (vsize dd) SI EL') by lia. rewrite GD.
    unfold bind at 1.
    rewrite (VA h2 (top_ h2) SI EL') by (rewrite TP', T1; lia).
    rewrite TP', T1.
    rewrite vget_app_l by (rewrite <- VS; exact Vt). rewrite TT.
    unfold bind at 1.
    assert (TV : forall x, x < vsize dd + 1 ->
               value_at (with_top h2 x) x = vget OobElements (l ++ [d]) x /\
               value_at h2 x = vget OobElements (l ++ [d]) x).
    { intros x Vx. split; apply VA; auto; lia. }
    assert (COM : forall h3 : binomial_heap T,
              data_ h3 = data_ h2 -> head_ h3 = head_ h2 ->
              elements_ h3 = elements_ h2 ->
              index_array h3 = index_array h2 ->
              top h3 = Ok (if compare_ d t then d else t) ->
              inserted compare_ _id n (l ++ [d]) h3).
    { intros h3 A B C D TOP. exists roots', kids'.
      destruct SI as [SV SI].
      split; [rewrite A, B; exact SH'|]. split; [rewrite A; exact CR'|].
      split; [rewrite A; exact IN'|].
      split; [rewrite A; exact PO'|]. split; [rewrite A; exact OR'|].
      split; [now rewrite C, EL', E1, EL|].
      split; [now rewrite A, SV, V1, VS, vsize_snoc|].
      split; [rewrite A; intros x Vx; rewrite SI; apply IT1; lia|].
      split; [unfold capacity in *; congruence|].
      apply LAST'.
      - congruence.
      - congruence.
      - eexists. split; [exact TOP|]. now apply extremal_snoc. }
    destruct (compare_ d t) eqn:CMP; eexists; (split; [reflexivity|]);
      apply COM; auto.
    + unfold top. cbn [top_ with_top].
      destruct (TV (vsize dd)) as [-> _]; [lia|]. exact GD.
    + unfold top. rewrite TP', T1.
      destruct (TV (top_ h)) as [_ ->]; [lia|].
      rewrite vget_app_l by (rewrite <- VS; exact Vt). exact TT.
Qed.

Lemma run_pushes n : forall l l0 (h : binomial_heap T),
  inserted compare_ _id n l0 h ->
  (forall v, In v l -> _id v < n) -> vsize (l0 ++ l) < npos ->
  exists h', run compare_ _id indeterminate h (map Push l) = Ok h' /\
             inserted compare_ _id n (l0 ++ l) h'.
Proof.
  induction l as [|d l IH]; intros l0 h I Hid V; simpl.
  - exists h. rewrite app_nil_r. auto.
  - rewrite vsize_app in V.
    assert (V' : vsize (d :: l) = vsize l + 1).
    { unfold vsize. simpl length. lia. }
    destruct (push_inserted n l0 h d I) as (h1 & P & I1).
    + apply Hid. now left.
    + assert (0 <= vsize l) by apply N.le_0_l. lia.
    + rewrite P. unfold bind.
      replace (l0 ++ d :: l) with ((l0 ++ [d]) ++ l)
        by (rewrite <- app_assoc; reflexivity).
      apply IH; auto.
      * intros v Iv. apply Hid. now right.
      * rewrite !vsize_app. change (vsize [d]) with 1. lia.
Qed.

(** C6.  For a comparator that is irreflexive and transitive: the
    insertions of the values of a non-empty list [l], with handles below
    the capacity, into a new heap all succeed, and [top] then returns a
    value of [l] that no value of [l] precedes under the comparator. *)
Theorem top_after_insertions_is_extremal n (l : list T) :
  (forall v, In v l -> _id v < n) -> l <> [] -> vsize l < npos ->
  exists h t,
    run compare_ _id indeterminate (binomial_heap_new n) (map Push l) = Ok h /\
    top h = Ok t /\ In t l /\ forall v, In v l -> compare_ v t = false.
Proof.
  intros Hid NE V.
  destruct (run_pushes n l [] (binomial_heap_new n) (inserted_new n) Hid V)
    as (h & R & I).
  simpl in I. destruct I as (roots & kids & _ & _ & _ & _ & _ & _ & _ & _ & _
                             & LAST).
  destruct (last_cases l) as [|(l' & a & E)]; [contradiction|].
  destruct (LAST _ _ E) as (_ & _ & t & TT & IN & EX).
  exists h, t. auto.
Qed.

End Insertions.

Lemma key_less_irrefl a : key_less a a = false.
Proof. apply N.ltb_irrefl. Qed.

Lemma key_less_trans a b c :
  key_less a b = true -> key_less b c = true -> key_less a c = true.
Proof. unfold key_less. rewrite !N.ltb_lt. lia. Qed.

(** C6 on the keys [5, 3, 8, 1, 9, 2]. *)
Lemma top_after_insertions_is_extremal_witness :
  krun (binomial_heap_new 6) six_keys = Ok six_heap /\
  top six_heap = Ok (1, 3) /\
  exists h t,
    krun (binomial_heap_new 6) (map Push (keys_from 0 [5; 3; 8; 1; 9; 2]))
      = Ok h /\
    top h = Ok t /\ In t (keys_from 0 [5; 3; 8; 1; 9; 2]) /\
    forall v, In v (keys_from 0 [5; 3; 8; 1; 9; 2]) -> key_less v t = false.
Proof.
  split; [vm_compute; reflexivity|]. split; [vm_compute; reflexivity|].
  apply (top_after_insertions_is_extremal key_less handle_of 0
           key_less_irrefl key_less_trans 6 (keys_from 0 [5; 3; 8; 1; 9; 2])).
  - intros v Iv. simpl in Iv.
    repeat (destruct Iv as [<-|Iv]; [vm_compute; reflexivity|]).
    destruct Iv.
  - discriminate.
  - vm_compute. reflexivity.
Defined.
(** ** Update *)

Section Update.

Context {T : Type}.
Variable compare_ : T -> T -> bool.
Variable _id : T -> size_type.

(** The walk of [update] stops at a node without parent. *)
Lemma update_loop_root fuel (h : binomial_heap T) d index :
  update_loop compare_ _id (S fuel) h d index npos = Ok (h, index).
Proof. reflexivity. Qed.

(** The walk of [update] stops below a parent that [d] does not precede. *)
Lemma update_loop_stop fuel (h : binomial_heap T) d index p pv :
  value_at h p = Ok pv -> compare_ d pv = false ->
  update_loop compare_ _id (S fuel) h d index p = Ok (h, index).
Proof.
  intros V C. simpl. destruct (negb (p =? npos)); [|reflexivity].
  rewrite V. unfold bind. now rewrite C.
Qed.

(** One step of the walk: the value of the parent moves into the slot of
    [index], [d] moves into the slot of the parent, and the handle of the
    value that moved down is set to [index]. *)
Lemma update_loop_step fuel (h : binomial_heap T) d index p pv ni np :
  p <> npos -> value_at h p = Ok pv -> compare_ d pv = true ->
  dget (data_ h) index = Ok ni -> dget (data_ h) p = Ok np ->
  item_index ni < vsize (elements_ h) ->
  item_index np < vsize (elements_ h) ->
  item_index np <> item_index ni ->
  _id pv < capacity h ->
  update_loop compare_ _id (S fuel) h d index p
  = update_loop compare_ _id fuel
      (mk_heap
         (list_upd (list_upd (elements_ h) (N.to_nat (item_index ni)) pv)
            (N.to_nat (item_index np)) d)
         (data_ h) (head_ h) (top_ h)
         (list_upd (index_array h) (N.to_nat (_id pv)) index))
      d p (parent np).
Proof.
  intros E VAp Cp Ni Np Vi Vp Ne Hp.
  simpl update_loop. apply N.eqb_neq in E. rewrite E. cbn [negb].
  rewrite VAp. unfold bind at 2. unfold bind at 1. rewrite Cp.
  rewrite Ni. unfold bind at 1. unfold bind at 1.
  rewrite vset_lt by exact Vi. unfold bind at 1.
  rewrite Np. unfold bind at 1.
  rewrite vset_lt by (rewrite vsize_upd; exact Vp).
  unfold bind at 1. unfold bind at 1.
  rewrite vget_upd_ne by exact Ne.
  rewrite vget_upd_eq by exact Vi.
  unfold bind at 1. rewrite vset_lt by exact Hp. reflexivity.
Qed.

(** The walk of a value [dv] that precedes every other stored value: it
    ends at the root of the tree of [index], with [dv] in the root's slot. *)
Lemma update_loop_spec D B dv :
  vsize D <= npos -> parents_ok D ->
  (forall x, x < vsize D -> itm D x = x) ->
  (forall x, deg D x <= B) ->
  forall fuel (h : binomial_heap T) index,
    data_ h = D -> vsize (elements_ h) = vsize D ->
    index < vsize D ->
    vget OobElements (elements_ h) index = Ok dv ->
    (forall y, y < vsize D -> y <> index ->
       exists v, vget OobElements (elements_ h) y = Ok v /\
                 compare_ dv v = true /\ _id v < capacity h) ->
    B < N.of_nat fuel + deg D index ->
    exists h' r,
      update_loop compare_ _id fuel h dv index (par D index) = Ok (h', r) /\
      data_ h' = D /\ head_ h' = head_ h /\ top_ h' = top_ h /\
      capacity h' = capacity h /\ vsize (elements_ h') = vsize D /\
      r < vsize D /\ par D r = npos /\
      vget OobElements (elements_ h') r = Ok dv /\
      (forall y, y < vsize D -> y <> r ->
         exists v, vget OobElements (elements_ h') y = Ok v /\
                   compare_ dv v = true).
Proof.
  intros VD PO IT DB.
  induction fuel as [|fuel IH]; intros h index DH VE Vi Gi OT F.
  { specialize (DB index). simpl in F. lia. }
  destruct (N.eqb_spec (par D index) npos) as [E|E].
  - rewrite E. exists h, index. rewrite update_loop_root.
    repeat (split; [solve [auto]|]).
    intros y Vy Ny. destruct (OT y Vy Ny) as (v & A & B' & _). eauto.
  - destruct (PO index Vi E) as [Vp Dp].
    set (p := par D index) in *.
    assert (Np : p <> index) by (intros X; rewrite X in Dp; lia).
    destruct (OT p Vp Np) as (pv & Gp & Cp & Hp).
    assert (VAp : value_at h p = Ok pv).
    { rewrite value_at_itm by (rewrite DH; exact Vp). now rewrite DH, IT. }
    destruct (dget_lt D index Vi) as [ni Ni].
    destruct (dget_lt D p Vp) as [np Np'].
    pose proof (itm_ok _ _ _ Ni) as Ii. rewrite IT in Ii by exact Vi.
    pose proof (itm_ok _ _ _ Np') as Ip. rewrite IT in Ip by exact Vp.
    pose proof (par_ok _ _ _ Np') as Pp.
    set (e1 := list_upd (elements_ h) (N.to_nat index) pv).
    set (e2 := list_upd e1 (N.to_nat p) dv).
    set (ia := list_upd (index_array h) (N.to_nat (_id pv)) index).
    set (h2 := mk_heap e2 D (head_ h) (top_ h) ia).
    assert (G2i : vget OobElements e2 index = Ok pv).
    { unfold e2. rewrite vget_upd_ne by exact Np. unfold e1.
      apply vget_upd_eq. now rewrite VE. }
    destruct (IH h2 p) as (h' & r & L & A1 & A2 & A3 & A4 & A5 & A6 & A7 & A8
                           & A9).
    + reflexivity.
    + simpl. unfold e2, e1. now rewrite !vsize_upd.
    + exact Vp.
    + simpl. unfold e2. apply vget_upd_eq. unfold e1.
      now rewrite vsize_upd, VE.
    + intros y Vy Ny. simpl elements_.
      assert (C2 : capacity h2 = capacity h).
      { unfold capacity, h2, ia. simpl. apply vsize_upd. }
      rewrite C2. destruct (N.eq_dec y index) as [->|Nyi].
      * exists pv. auto.
      * destruct (OT y Vy Nyi) as (v & Gv & Cv & Hv). exists v.
        split; [|auto]. unfold e2, e1.
        rewrite !vget_upd_ne by congruence. exact Gv.
    + lia.
    + exists h', r. split.
      * simpl update_loop.
        apply N.eqb_neq in E. fold p. rewrite E. cbn [negb].
        rewrite VAp. unfold bind at 2. unfold bind at 1. rewrite Cp.
        rewrite DH, Ni. unfold bind at 1. unfold bind at 1.
        rewrite Ii. rewrite vset_lt by (rewrite VE; exact Vi).
        unfold bind at 1. rewrite Np'. unfold bind at 1. rewrite Ip.
        fold e1. rewrite vset_lt by (unfold e1; rewrite vsize_upd, VE; exact Vp).
        unfold bind at 1. unfold bind at 1. fold e2. rewrite Ii, G2i.
        unfold bind at 1. rewrite vset_lt by exact Hp. unfold bind at 1.
        fold ia. rewrite Pp. exact L.
      * simpl in A2, A3, A4.
        assert (C2 : capacity h2 = capacity h).
        { unfold capacity, h2, ia. simpl. apply vsize_upd. }
        rewrite C2 in A4. auto 12.
Qed.

Variable indeterminate : size_type.

Hypothesis compare_irrefl : forall a, compare_ a a = false.
Hypothesis compare_trans : forall a b c,
  compare_ a b = true -> compare_ b c = true -> compare_ a c = true.

(** [update] right after the insertion of [d], with a value [d'] of the
    same handle that precedes all stored values. *)
Lemma update_after_push n (l : list T) d d' (h : binomial_heap T) :
  inserted compare_ _id n (l ++ [d]) h ->
  (forall v, In v (l ++ [d]) -> _id v < n) ->
  vsize (l ++ [d]) < npos ->
  _id d' = _id d ->
  (forall v, In v (l ++ [d]) -> compare_ d' v = true) ->
  exists h',
    update compare_ _id h d' = Ok h' /\ top h' = Ok d' /\
    vget OobIndex (index_array h') (_id d') = Ok (top_ h') /\
    par (data_ h') (top_ h') = npos /\ data_ h' = data_ h.
Proof.
  intros (roots & kids & SH & CR & IN & PO & OR & EL & VS & IT & CAP & LAST)
    Hid V Eid Hd.
  destruct (LAST l d eq_refl) as (_ & IAd & t & TT & _).
  set (D := data_ h) in *. set (idx := vsize l) in *.
  assert (VD : vsize D = idx + 1) by (rewrite VS; apply vsize_snoc).
  assert (VN : vsize D <= npos) by lia.
  assert (Vi : idx < vsize D) by lia.
  destruct (dget_lt D idx Vi) as [ni Ni].
  pose proof (itm_ok _ _ _ Ni) as Ii. rewrite IT in Ii by exact Vi.
  set (e0 := list_upd (elements_ h) (N.to_nat idx) d').
  assert (VE : vsize (elements_ h) = vsize D) by (rewrite EL; now symmetry).
  assert (DB : forall x, deg D x <= vsize D).
  { intros x. pose proof (deg_le_sum D x) as A. unfold credit in CR.
    unfold deg at 1 in CR. rewrite field_oob in CR by exact VN.
    assert (0 <= vsize roots) by apply N.le_0_l. lia. }
  assert (Vt : top_ h < vsize D).
  { unfold top, value_at in TT. destruct (dget (data_ h) (top_ h)) eqn:G;
      [|discriminate]. now apply dget_ok_lt in G. }
  destruct (update_loop_spec D (vsize D) d' VN PO IT DB
              (fuel_of D) (with_elements h e0) idx)
    as (h1 & r & L & A1 & A2 & A3 & A4 & A5 & A6 & A7 & A8 & A9).
  - reflexivity.
  - simpl. unfold e0. now rewrite vsize_upd.
  - exact Vi.
  - simpl. unfold e0. apply vget_upd_eq. now rewrite VE.
  - intros y Vy Ny. simpl elements_.
    destruct (vget_lt OobElements (elements_ h) y) as [v Gv];
      [now rewrite VE|].
    exists v. unfold e0. rewrite vget_upd_ne by congruence.
    split; [exact Gv|].
    assert (Iv : In v (l ++ [d])).
    { apply vget_ok in Gv as [_ Gv]. rewrite EL in Gv.
      eapply nth_error_In; eauto. }
    split; [now apply Hd|].
    unfold capacity in *. simpl. rewrite CAP. now apply Hid.
  - unfold fuel_of, vsize. pose proof (N.le_0_l (deg D idx)). lia.
  - assert (Hr : _id d' < vsize (index_array h1)).
    { unfold capacity in *. simpl in A4. rewrite A4, CAP, Eid.
      apply Hid. apply in_or_app. right. now left. }
    set (ia := list_upd (index_array h1) (N.to_nat (_id d')) r).
    assert (VA : forall top1 x, x < vsize D ->
              value_at (with_top (with_index h1 ia) top1) x
              = vget OobElements (elements_ h1) x /\
              value_at (with_index h1 ia) x
              = vget OobElements (elements_ h1) x).
    { intros top1 x Vx.
      split; rewrite value_at_itm by (simpl; rewrite A1; exact Vx);
        simpl; now rewrite A1, IT. }
    assert (U : update compare_ _id h d'
                = tv <- vget OobElements (elements_ h1) (top_ h) ;;
                  if compare_ d' tv then Ok (with_top (with_index h1 ia) r)
                  else Ok (with_index h1 ia)).
    { unfold update. rewrite Eid at 1. rewrite IAd. unfold bind at 1. fold D.
      rewrite Ni. unfold bind at 1. rewrite Ii.
      rewrite vset_lt by (rewrite VE; exact Vi). unfold bind at 1.
      fold e0. rewrite (par_ok _ _ _ Ni). rewrite L.
      unfold bind at 1. cbv beta iota.
      rewrite vset_lt by exact Hr. unfold bind at 1. fold ia.
      cbn [top_ with_index]. rewrite A3. simpl top_.
      destruct (VA r (top_ h) Vt) as [_ ->]. reflexivity. }
    rewrite U.
    assert (IAr : vget OobIndex ia (_id d') = Ok r)
      by (apply vget_upd_eq; exact Hr).
    destruct (N.eq_dec (top_ h) r) as [Etr|Ntr].
    + rewrite Etr, A8. unfold bind. rewrite compare_irrefl.
      eexists. split; [reflexivity|]. unfold top.
      cbn [top_ with_index data_ index_array]. rewrite A3. simpl top_.
      rewrite Etr. destruct (VA r r A6) as [_ ->].
      rewrite A1. auto.
    + destruct (A9 (top_ h) Vt Ntr) as (v & Gv & Cv).
      rewrite Gv. unfold bind. rewrite Cv.
      eexists. split; [reflexivity|]. unfold top.
      cbn [top_ with_top with_index data_ index_array].
      destruct (VA r r A6) as [-> _]. rewrite A1. auto.
Qed.

End Update.

(** C7.  For an irreflexive and transitive comparator: after the insertions
    of [l] and then [d] into a new heap, [update] with a value [d'] of the
    handle of [d] that precedes every stored value succeeds, [top] returns
    [d'], [top_] is the root that the handle of [d'] now names.  The walk of
    [update] stops at a node without parent and below a parent that the
    value does not precede, and otherwise swaps the two slots and records
    the handle of the value that moved down.  After the insertions of the
    keys [10, 4, 6], the update of the value of key [10] to key [1] makes
    [top] return key [1]. *)
Theorem update_moves_top {T : Type} (compare_ : T -> T -> bool)
  (_id : T -> size_type) (indeterminate : size_type) n (l : list T) d d' :
  (forall a, compare_ a a = false) ->
  (forall a b c,
     compare_ a b = true -> compare_ b c = true -> compare_ a c = true) ->
  (forall v, In v (l ++ [d]) -> _id v < n) ->
  vsize (l ++ [d]) < npos ->
  _id d' = _id d ->
  (forall v, In v (l ++ [d]) -> compare_ d' v = true) ->
  (exists h h',
     run compare_ _id indeterminate (binomial_heap_new n)
       (map Push (l ++ [d])) = Ok h /\
     update compare_ _id h d' = Ok h' /\ top h' = Ok d' /\
     vget OobIndex (index_array h') (_id d') = Ok (top_ h') /\
     par (data_ h') (top_ h') = npos /\ data_ h' = data_ h) /\
  (forall fuel (h : binomial_heap T) v index,
     update_loop compare_ _id (S fuel) h v index npos = Ok (h, index)) /\
  (forall fuel (h : binomial_heap T) v index p pv,
     value_at h p = Ok pv -> compare_ v pv = false ->
     update_loop compare_ _id (S fuel) h v index p = Ok (h, index)) /\
  (forall fuel (h : binomial_heap T) v index p pv ni np,
     p <> npos -> value_at h p = Ok pv -> compare_ v pv = true ->
     dget (data_ h) index = Ok ni -> dget (data_ h) p = Ok np ->
     item_index ni < vsize (elements_ h) ->
     item_index np < vsize (elements_ h) ->
     item_index np <> item_index ni ->
     _id pv < capacity h ->
     update_loop compare_ _id (S fuel) h v index p
     = update_loop compare_ _id fuel
         (mk_heap
            (list_upd (list_upd (elements_ h) (N.to_nat (item_index ni)) pv)
               (N.to_nat (item_index np)) v)
            (data_ h) (head_ h) (top_ h)
            (list_upd (index_array h) (N.to_nat (_id pv)) index))
         v p (parent np)) /\
  (exists h, krun (binomial_heap_new 3) decrease_ops = Ok h /\
             top h = Ok (1, 0)).
Proof.
  intros IR TR Hid V Eid Hd. split; [|split; [|split; [|split]]].
  - destruct (run_pushes compare_ _id indeterminate IR TR n (l ++ [d]) []
                (binomial_heap_new n) (inserted_new compare_ _id n) Hid V)
      as (h & R & I).
    simpl in I.
    destruct (update_after_push compare_ _id IR n l d d' h I Hid V Eid Hd)
      as (h' & U). exists h, h'. auto.
  - intros. apply update_loop_root.
  - intros. eapply update_loop_stop; eauto.
  - intros. now apply update_loop_step.
  - eexists. run_code.
Qed.

(** C7 on the keys [10, 4, 6]: the value of key [6] and handle [2] is
    updated to key [1]. *)
Lemma update_moves_top_witness :
  exists h h',
    krun (binomial_heap_new 3) (map Push (keys_from 0 [10; 4] ++ [(6, 2)]))
      = Ok h /\
    kupdate h (1, 2) = Ok h' /\ top h' = Ok (1, 2) /\
    vget OobIndex (index_array h') 2 = Ok (top_ h') /\
    par (data_ h') (top_ h') = npos /\ data_ h' = data_ h.
Proof.
  apply (update_moves_top key_less handle_of 0 3 (keys_from 0 [10; 4])
           (6, 2) (1, 2) key_less_irrefl key_less_trans).
  - intros v Iv. simpl in Iv.
    repeat (destruct Iv as [<-|Iv]; [vm_compute; reflexivity|]).
    destruct Iv.
  - vm_compute. reflexivity.
  - reflexivity.
  - intros v Iv. simpl in Iv.
    repeat (destruct Iv as [<-|Iv]; [vm_compute; reflexivity|]).
    destruct Iv.
Defined.

(** ** The claims settled by running the code *)


(** C1 (fails on the code).  [pop] writes the last value to
    [elements_[temp]], where [temp] is the index of the removed node in
    [data_], not the value slot of that node.  In the heap built by
    [shifted_ops] the top node has index [1] and slot [0]: extraction leaves
    the removed value [2] in slot [0] and overwrites slot [1], the slot of the
    live value [3] of node [2], with the last value [4]. *)
Theorem pop_compaction_overwrites_live_slot :
  exists h h',
    krun (binomial_heap_new 4) shifted_ops = Ok h /\
    top_ h = 1 /\ itm (data_ h) 1 = 0 /\
    elements_ h = [(2, 1); (3, 2); (4, 3)] /\
    value_at h 2 = Ok (3, 2) /\
    kpop h = Ok h' /\
    elements_ h' = [(2, 1); (4, 3)] /\
    value_at h' 2 = Ok (4, 3) /\
    value_at h' 3 = Ok (4, 3).
Proof.
  eexists. eexists.
  run_code.
Qed.

(** C2 (fails on the code).  After inserting the keys [5, 3, 8, 1, 9, 2] the
    extremal query gives [1] and the first extraction succeeds; the second
    extraction removes the node of index [5], whose slot was remapped to [3]
    by the first one, and writes [elements_[5]] in a store of five values. *)
Theorem six_keys_second_extraction_out_of_bounds :
  exists h h1,
    krun (binomial_heap_new 6) six_keys = Ok h /\
    top h = Ok (1, 3) /\
    kpop h = Ok h1 /\
    top h1 = Ok (2, 5) /\ top_ h1 = 5 /\ size h1 = 5 /\
    kpop h1 = Err OobElements /\
    extract key_less handle_of 0 6 h = Err OobElements.
Proof.
  eexists. eexists.
  run_code.
Qed.

(** C3 (fails on the code).  When the removed top has no child and is not
    the only root, [pop] calls [binomial_heap_union(new_head)] with
    [new_head == -1], and [merge] reads [data_[-1].degree]. *)
Theorem union_called_with_none_reads_out_of_bounds :
  exists h d1 h3,
    krun (binomial_heap_new 3) childless_top_ops = Ok h /\
    pop_detach h = Ok (d1, npos) /\
    pop_unlink (with_data h d1) = Ok h3 /\
    merge 0 h3 npos = Err OobData /\
    binomial_heap_union key_less 0 h3 npos = Err OobData /\
    kpop h = Err OobData.
Proof.
  eexists. eexists. eexists.
  run_code.
Qed.

(** C8 (fails on the code).  Ten insertions and four extractions, each
    extraction on a heap whose [size()] is not [0], leave [size() == 7]: the
    third extraction removes a node that is not a root and drops the whole
    root list, and the fourth returns at once because [head_ == -1].  (That
    [empty()] holds exactly when [size()] is [0] is true.) *)
Theorem interleaved_size_is_not_difference :
  exists h3 h4,
    krun (binomial_heap_new 10) (removelast interleaved_ops) = Ok h3 /\
    empty h3 = false /\ size h3 = 7 /\ head_ h3 = npos /\
    kpop h3 = Ok h4 /\
    krun (binomial_heap_new 10) interleaved_ops = Ok h4 /\
    pops_on_nonempty key_less handle_of 0 (binomial_heap_new 10)
      interleaved_ops = true /\
    count_push interleaved_ops = 10 /\ count_pop interleaved_ops = 4 /\
    size h4 = 7 /\ empty h4 = false /\
    forall h : binomial_heap keyed, empty h = true <-> size h = 0.
Proof.
  eexists. eexists.
  repeat (split; [vm_compute; reflexivity|]).
  intros h. unfold empty, size. apply N.eqb_eq.
Qed.

(** C9 (fails on the code).  After an insertion, an extraction and an
    insertion the heap holds one element, in the node of index [1];
    extracting it writes [elements_[1]] in a store of one value. *)
Theorem sole_element_extraction_out_of_bounds :
  exists h,
    krun (binomial_heap_new 2) refilled_ops = Ok h /\
    size h = 1 /\ top h = Ok (2, 1) /\ top_ h = 1 /\
    kpop h = Err OobElements.
Proof.
  eexists.
  run_code.
Qed.
(** * Further properties of the operations *)

(** ** What a run does to the two stores *)

Section Accounting.

Context {T : Type}.
Variable compare_ : T -> T -> bool.
Variable _id : T -> size_type.
Variable indeterminate : size_type.

Lemma pop_back_size {A : Type} (v v' : list A) :
  pop_back v = Ok v' -> vsize v' + 1 = vsize v.
Proof.
  unfold pop_back. destruct v as [|a v]; [discriminate|]. intros H. inv H.
  apply (vsize_removelast (a :: v)). discriminate.
Qed.

Lemma push_size (h : binomial_heap T) d h' :
  push compare_ _id indeterminate h d = Ok h' -> size h' = size h + 1.
Proof.
  unfold push, push_node, size. intros H. bind_as H r E0. bind_as E0 ia E1.
  inv E0. cbn [head_] in H. destruct (head_ h =? npos).
  - inv H. simpl. apply vsize_snoc.
  - bind_as H h2 E2. bind_as H a E3. bind_as H b E4.
    apply union_frame in E2 as (E2 & _); [|exact _id]. simpl in E2.
    destruct (compare_ a b); inv H; simpl; rewrite E2; apply vsize_snoc.
Qed.

Lemma update_size (h : binomial_heap T) d h' :
  update compare_ _id h d = Ok h' -> size h' = size h.
Proof.
  unfold update, size. intros H. bind_as H index E0. bind_as H ni E1.
  bind_as H e0 E2. bind_as H r E3. destruct r as [h1 index'].
  bind_as H ia E4. bind_as H tv E5.
  apply update_loop_capacity in E3 as (_ & _ & _ & _ & A). simpl in A.
  apply vset_ok in E2 as [_ ->]. rewrite vsize_upd in A.
  destruct (compare_ d tv); inv H; simpl; auto.
Qed.

Lemma pop_elements_frame (h : binomial_heap T) d1 nh nhd h2 :
  (if right_sibling nhd =? npos then Ok (with_head (with_data h d1) nh)
   else h3 <- pop_unlink (with_data h d1) ;;
        binomial_heap_union compare_ indeterminate h3 nh) = Ok h2 ->
  elements_ h2 = elements_ h /\ index_array h2 = index_array h.
Proof.
  intros E2. destruct (right_sibling nhd =? npos).
  - now inv E2.
  - bind_as E2 h3 E4.
    apply union_frame in E2 as (-> & _ & -> & _); [|exact _id].
    unfold pop_unlink in E4. bind_as E4 n0 E5.
    cbn [data_ head_ top_ with_data] in *.
    destruct (head_ h =? top_ h).
    + now inv E4.
    + bind_as E4 tmp E6. bind_as E4 nt E7. bind_as E4 d2 E8. now inv E4.
Qed.

Lemma pop_size (h : binomial_heap T) h' :
  pop compare_ _id indeterminate h = Ok h' -> head_ h <> npos ->
  size h' + 1 = size h.
Proof.
  unfold pop, size. intros H HN. apply N.eqb_neq in HN. rewrite HN in H.
  bind_as H r E0. destruct r as [d1 nh]. bind_as H nhd E1. bind_as H h2 E2.
  bind_as H tn E3. apply pop_elements_frame in E2 as [EE _].
  unfold pop_compact in H.
  bind_as H lst E4. bind_as H index E5. bind_as H e1 E6.
  bind_as H d3 E7. bind_as H d4 E8. bind_as H d5 E9. bind_as H d6 E10.
  bind_as H d7 E11. bind_as H e2 E12. inv H. cbn [elements_ with_top] in *.
  apply vset_ok in E6 as [_ ->]. rewrite EE in *.
  apply pop_back_size in E12. now rewrite vsize_upd in E12.
Qed.

Lemma pop_guard (h : binomial_heap T) :
  head_ h = npos -> pop compare_ _id indeterminate h = Ok h.
Proof. intros E. unfold pop. now rewrite E. Qed.

(** X1.  Along every run of [push], [update] and [pop] that goes through,
    [data_] gains one node for each [push] and never loses one: [pop] does
    not free the node it removes. *)
Theorem arena_only_grows ops : forall (h h' : binomial_heap T),
  run compare_ _id indeterminate h ops = Ok h' ->
  vsize (data_ h') = vsize (data_ h) + count_push ops.
Proof.
  induction ops as [|o ops IH]; intros h h' R; simpl in R.
  - inv R. unfold count_push. simpl. change (vsize []) with 0. lia.
  - bind_as R h1 E. apply IH in R. rewrite R.
    unfold count_push in *. destruct o; simpl in E |- *.
    + apply push_data_size in E. rewrite E.
      change (vsize (Push d :: ?l)) with (N.of_nat (S (length l))).
      unfold vsize. lia.
    + apply update_frame in E as [-> _]. reflexivity.
    + apply pop_data_size in E. now rewrite E.
Qed.

(** X2.  Along every run that goes through, [size()] gains one for each
    [push] and loses one for each [pop] that finds [head_ != -1]; a [pop]
    that finds [head_ == -1] and every [update] leave it as it is. *)
Theorem size_accounting ops : forall (h h' : binomial_heap T),
  run compare_ _id indeterminate h ops = Ok h' ->
  size h' + removals compare_ _id indeterminate h ops
  = size h + count_push ops.
Proof.
  induction ops as [|o ops IH]; intros h h' R; simpl in R.
  - inv R. unfold count_push. simpl. change (vsize []) with 0. lia.
  - bind_as R h1 E. apply IH in R. cbn [removals]. rewrite E.
    unfold count_push in *. destruct o; simpl in E |- *.
    + apply push_size in E.
      change (vsize (Push d :: ?l)) with (N.of_nat (S (length l))).
      unfold vsize in *. lia.
    + apply update_size in E. lia.
    + destruct (N.eqb_spec (head_ h) npos) as [HN|HN].
      * rewrite pop_guard in E by exact HN. inv E. lia.
      * apply pop_size in E; auto. lia.
Qed.

End Accounting.

(** X1 on ten insertions and four extractions. *)
Lemma arena_only_grows_witness :
  exists h,
    krun (binomial_heap_new 10) interleaved_ops = Ok h /\
    vsize (data_ h) = vsize (data_ (@binomial_heap_new keyed 10)) + 10.
Proof.
  eexists. split; [vm_compute; reflexivity|].
  apply (arena_only_grows key_less handle_of 0 interleaved_ops
           (binomial_heap_new 10)).
  vm_compute. reflexivity.
Defined.

(** X2 on the same run: three of the four extractions find a root list. *)
Lemma size_accounting_witness :
  exists h,
    krun (binomial_heap_new 10) interleaved_ops = Ok h /\
    removals key_less handle_of 0 (binomial_heap_new 10) interleaved_ops = 3 /\
    size h + 3 = size (@binomial_heap_new keyed 10) + 10.
Proof.
  eexists. split; [vm_compute; reflexivity|].
  split; [vm_compute; reflexivity|].
  apply (size_accounting key_less handle_of 0 interleaved_ops
           (binomial_heap_new 10)).
  vm_compute. reflexivity.
Defined.

(** ** What the operations leave alone *)

Lemma merge_loop_fields fuel : forall d c p q d',
  merge_loop fuel d c p q = Ok d' ->
  forall w, par d' w = par d w /\ chd d' w = chd d w /\
            deg d' w = deg d w /\ itm d' w = itm d w.
Proof.
  induction fuel as [|fuel IH]; intros d c p q d' H; simpl in H.
  - discriminate.
  - destruct (negb (p =? npos) || negb (q =? npos)); [|now inv H].
    bind_as H tk E0. destruct tk; bind_as H d1 E1; bind_as H n1 E2;
      intros w; destruct (IH _ _ _ _ _ H w) as (-> & -> & -> & ->);
      apply dmod_sibling in E1 as [_ F]; destruct (F w) as (_ & F');
      exact F'.
Qed.

Lemma binomial_link_items d y z d' :
  binomial_link d y z = Ok d' -> forall w, itm d' w = itm d w.
Proof.
  unfold binomial_link. intros H w.
  bind_as H d1 E1. bind_as H nz E2. bind_as H d2 E3. bind_as H d3 E4.
  bind_as H nz' E5.
  apply dmod_degree in H as [_ F5]. apply dmod_child in E4 as [_ F4].
  apply dmod_sibling in E3 as [_ F3]. apply dmod_parent in E1 as [_ F1].
  destruct (F5 w) as (_ & _ & _ & _ & ->).
  destruct (F4 w) as (_ & _ & _ & _ & ->).
  destruct (F3 w) as (_ & _ & _ & _ & ->).
  destruct (F1 w) as (_ & _ & _ & _ & ->). reflexivity.
Qed.

Section Frames.

Context {T : Type}.
Variable compare_ : T -> T -> bool.
Variable _id : T -> size_type.
Variable indeterminate : size_type.

Lemma merge_fields (h : binomial_heap T) index h' :
  merge indeterminate h index = Ok h' ->
  forall w, par (data_ h') w = par (data_ h) w /\
            chd (data_ h') w = chd (data_ h) w /\
            deg (data_ h') w = deg (data_ h) w /\
            itm (data_ h') w = itm (data_ h) w.
Proof.
  intros H. apply merge_frame in H as V. destruct V as (_ & _ & _ & V).
  unfold merge in H. bind_as H np E0. bind_as H nq E1. bind_as H d1 E2.
  bind_as H lst E3. inv H. cbn [data_] in *.
  apply merge_loop_vsize in E2 as V1. rewrite vsize_snoc in V1.
  intros w. destruct (N.lt_ge_cases w (vsize (data_ h))) as [Lw|Lw].
  - unfold par, chd, deg, itm.
    rewrite !field_removelast by lia.
    destruct (merge_loop_fields _ _ _ _ _ _ E2 w) as (A & B & C & D).
    unfold par, chd, deg, itm in A, B, C, D. rewrite A, B, C, D.
    rewrite !field_app_l by exact Lw. auto.
  - unfold par, chd, deg, itm. rewrite !field_oob by lia. auto.
Qed.

Lemma union_loop_items fuel : forall (h : binomial_heap T) prev x next h',
  union_loop compare_ fuel h prev x next = Ok h' ->
  forall w, itm (data_ h') w = itm (data_ h) w.
Proof.
  induction fuel as [|fuel IH]; intros h prev x next h' H; simpl in H.
  - discriminate.
  - destruct (next =? npos); [now inv H|].
    bind_as H nx E0. bind_as H nn E1. bind_as H sk E2. destruct sk.
    + bind_as H nn' E3. eauto.
    + bind_as H a E3. bind_as H b E4. destruct (compare_ a b).
      * bind_as H d1 E5. bind_as H d2 E6. bind_as H nx' E7.
        intros w. rewrite (IH _ _ _ _ _ H w). cbn [data_ with_data].
        rewrite (binomial_link_items _ _ _ _ E6 w).
        apply dmod_sibling in E5 as [_ F]. destruct (F w) as (_ & _ & _ & _ & F').
        exact F'.
      * bind_as H h1 E5. bind_as H d2 E6. bind_as H nx' E7.
        intros w. rewrite (IH _ _ _ _ _ H w). cbn [data_ with_data].
        rewrite (binomial_link_items _ _ _ _ E6 w).
        destruct (prev =? npos).
        -- now inv E5.
        -- bind_as E5 d1 E8. inv E5. cbn [data_ with_data].
           apply dmod_sibling in E8 as [_ F].
           destruct (F w) as (_ & _ & _ & _ & F'). exact F'.
Qed.

Lemma value_at_same (h h' : binomial_heap T) x :
  vsize (data_ h') = vsize (data_ h) ->
  itm (data_ h') x = itm (data_ h) x ->
  elements_ h' = elements_ h ->
  value_at h' x = value_at h x.
Proof.
  intros V I E. unfold value_at.
  destruct (dget (data_ h) x) as [n|e] eqn:G.
  - apply dget_ok_lt in G as L. rewrite <- V in L.
    destruct (dget_lt _ _ L) as [n' G']. rewrite G'. unfold bind.
    rewrite (itm_ok _ _ _ G), (itm_ok _ _ _ G'), I, E. reflexivity.
  - apply dget_err in G as [-> L]. rewrite <- V in L.
    destruct (dget (data_ h') x) as [n'|e'] eqn:G'.
    + apply dget_ok_lt in G'. lia.
    + apply dget_err in G' as [-> _]. reflexivity.
Qed.

Lemma union_items (h : binomial_heap T) index h' :
  binomial_heap_union compare_ indeterminate h index = Ok h' ->
  forall w, itm (data_ h') w = itm (data_ h) w.
Proof.
  unfold binomial_heap_union. intros H. bind_as H h1 E0. bind_as H nh E1.
  intros w. destruct (merge_fields _ _ _ E0 w) as (_ & _ & _ & <-).
  destruct (right_sibling nh =? npos); [now inv H|].
  eapply union_loop_items; eauto.
Qed.

(** X3.  [binomial_heap_union] only relinks: when it returns, the value
    store, [top_], the handle index and the number of nodes are as before,
    every node still owns the same value slot, and so still has the same
    value. *)
Theorem union_only_relinks (h : binomial_heap T) index h' :
  binomial_heap_union compare_ indeterminate h index = Ok h' ->
  elements_ h' = elements_ h /\ top_ h' = top_ h /\
  index_array h' = index_array h /\
  vsize (data_ h') = vsize (data_ h) /\
  (forall w, itm (data_ h') w = itm (data_ h) w) /\
  (forall w, value_at h' w = value_at h w).
Proof.
  intros H. apply union_frame in H as F; [|exact _id].
  destruct F as (A & B & C & D).
  pose proof (union_items _ _ _ H) as I.
  repeat (split; [assumption|]). intros w. now apply value_at_same.
Qed.

Lemma update_loop_value fuel : forall (h : binomial_heap T) d index p h' r,
  update_loop compare_ _id fuel h d index p = Ok (h', r) ->
  value_at h index = Ok d -> value_at h' r = Ok d.
Proof.
  induction fuel as [|fuel IH]; intros h d index p h' r H V; simpl in H.
  - discriminate.
  - bind_as H c E0. destruct c; [|now inv H].
    bind_as H ni E1. bind_as H pv E2. bind_as H e1 E3. bind_as H np E4.
    bind_as H e2 E5. bind_as H ni' E6. bind_as H mv E7. bind_as H ia E8.
    apply IH in H; auto. unfold value_at. cbn [data_ elements_].
    rewrite E4. unfold bind. apply vset_ok in E5 as [L ->].
    now apply vget_upd_eq.
Qed.

(** X4.  [update] leaves the link structure alone: [data_], [head_], the
    handle capacity and [size()] are as before; and afterwards the handle
    of the value names a node that holds the value. *)
Theorem update_keeps_links (h : binomial_heap T) d h' :
  update compare_ _id h d = Ok h' ->
  data_ h' = data_ h /\ head_ h' = head_ h /\
  capacity h' = capacity h /\ size h' = size h /\
  exists i, vget OobIndex (index_array h') (_id d) = Ok i /\
            value_at h' i = Ok d.
Proof.
  intros H. apply update_frame in H as F. destruct F as [A B].
  apply update_capacity in H as C. apply update_size in H as S.
  repeat (split; [assumption|]).
  unfold update in H. bind_as H index E0. bind_as H ni E1.
  bind_as H e0 E2. bind_as H r E3. destruct r as [h1 index'].
  bind_as H ia E4. bind_as H tv E5.
  apply update_loop_value in E3.
  - exists index'. apply vset_ok in E4 as [L ->].
    assert (G : vget OobIndex
                  (list_upd (index_array h1) (N.to_nat (_id d)) index')
                  (_id d) = Ok index') by now apply vget_upd_eq.
    destruct (compare_ d tv); inv H; simpl; (split; [exact G|exact E3]).
  - unfold value_at. cbn [data_ elements_ with_elements]. rewrite E1.
    unfold bind. apply vset_ok in E2 as [L ->]. now apply vget_upd_eq.
Qed.

(** X5.  After [push(d)] has returned, on a heap with fewer than [2^64 - 1]
    nodes and values, [size()] is one more, and the handle of [d] names
    the new node, the last of [data_], which holds [d]. *)
Theorem push_handle_names_value (h : binomial_heap T) d h' :
  push compare_ _id indeterminate h d = Ok h' ->
  vsize (data_ h) < npos -> vsize (elements_ h) < npos ->
  size h' = size h + 1 /\
  vget OobIndex (index_array h') (_id d) = Ok (vsize (data_ h)) /\
  vsize (data_ h') = vsize (data_ h) + 1 /\
  value_at h' (vsize (data_ h)) = Ok d.
Proof.
  intros H VD VE. apply push_size in H as S. apply push_data_size in H as DS.
  split; [exact S|]. unfold push in H. bind_as H r E0.
  destruct r as [h1 idx].
  destruct (push_node_ok _id _ _ _ _ E0 VD) as (-> & D1 & E1 & H1 & T1 & IA & _).
  assert (LI : last_index (elements_ h ++ [d]) = vsize (elements_ h)).
  { assert (A : last_index (elements_ h ++ [d]) + 1
                = vsize (elements_ h ++ [d])).
    { apply last_index_pos; rewrite vsize_snoc; lia. }
    rewrite vsize_snoc in A. now apply N.add_cancel_r in A. }
  assert (V1 : value_at h1 (vsize (data_ h)) = Ok d).
  { unfold value_at. rewrite D1, dget_app_last. unfold bind. simpl item_index.
    rewrite LI, E1. apply vget_app_last. }
  destruct (head_ h1 =? npos).
  - inv H. cbn [index_array with_top with_head]. split; [exact IA|].
    split; [exact DS|]. exact V1.
  - bind_as H h2 E2. bind_as H a E3. bind_as H b E4.
    pose proof (union_items _ _ _ E2) as I.
    apply union_frame in E2 as (A & B & C & D); [|exact _id].
    assert (G : vget OobIndex (index_array h2) (_id d) = Ok (vsize (data_ h)))
      by (rewrite C; exact IA).
    assert (V2 : value_at h2 (vsize (data_ h)) = Ok d)
      by (rewrite (value_at_same h1 h2); auto).
    destruct (compare_ a b); inv H; (split; [exact G|]);
      (split; [exact DS|]); exact V2.
Qed.

End Frames.

(** X3 on the two roots of [two_roots]: the node of key [3] is linked
    below nothing, the node of key [5] below it. *)
Lemma union_only_relinks_witness :
  exists h',
    binomial_heap_union key_less 0 two_roots 1 = Ok h' /\
    elements_ h' = elements_ two_roots /\ top_ h' = top_ two_roots /\
    index_array h' = index_array two_roots /\
    vsize (data_ h') = vsize (data_ two_roots) /\
    (forall w, itm (data_ h') w = itm (data_ two_roots) w) /\
    (forall w, value_at h' w = value_at two_roots w).
Proof.
  eexists. split; [vm_compute; reflexivity|].
  apply (union_only_relinks key_less handle_of 0 two_roots 1).
  vm_compute. reflexivity.
Defined.

(** X4 on the heap of six keys: the value of handle [4] gets the key [0]. *)
Lemma update_keeps_links_witness :
  exists h',
    kupdate six_heap (0, 4) = Ok h' /\
    data_ h' = data_ six_heap /\ head_ h' = head_ six_heap /\
    capacity h' = capacity six_heap /\ size h' = size six_heap /\
    exists i, vget OobIndex (index_array h') 4 = Ok i /\
              value_at h' i = Ok (0, 4).
Proof.
  eexists. split; [vm_compute; reflexivity|].
  apply (update_keeps_links key_less handle_of six_heap (0, 4)).
  vm_compute. reflexivity.
Defined.

(** X5 on the heap of six keys: a seventh value, of handle [0]. *)
Lemma push_handle_names_value_witness :
  exists h',
    kpush six_heap (7, 0) = Ok h' /\
    size h' = size six_heap + 1 /\
    vget OobIndex (index_array h') 0 = Ok (vsize (data_ six_heap)) /\
    vsize (data_ h') = vsize (data_ six_heap) + 1 /\
    value_at h' (vsize (data_ six_heap)) = Ok (7, 0).
Proof.
  eexists. split; [vm_compute; reflexivity|].
  apply (push_handle_names_value key_less handle_of 0 six_heap (7, 0)).
  - vm_compute. reflexivity.
  - vm_compute. reflexivity.
  - vm_compute. reflexivity.
Defined.

(** ** The range constructor *)

Section RangeConstructor.

Context {T : Type}.
Variable compare_ : T -> T -> bool.
Variable _id : T -> size_type.
Variable indeterminate : size_type.

Hypothesis compare_irrefl : forall a, compare_ a a = false.
Hypothesis compare_trans : forall a b c,
  compare_ a b = true -> compare_ b c = true -> compare_ a c = true.

Lemma push_range_run l : forall h : binomial_heap T,
  push_range compare_ _id indeterminate h l
  = run compare_ _id indeterminate h (map Push l).
Proof.
  induction l as [|d l IH]; intros h; simpl; auto.
  destruct (push compare_ _id indeterminate h d); simpl; auto.
Qed.

Lemma inserted_capacity n l (h : binomial_heap T) :
  inserted compare_ _id n l h -> capacity h = n.
Proof. intros (roots & kids & I). tauto. Qed.

Lemma inserted_stores n l (h : binomial_heap T) :
  inserted compare_ _id n l h ->
  elements_ h = l /\ vsize (data_ h) = vsize l /\
  (forall x, x < vsize (data_ h) -> itm (data_ h) x = x).
Proof. intros (roots & kids & I). tauto. Qed.


(** X6.  For an irreflexive and transitive comparator: the range
    constructor, given values whose handles are all below their number,
    returns a heap that stores exactly these values, in their order, with as
    many nodes, the handle capacity equal to their number, and [top] an
    extremal one of them; given no value it returns the empty heap. *)
Theorem range_constructor_builds (l : list T) :
  (forall v, In v l -> _id v < vsize l) -> vsize l < npos ->
  exists h,
    binomial_heap_range compare_ _id indeterminate l = Ok h /\
    elements_ h = l /\ size h = vsize l /\ vsize (data_ h) = vsize l /\
    capacity h = vsize l /\
    (l = [] -> h = binomial_heap_new 0) /\
    (l <> [] ->
     exists t, top h = Ok t /\ In t l /\
               forall v, In v l -> compare_ v t = false).
Proof.
  intros Hid V. unfold binomial_heap_range. rewrite push_range_run.
  destruct (run_pushes compare_ _id indeterminate compare_irrefl
              compare_trans (vsize l) l [] (binomial_heap_new (vsize l))
              (inserted_new compare_ _id (vsize l)) Hid V) as (h & R & I).
  simpl in I. exists h. split; [exact R|].
  destruct (inserted_stores _ _ _ I) as (A & B & _).
  split; [exact A|]. split; [unfold size; now rewrite A|].
  split; [exact B|]. split; [exact (inserted_capacity _ _ _ I)|].
  split.
  - intros ->. simpl in R. now inv R.
  - intros NE. destruct I as (roots & kids & _ & _ & _ & _ & _ & _ & _ & _ & _
                              & LAST).
    destruct (last_cases l) as [|(l' & a & E)]; [contradiction|].
    destruct (LAST _ _ E) as (_ & _ & t & TT & IN & EX). eauto.
Qed.


End RangeConstructor.

(** X6 on the keys [5, 3, 8, 1, 9, 2] with the handles [0] to [5]. *)
Lemma range_constructor_builds_witness :
  exists h,
    binomial_heap_range key_less handle_of 0 (keys_from 0 [5; 3; 8; 1; 9; 2])
      = Ok h /\
    elements_ h = keys_from 0 [5; 3; 8; 1; 9; 2] /\
    size h = 6 /\ vsize (data_ h) = 6 /\ capacity h = 6 /\
    (keys_from 0 [5; 3; 8; 1; 9; 2] = [] -> h = binomial_heap_new 0) /\
    (keys_from 0 [5; 3; 8; 1; 9; 2] <> [] ->
     exists t, top h = Ok t /\ In t (keys_from 0 [5; 3; 8; 1; 9; 2]) /\
               forall v, In v (keys_from 0 [5; 3; 8; 1; 9; 2]) ->
                         key_less v t = false).
Proof.
  apply (range_constructor_builds key_less handle_of 0 key_less_irrefl
           key_less_trans (keys_from 0 [5; 3; 8; 1; 9; 2])).
  - intros v Iv. simpl in Iv.
    repeat (destruct Iv as [<-|Iv]; [vm_compute; reflexivity|]).
    destruct Iv.
  - vm_compute. reflexivity.
Defined.


(** ** Insertion into a reachable heap *)

Section PushTotal.

Context {T : Type}.
Variable compare_ : T -> T -> bool.
Variable _id : T -> size_type.
Variable indeterminate : size_type.

Lemma get_new_top_loop_valid fuel : forall (h : binomial_heap T) ti tmp r,
  get_new_top_loop compare_ fuel h ti tmp = Ok r ->
  ti < vsize (data_ h) -> r < vsize (data_ h).
Proof.
  induction fuel as [|fuel IH]; intros h ti tmp r H V; simpl in H.
  - discriminate.
  - destruct (tmp =? npos); [now inv H|].
    bind_as H a E0. bind_as H b E1. bind_as H nt E2.
    apply IH in H; auto. destruct (compare_ a b); auto.
    now apply dget_ok_lt in E2.
Qed.

Lemma get_new_top_valid (h : binomial_heap T) t :
  get_new_top compare_ h = Ok t ->
  (head_ h = npos /\ t = npos) \/
  (head_ h <> npos /\ t < vsize (data_ h)).
Proof.
  unfold get_new_top. destruct (N.eqb_spec (head_ h) npos) as [E|E];
    intros H.
  - inv H. auto.
  - right. split; [exact E|]. bind_as H nh E0.
    apply get_new_top_loop_valid in H; auto. now apply dget_ok_lt in E0.
Qed.

Lemma update_loop_index_valid fuel : forall (h : binomial_heap T) d index p h' r,
  update_loop compare_ _id fuel h d index p = Ok (h', r) ->
  index < vsize (data_ h) -> r < vsize (data_ h).
Proof.
  induction fuel as [|fuel IH]; intros h d index p h' r H V; simpl in H.
  - discriminate.
  - bind_as H c E0. destruct c; [|now inv H].
    bind_as H ni E1. bind_as H pv E2. bind_as H e1 E3. bind_as H np E4.
    bind_as H e2 E5. bind_as H ni' E6. bind_as H mv E7. bind_as H ia E8.
    apply IH in H; auto. simpl. now apply dget_ok_lt in E4.
Qed.

Lemma value_at_valid (h : binomial_heap T) x v :
  value_at h x = Ok v -> x < vsize (data_ h).
Proof.
  unfold value_at. destruct (dget (data_ h) x) eqn:G; [|discriminate].
  intros _. now apply dget_ok_lt in G.
Qed.

(** In a reachable state with a root list, [top_] is a node. *)
Lemma reachable_top_valid n (h : binomial_heap T) :
  reachable compare_ _id indeterminate n h ->
  vsize (data_ h) < npos -> head_ h <> npos -> top_ h < vsize (data_ h).
Proof.
  induction 1 as [|h o h' R IH S]; intros V HN.
  - simpl in HN. congruence.
  - pose proof (step_data_size _ _ _ _ _ _ S) as L.
    destruct o; simpl in S.
    + unfold push in S. bind_as S r E0. destruct r as [h1 idx].
      destruct (push_node_ok _id _ _ _ _ E0) as (-> & D1 & _); [lia|].
      destruct (head_ h1 =? npos).
      * inv S. simpl. rewrite D1, vsize_snoc. lia.
      * bind_as S h2 E1. bind_as S a E2. bind_as S b E3.
        apply value_at_valid in E2, E3.
        destruct (compare_ a b); inv S; auto.
    + unfold update in S. bind_as S index E0. bind_as S ni E1.
      bind_as S e0 E2. bind_as S r E3. destruct r as [h1 index'].
      bind_as S ia E4. bind_as S tv E5.
      apply value_at_valid in E5. simpl in E5.
      apply update_loop_index_valid in E3 as E3';
        [|now apply dget_ok_lt in E1].
      apply update_loop_capacity in E3 as (_ & A & _). simpl in A, E3'.
      destruct (compare_ d tv); inv S; simpl; auto. now rewrite A.
    + apply pop_data_size in S as DS. unfold pop in S.
      destruct (N.eqb_spec (head_ h) npos) as [E|E].
      * inv S. auto.
      * bind_as S r E0. destruct r as [d1 nh]. bind_as S nhd E1.
        bind_as S h2 E2. bind_as S tn E3.
        apply get_new_top_valid in E3.
        unfold pop_compact in S.
        bind_as S lst E4. bind_as S index E5. bind_as S e1 E6.
        bind_as S d3 E7. bind_as S d4 E8. bind_as S d5 E9. bind_as S d6 E10.
        bind_as S d7 E11. bind_as S e2 E12. inv S.
        cbn [data_ head_ top_ with_top] in *.
        destruct E3 as [[A _]|[_ B]]; [congruence|].
        apply dmod_vsize in E7, E8, E9, E10, E11. congruence.
Qed.

(** The value store is never larger than the arena. *)
Lemma reachable_size_le n (h : binomial_heap T) :
  reachable compare_ _id indeterminate n h -> size h <= vsize (data_ h).
Proof.
  induction 1 as [|h o h' R IH S].
  - apply N.le_refl.
  - destruct o; simpl in S.
    + apply push_size in S as A. apply push_data_size in S as B. lia.
    + apply update_size in S as A. apply update_frame in S as [B _].
      rewrite A, B. exact IH.
    + apply pop_data_size in S as B.
      destruct (N.eqb_spec (head_ h) npos) as [E|E].
      * rewrite pop_guard in S by exact E. inv S. exact IH.
      * apply pop_size in S; auto. lia.
Qed.

(** X8.  In every reachable state whose nodes all refer to slots of the
    value store, [push] of a value with a handle below the capacity goes
    through: no access is out of bounds and the consolidation ends; the
    value is appended to the store and the nodes still refer to slots of
    the store. *)
Theorem push_total_on_valid_slots n (h : binomial_heap T) d :
  reachable compare_ _id indeterminate n h ->
  vsize (data_ h) + 1 < npos -> items_ok h -> _id d < n ->
  exists h',
    push compare_ _id indeterminate h d = Ok h' /\
    elements_ h' = elements_ h ++ [d] /\ items_ok h'.
Proof.
  intros R V IO Hid.
  assert (F : forest_ok h) by (eapply reachable_forest; eauto; lia).
  destruct F as (roots & kids & SH & CR & IN).
  pose proof (reachable_capacity _ _ _ _ _ R) as CAP.
  pose proof (reachable_size_le _ _ R) as SL. unfold size in SL.
  assert (PN : exists h1 idx, push_node _id h d = Ok (h1, idx)).
  { unfold push_node. rewrite vset_lt; [unfold bind; eauto|].
    unfold capacity in CAP. rewrite CAP. exact Hid. }
  destruct PN as (h1 & idx & PN).
  destruct (push_node_ok _id _ _ _ _ PN) as (-> & D1 & E1 & H1 & T1 & IA1 & C1);
    [lia|].
  assert (V1 : vsize (data_ h1) = vsize (data_ h) + 1)
    by (rewrite D1; apply vsize_snoc).
  assert (LI : last_index (elements_ h ++ [d]) = vsize (elements_ h)).
  { assert (A : last_index (elements_ h ++ [d]) + 1
                = vsize (elements_ h ++ [d])).
    { apply last_index_pos; rewrite vsize_snoc; lia. }
    rewrite vsize_snoc in A. now apply N.add_cancel_r in A. }
  assert (IO1 : items_ok h1).
  { intros x Vx. rewrite E1, vsize_snoc, D1.
    destruct (N.eq_dec x (vsize (data_ h))) as [->|Nx].
    - unfold itm. rewrite field_app_last. simpl. rewrite LI. lia.
    - unfold itm. rewrite field_app_l by lia.
      assert (A : itm (data_ h) x < vsize (elements_ h)) by (apply IO; lia).
      unfold itm in A. lia. }
  assert (VD : value_at h1 (vsize (data_ h)) = Ok d).
  { unfold value_at. rewrite D1, dget_app_last. unfold bind. simpl item_index.
    rewrite LI, E1. apply vget_app_last. }
  unfold push. rewrite PN. unfold bind at 1. cbv beta iota.
  destruct (head_ h1 =? npos) eqn:HN.
  - eexists. split; [reflexivity|]. split; [exact E1|]. exact IO1.
  - apply N.eqb_neq in HN. rewrite H1 in HN.
    pose proof (push_union compare_ _id indeterminate h d h1 _
                  roots kids SH CR IN V HN PN) as O.
    destruct (binomial_heap_union compare_ indeterminate h1 (vsize (data_ h)))
      as [h2|e] eqn:U; cycle 1.
    { exfalso. simpl in O. destruct e; auto. }
    pose proof (union_items _ _ _ _ _ U) as I2.
    apply union_frame in U as (A & B & C & D); [|exact _id].
    assert (IO2 : forall top1, items_ok (with_top h2 top1) /\ items_ok h2).
    { intros top1. split; intros x Vx; cbn [data_ elements_ with_top] in *;
        rewrite I2, A; apply IO1; lia. }
    assert (Vt : top_ h < vsize (data_ h)).
    { eapply reachable_top_valid; eauto. lia. }
    unfold bind at 1.
    rewrite (value_at_same h1 h2) by auto. rewrite VD. unfold bind at 1.
    destruct (value_at_cases h2 (top_ h2)) as [[tv TV]|[_ X]].
    + rewrite B, T1, D. lia.
    + rewrite TV. unfold bind at 1.
      destruct (compare_ d tv); eexists; (split; [reflexivity|]);
        (split; [cbn [elements_ with_top]; congruence|]).
      * apply (IO2 (vsize (data_ h))).
      * apply (IO2 0).
    + exfalso. apply X. apply (IO2 0).
Qed.

End PushTotal.

Lemma six_heap_items_ok : items_ok six_heap.
Proof.
  intros x Vx. change (vsize (data_ six_heap)) with 6 in Vx.
  assert (C : x = 0 \/ x = 1 \/ x = 2 \/ x = 3 \/ x = 4 \/ x = 5) by lia.
  destruct C as [->|[->|[->|[->|[->| ->]]]]]; vm_compute; reflexivity.
Qed.

(** X8 on the heap of six keys, of capacity [6]: a seventh value with the
    handle [0]. *)
Lemma push_total_on_valid_slots_witness :
  exists h',
    kpush six_heap (7, 0) = Ok h' /\
    elements_ h' = elements_ six_heap ++ [(7, 0)] /\ items_ok h'.
Proof.
  apply (push_total_on_valid_slots key_less handle_of 0 6 six_heap (7, 0)).
  - apply (run_reachable key_less handle_of 0 6 six_keys
             (binomial_heap_new 6)); [apply reach_new|vm_compute; reflexivity].
  - vm_compute. reflexivity.
  - exact six_heap_items_ok.
  - vm_compute. reflexivity.
Defined.

(** ** Handles after insertions *)

Lemma vget_nth {A : Type} e (v : list A) k a :
  nth_error v k = Some a -> vget e v (N.of_nat k) = Ok a.
Proof.
  intros H. unfold vget. rewrite Nat2N.id, H.
  assert (L : N.of_nat k < vsize v).
  { unfold vsize. assert (k < length v)%nat by (apply nth_error_Some; congruence).
    lia. }
  apply N.ltb_lt in L. now rewrite L.
Qed.

Section Handles2.

Context {T : Type}.
Variable compare_ : T -> T -> bool.
Variable _id : T -> size_type.
Variable indeterminate : size_type.

Hypothesis compare_irrefl : forall a, compare_ a a = false.
Hypothesis compare_trans : forall a b c,
  compare_ a b = true -> compare_ b c = true -> compare_ a c = true.

Lemma push_index_array (h : binomial_heap T) d h' :
  push compare_ _id indeterminate h d = Ok h' -> vsize (data_ h) < npos ->
  index_array h' = list_upd (index_array h) (N.to_nat (_id d))
                     (vsize (data_ h)).
Proof.
  intros H V. unfold push in H. bind_as H r E0. destruct r as [h1 idx].
  destruct (push_node_ok _id _ _ _ _ E0 V) as (-> & _).
  unfold push_node in E0. bind_as E0 ia E1. apply vset_ok in E1 as [_ E1].
  assert (I : last_index
                (data_ h ++ [mk_node (last_index (elements_ h ++ [d]))
                               npos npos npos 0]) = vsize (data_ h)).
  { match goal with |- last_index ?l = _ =>
      assert (last_index l + 1 = vsize l) as A
    end.
    { apply last_index_pos; rewrite vsize_snoc; lia. }
    rewrite vsize_snoc in A. lia. }
  rewrite I in E1. inv E0. cbn [head_ index_array] in *. rewrite I.
  destruct (head_ h =? npos).
  - now inv H.
  - bind_as H h2 E2. bind_as H a E3. bind_as H b E4.
    apply union_frame in E2 as (_ & _ & E2 & _); [|exact _id].
    simpl in E2. destruct (compare_ a b); inv H; simpl; now rewrite E2.
Qed.

Lemma run_pushes_handles n : forall l l0 (h : binomial_heap T),
  inserted compare_ _id n l0 h -> handles_in_order _id l0 h ->
  NoDup (map _id (l0 ++ l)) ->
  (forall v, In v l -> _id v < n) -> vsize (l0 ++ l) < npos ->
  exists h', run compare_ _id indeterminate h (map Push l) = Ok h' /\
             inserted compare_ _id n (l0 ++ l) h' /\
             handles_in_order _id (l0 ++ l) h'.
Proof.
  induction l as [|d l IH]; intros l0 h I HO ND Hid V; simpl.
  - exists h. rewrite app_nil_r. auto.
  - rewrite vsize_app in V.
    assert (V' : vsize (d :: l) = vsize l + 1).
    { unfold vsize. simpl length. lia. }
    assert (0 <= vsize l) by apply N.le_0_l.
    destruct (push_inserted compare_ _id indeterminate compare_irrefl
                compare_trans n l0 h d I) as (h1 & P & I1).
    + apply Hid. now left.
    + lia.
    + rewrite P. unfold bind.
      replace (l0 ++ d :: l) with ((l0 ++ [d]) ++ l) in *
        by (rewrite <- app_assoc; reflexivity).
      apply IH; auto.
      * destruct (inserted_stores compare_ _id _ _ _ I) as (_ & VS & _).
        apply push_index_array in P; [|lia].
        intros k v Hk. rewrite P.
        destruct (Nat.lt_ge_cases k (length l0)) as [L|L].
        -- rewrite nth_error_app1 in Hk by exact L.
           rewrite vget_upd_ne; [now apply HO|].
           intros E.
           rewrite map_app, map_app in ND. apply NoDup_app_remove_r in ND.
           apply NoDup_remove_2 in ND. rewrite app_nil_r in ND.
           apply ND. rewrite E. apply in_map. eapply nth_error_In; eauto.
        -- rewrite nth_error_app2 in Hk by exact L.
           destruct (k - length l0)%nat as [|j] eqn:Ek;
             [|destruct j; discriminate].
           inv Hk. rewrite VS.
           replace (N.of_nat k) with (vsize l0) by (unfold vsize; lia).
           apply vget_upd_eq.
           assert (C := inserted_capacity compare_ _id _ _ _ I). unfold capacity in C.
           rewrite C. apply Hid. now left.
      * intros v Iv. apply Hid. now right.
      * rewrite !vsize_app. change (vsize [d]) with 1. lia.
Qed.

(** X9.  For an irreflexive and transitive comparator: after the
    insertions of values with distinct handles below the capacity into a
    new heap, the handle of the [k]-th value names the node [k], and this
    node holds the value. *)
Theorem handles_name_nodes_after_insertions n (l : list T) :
  NoDup (map _id l) -> (forall v, In v l -> _id v < n) -> vsize l < npos ->
  exists h,
    run compare_ _id indeterminate (binomial_heap_new n) (map Push l) = Ok h /\
    forall k v, nth_error l k = Some v ->
      vget OobIndex (index_array h) (_id v) = Ok (N.of_nat k) /\
      value_at h (N.of_nat k) = Ok v.
Proof.
  intros ND Hid V.
  destruct (run_pushes_handles n l [] (binomial_heap_new n)) as (h & R & I & HO);
    auto.
  - apply inserted_new.
  - intros k v Hk. now destruct k.
  - exists h. split; [exact R|]. intros k v Hk. split; [now apply HO|].
    simpl in I. destruct (inserted_stores compare_ _id _ _ _ I) as (EL & VS & IT).
    assert (L : N.of_nat k < vsize (data_ h)).
    { rewrite VS. unfold vsize.
      assert (k < length l)%nat by (apply nth_error_Some; congruence). lia. }
    rewrite value_at_itm by exact L. rewrite IT by exact L.
    rewrite EL. now apply vget_nth.
Qed.

End Handles2.

(** X9 on the keys [5, 3, 8, 1, 9, 2] with the handles [0] to [5]. *)
Lemma handles_name_nodes_after_insertions_witness :
  exists h,
    krun (binomial_heap_new 6) (map Push (keys_from 0 [5; 3; 8; 1; 9; 2]))
      = Ok h /\
    forall k v, nth_error (keys_from 0 [5; 3; 8; 1; 9; 2]) k = Some v ->
      vget OobIndex (index_array h) (handle_of v) = Ok (N.of_nat k) /\
      value_at h (N.of_nat k) = Ok v.
Proof.
  apply (handles_name_nodes_after_insertions key_less handle_of 0
           key_less_irrefl key_less_trans 6 (keys_from 0 [5; 3; 8; 1; 9; 2])).
  - simpl. repeat (constructor; [simpl; intuition discriminate|]).
    constructor.
  - intros v Iv. simpl in Iv.
    repeat (destruct Iv as [<-|Iv]; [vm_compute; reflexivity|]).
    destruct Iv.
  - vm_compute. reflexivity.
Defined.

(** ** Update of an inserted value *)

Section UpdateHandles.

Context {T : Type}.
Variable compare_ : T -> T -> bool.
Variable _id : T -> size_type.

(** The walk of [update] on a heap where node [x] owns slot [x] and the
    handles of the values of the other nodes name their nodes: it ends, the
    value [dv] is then in the slot of the node [r] it stopped at, the other
    values are all still there, and their handles name their nodes. *)
Lemma update_loop_handles D B (P : T -> Prop) dv :
  vsize D <= npos -> parents_ok D ->
  (forall x, x < vsize D -> itm D x = x) ->
  (forall x, deg D x <= B) ->
  forall fuel (h : binomial_heap T) index,
    data_ h = D -> vsize (elements_ h) = vsize D ->
    index < vsize D ->
    vget OobElements (elements_ h) index = Ok dv ->
    (forall y, y < vsize D -> y <> index ->
       exists v, vget OobElements (elements_ h) y = Ok v /\
                 vget OobIndex (index_array h) (_id v) = Ok y /\
                 _id v <> _id dv /\ P v) ->
    B < N.of_nat fuel + deg D index ->
    exists h' r,
      update_loop compare_ _id fuel h dv index (par D index) = Ok (h', r) /\
      data_ h' = D /\ head_ h' = head_ h /\ top_ h' = top_ h /\
      capacity h' = capacity h /\ vsize (elements_ h') = vsize D /\
      r < vsize D /\
      vget OobElements (elements_ h') r = Ok dv /\
      (forall y, y < vsize D -> y <> r ->
         exists v, vget OobElements (elements_ h') y = Ok v /\
                   vget OobIndex (index_array h') (_id v) = Ok y /\
                   _id v <> _id dv /\ P v) /\
      (forall y v, y < vsize D -> y <> index ->
         vget OobElements (elements_ h) y = Ok v ->
         exists y', y' < vsize D /\ y' <> r /\
                    vget OobElements (elements_ h') y' = Ok v) /\
      (par D r = npos \/
       exists pv, vget OobElements (elements_ h') (par D r) = Ok pv /\
                  compare_ dv pv = false).
Proof.
  intros VD PO IT DB.
  induction fuel as [|fuel IH]; intros h index DH VE Vi Gi OT F.
  { specialize (DB index). simpl in F. lia. }
  destruct (N.eqb_spec (par D index) npos) as [E|E].
  - rewrite E. exists h, index. rewrite update_loop_root.
    repeat (split; [solve [auto]|]). split; [|now left].
    intros y v Vy Ny Gv. eauto.
  - destruct (PO index Vi E) as [Vp Dp].
    set (p := par D index) in *.
    assert (Np : p <> index) by (intros X; rewrite X in Dp; lia).
    destruct (OT p Vp Np) as (pv & Gp & Hp & Ip & Pp).
    assert (VAp : value_at h p = Ok pv).
    { rewrite value_at_itm by (rewrite DH; exact Vp). now rewrite DH, IT. }
    destruct (compare_ dv pv) eqn:Cp; cycle 1.
    { exists h, index. rewrite (update_loop_stop _ _ _ _ _ _ _ pv VAp Cp).
      repeat (split; [solve [auto]|]). split; [eauto|].
      right. exists pv. auto. }
    destruct (dget_lt D index Vi) as [ni Ni].
    destruct (dget_lt D p Vp) as [np Np'].
    pose proof (itm_ok _ _ _ Ni) as Ii. rewrite IT in Ii by exact Vi.
    pose proof (itm_ok _ _ _ Np') as Ip'. rewrite IT in Ip' by exact Vp.
    pose proof (par_ok _ _ _ Np') as Pp'.
    set (e1 := list_upd (elements_ h) (N.to_nat index) pv).
    set (e2 := list_upd e1 (N.to_nat p) dv).
    set (ia := list_upd (index_array h) (N.to_nat (_id pv)) index).
    set (h2 := mk_heap e2 D (head_ h) (top_ h) ia).
    assert (Hc : _id pv < capacity h).
    { apply vget_ok in Hp as [Hp _]. exact Hp. }
    assert (G2i : vget OobElements e2 index = Ok pv).
    { unfold e2. rewrite vget_upd_ne by exact Np. unfold e1.
      apply vget_upd_eq. now rewrite VE. }
    assert (G2o : forall y, y <> index -> y <> p ->
                  vget OobElements e2 y = vget OobElements (elements_ h) y).
    { intros y A1 A2. unfold e2, e1. now rewrite !vget_upd_ne by congruence. }
    assert (C2 : capacity h2 = capacity h).
    { unfold capacity, h2, ia. simpl. apply vsize_upd. }
    destruct (IH h2 p) as (h' & r & L & A1 & A2 & A3 & A4 & A5 & A6 & A7 & A8
                           & A9 & A10).
    + reflexivity.
    + simpl. unfold e2, e1. now rewrite !vsize_upd.
    + exact Vp.
    + simpl. unfold e2. apply vget_upd_eq. unfold e1.
      now rewrite vsize_upd, VE.
    + intros y Vy Ny. simpl elements_. simpl index_array.
      destruct (N.eq_dec y index) as [->|Nyi].
      * exists pv. split; [exact G2i|]. split; [|auto]. unfold ia.
        apply vget_upd_eq. exact Hc.
      * destruct (OT y Vy Nyi) as (v & Gv & Hv & Iv & Pv). exists v.
        split; [rewrite G2o; auto|]. split; [|auto]. unfold ia.
        rewrite vget_upd_ne; [exact Hv|]. intros X. rewrite X in Hp.
        congruence.
    + lia.
    + exists h', r. split.
      * rewrite (update_loop_step _ _ _ _ _ _ _ pv ni np); auto.
        -- rewrite Ii, Ip', Pp', DH. exact L.
        -- now rewrite DH.
        -- now rewrite DH.
        -- rewrite Ii, VE. exact Vi.
        -- rewrite Ip', VE. exact Vp.
        -- now rewrite Ii, Ip'.
      * simpl in A2, A3. rewrite C2 in A4.
        repeat (split; [solve [auto]|]). split; [|exact A10].
        intros y v Vy Ny Gv. destruct (N.eq_dec y p) as [->|Nyp].
        -- assert (v = pv) by congruence. subst v.
           apply (A9 index pv Vi); auto.
        -- apply (A9 y v Vy Nyp). simpl. now rewrite G2o.
Qed.

(** [update] of the [k]-th inserted value, on a heap built by insertions
    whose handles name their nodes. *)
Lemma update_inserted n (l : list T) k d d' (h : binomial_heap T) :
  inserted compare_ _id n l h -> handles_in_order _id l h ->
  nth_error l k = Some d -> _id d' = _id d -> vsize l < npos ->
  exists h' r,
    update compare_ _id h d' = Ok h' /\ data_ h' = data_ h /\
    r < vsize (data_ h) /\
    vget OobIndex (index_array h') (_id d') = Ok r /\
    value_at h' r = Ok d' /\
    (forall j v, nth_error l j = Some v -> j <> k ->
       exists x, x <> r /\ vget OobIndex (index_array h') (_id v) = Ok x /\
                 value_at h' x = Ok v) /\
    (par (data_ h) r = npos \/
     exists pv, value_at h' (par (data_ h) r) = Ok pv /\
                compare_ d' pv = false) /\
    ((forall v, In v l -> compare_ d' v = true) ->
     top_ h' = r /\ par (data_ h) r = npos).
Proof.
  intros (roots & kids & SH & CR & IN & PO & OR & EL & VS & IT & CAP & LAST)
    HO Hk Eid V.
  set (D := data_ h) in *. set (idx := N.of_nat k).
  assert (Lk : (k < length l)%nat) by (apply nth_error_Some; congruence).
  assert (VN : vsize D <= npos) by lia.
  assert (Vi : idx < vsize D) by (rewrite VS; unfold vsize, idx; lia).
  pose proof (HO k d Hk) as IAd. fold idx in IAd.
  destruct (dget_lt D idx Vi) as [ni Ni].
  pose proof (itm_ok _ _ _ Ni) as Ii. rewrite IT in Ii by exact Vi.
  set (e0 := list_upd (elements_ h) (N.to_nat idx) d').
  assert (VE : vsize (elements_ h) = vsize D) by (rewrite EL; now symmetry).
  assert (DB : forall x, deg D x <= vsize D).
  { intros x. pose proof (deg_le_sum D x) as A. unfold credit in CR.
    unfold deg at 1 in CR. rewrite field_oob in CR by exact VN.
    assert (0 <= vsize roots) by apply N.le_0_l. lia. }
  assert (Vt : top_ h < vsize D).
  { destruct (last_cases l) as [E|(l' & a & E)].
    - rewrite E in Lk. simpl in Lk. lia.
    - destruct (LAST _ _ E) as (_ & _ & t & TT & _).
      now apply value_at_valid in TT. }
  assert (NTH : forall y, y < vsize D ->
            exists v, vget OobElements (elements_ h) y = Ok v /\
                      nth_error l (N.to_nat y) = Some v).
  { intros y Vy. destruct (vget_lt OobElements (elements_ h) y) as [v Gv];
      [now rewrite VE|].
    exists v. split; [exact Gv|]. apply vget_ok in Gv as [_ Gv].
    now rewrite EL in Gv. }
  destruct (update_loop_handles D (vsize D) (fun v => In v l) d' VN PO IT DB
              (fuel_of D) (with_elements h e0) idx)
    as (h1 & r & L & A1 & A2 & A3 & A4 & A5 & A6 & A7 & A8 & A9 & A10).
  - reflexivity.
  - simpl. unfold e0. now rewrite vsize_upd.
  - exact Vi.
  - simpl. unfold e0. apply vget_upd_eq. now rewrite VE.
  - intros y Vy Ny. simpl elements_. simpl index_array.
    destruct (NTH y Vy) as (v & Gv & Nv). exists v.
    unfold e0. rewrite vget_upd_ne by congruence.
    split; [exact Gv|].
    pose proof (HO _ _ Nv) as Hv. rewrite N2Nat.id in Hv.
    split; [exact Hv|]. split; [|eapply nth_error_In; eauto].
    intros X. rewrite Eid in X. rewrite X in Hv. congruence.
  - unfold fuel_of, vsize. pose proof (N.le_0_l (deg D idx)). lia.
  - simpl in A2, A3, A4.
    assert (Hr : _id d' < vsize (index_array h1)).
    { unfold capacity in A4. rewrite A4, Eid.
      apply vget_ok in IAd as [IAd _]. exact IAd. }
    set (ia := list_upd (index_array h1) (N.to_nat (_id d')) r).
    assert (VA : forall top1 x, x < vsize D ->
              value_at (with_top (with_index h1 ia) top1) x
              = vget OobElements (elements_ h1) x /\
              value_at (with_index h1 ia) x
              = vget OobElements (elements_ h1) x).
    { intros top1 x Vx.
      split; rewrite value_at_itm by (simpl; rewrite A1; exact Vx);
        simpl; now rewrite A1, IT. }
    assert (TV : exists tv, vget OobElements (elements_ h1) (top_ h) = Ok tv /\
                            (top_ h <> r -> In tv l)).
    { destruct (N.eq_dec (top_ h) r) as [->|Ntr].
      - exists d'. split; [exact A7|congruence].
      - destruct (A8 _ Vt Ntr) as (v & Gv & _ & _ & Pv). eauto. }
    destruct TV as (tv & Gtv & Ptv).
    assert (U : update compare_ _id h d'
                = Ok (if compare_ d' tv then with_top (with_index h1 ia) r
                      else with_index h1 ia)).
    { unfold update. rewrite Eid at 1. rewrite IAd. unfold bind at 1. fold D.
      rewrite Ni. unfold bind at 1. rewrite Ii.
      rewrite vset_lt by (rewrite VE; exact Vi). unfold bind at 1.
      fold e0. rewrite (par_ok _ _ _ Ni). rewrite L.
      unfold bind at 1. cbv beta iota.
      rewrite vset_lt by exact Hr. unfold bind at 1. fold ia.
      cbn [top_ with_index]. rewrite A3.
      destruct (VA r (top_ h) Vt) as [_ ->]. rewrite Gtv. unfold bind.
      now destruct (compare_ d' tv). }
    set (h' := if compare_ d' tv then with_top (with_index h1 ia) r
               else with_index h1 ia) in *.
    assert (HD : data_ h' = D /\ index_array h' = ia /\
                 forall x, x < vsize D ->
                   value_at h' x = vget OobElements (elements_ h1) x).
    { unfold h'. destruct (compare_ d' tv); simpl;
        (split; [exact A1|]); (split; [reflexivity|]); intros x Vx;
        apply (VA r x Vx). }
    destruct HD as (HD1 & HD2 & HD3).
    exists h', r. split; [exact U|]. split; [exact HD1|].
    split; [exact A6|].
    split; [rewrite HD2; apply vget_upd_eq; exact Hr|].
    split; [rewrite HD3 by exact A6; exact A7|].
    split; [|split].
    + intros j v Hj Njk.
      assert (Lj : (j < length l)%nat) by (apply nth_error_Some; congruence).
      assert (Vj : N.of_nat j < vsize D) by (rewrite VS; unfold vsize; lia).
      destruct (A9 (N.of_nat j) v Vj) as (y' & Vy' & Ny' & Gy').
      * unfold idx. lia.
      * simpl. unfold e0. rewrite vget_upd_ne by (unfold idx; lia).
        rewrite EL. now apply vget_nth.
      * destruct (A8 y' Vy' Ny') as (v' & Gv' & Hv' & Iv' & _).
        assert (v' = v) by congruence. subst v'.
        exists y'. split; [exact Ny'|]. split.
        -- rewrite HD2. unfold ia. rewrite vget_upd_ne by congruence.
           exact Hv'.
        -- rewrite HD3 by exact Vy'. exact Gy'.
    + destruct A10 as [A10|(pv & Gpv & Cpv)]; [now left|].
      right. exists pv. split; [|exact Cpv]. rewrite HD3; [exact Gpv|].
      apply vget_ok in Gpv as [Gpv _]. now rewrite A5 in Gpv.
    + intros Hd.
      assert (RT : par D r = npos).
      { destruct A10 as [A10|(pv & Gpv & Cpv)]; [exact A10|].
        exfalso. apply vget_ok in Gpv as G. destruct G as [G _].
        rewrite A5 in G.
        assert (Npr : par D r <> r).
        { intros X. destruct (PO r A6) as [_ Q].
          - intros Y. rewrite Y in G. lia.
          - rewrite X in Q. lia. }
        destruct (A8 _ G Npr) as (v & Gv & _ & _ & Pv).
        assert (v = pv) by congruence. subst v.
        rewrite (Hd pv Pv) in Cpv. discriminate. }
      split; [|exact RT]. unfold h'.
      destruct (compare_ d' tv) eqn:C; [reflexivity|].
      simpl. rewrite A3. destruct (N.eq_dec (top_ h) r) as [E|E]; [exact E|].
      rewrite (Hd tv (Ptv E)) in C. discriminate.
Qed.

End UpdateHandles.

Section UpdateAfterInsertions.

Context {T : Type}.
Variable compare_ : T -> T -> bool.
Variable _id : T -> size_type.
Variable indeterminate : size_type.

Hypothesis compare_irrefl : forall a, compare_ a a = false.
Hypothesis compare_trans : forall a b c,
  compare_ a b = true -> compare_ b c = true -> compare_ a c = true.

Lemma inserted_in_order n (l : list T) :
  NoDup (map _id l) -> (forall v, In v l -> _id v < n) -> vsize l < npos ->
  exists h,
    run compare_ _id indeterminate (binomial_heap_new n) (map Push l) = Ok h /\
    inserted compare_ _id n l h /\ handles_in_order _id l h.
Proof.
  intros ND Hid V.
  destruct (run_pushes_handles compare_ _id indeterminate compare_irrefl
              compare_trans n l [] (binomial_heap_new n))
    as (h & R & I & HO); auto.
  - apply inserted_new.
  - intros k v Hk. now destruct k.
  - eauto.
Qed.

(** X10.  For an irreflexive and transitive comparator: after the
    insertions of values with distinct handles, [update] of any one of them
    goes through, whatever the new value of the same handle, and keeps the
    handle index right: the handle of the new value names a node that
    holds it, a root or a node whose parent's value the new value does not
    precede, and the handle of every other value still names a node that
    holds it.  [data_] and [size()] are as before. *)
Theorem update_keeps_handles n (l : list T) k d d' :
  NoDup (map _id l) -> (forall v, In v l -> _id v < n) -> vsize l < npos ->
  nth_error l k = Some d -> _id d' = _id d ->
  exists h h' r,
    run compare_ _id indeterminate (binomial_heap_new n) (map Push l) = Ok h /\
    update compare_ _id h d' = Ok h' /\
    data_ h' = data_ h /\ size h' = size h /\
    vget OobIndex (index_array h') (_id d') = Ok r /\
    value_at h' r = Ok d' /\
    (par (data_ h') r = npos \/
     exists pv, value_at h' (par (data_ h') r) = Ok pv /\
                compare_ d' pv = false) /\
    (forall j v, nth_error l j = Some v -> j <> k ->
       exists x, x <> r /\ vget OobIndex (index_array h') (_id v) = Ok x /\
                 value_at h' x = Ok v).
Proof.
  intros ND Hid V Hk Eid.
  destruct (inserted_in_order n l ND Hid V) as (h & R & I & HO).
  destruct (update_inserted compare_ _id n l k d d' h I HO Hk Eid V)
    as (h' & r & U & A1 & A2 & A3 & A4 & A5 & A6 & _).
  exists h, h', r. split; [exact R|]. split; [exact U|].
  split; [exact A1|]. split; [now apply update_size in U|].
  split; [exact A3|]. split; [exact A4|]. rewrite A1. auto.
Qed.

(** X11.  For an irreflexive and transitive comparator: after the
    insertions of values with distinct handles, [update] of any one of them
    to a value that precedes every inserted value makes [top] return the
    new value; [top_] is then a root, the node that the handle names. *)
Theorem update_of_any_value_moves_top n (l : list T) k d d' :
  NoDup (map _id l) -> (forall v, In v l -> _id v < n) -> vsize l < npos ->
  nth_error l k = Some d -> _id d' = _id d ->
  (forall v, In v l -> compare_ d' v = true) ->
  exists h h',
    run compare_ _id indeterminate (binomial_heap_new n) (map Push l) = Ok h /\
    update compare_ _id h d' = Ok h' /\ top h' = Ok d' /\
    vget OobIndex (index_array h') (_id d') = Ok (top_ h') /\
    par (data_ h') (top_ h') = npos.
Proof.
  intros ND Hid V Hk Eid Hd.
  destruct (inserted_in_order n l ND Hid V) as (h & R & I & HO).
  destruct (update_inserted compare_ _id n l k d d' h I HO Hk Eid V)
    as (h' & r & U & A1 & A2 & A3 & A4 & _ & _ & A7).
  destruct (A7 Hd) as [B1 B2].
  exists h, h'. split; [exact R|]. split; [exact U|].
  unfold top. rewrite B1, A1. auto.
Qed.

End UpdateAfterInsertions.

(** X10 on the keys [10, 4, 6]: the value of key [4] gets the key [7], and
    stays below its parent. *)
Lemma update_keeps_handles_witness :
  exists h h' r,
    krun (binomial_heap_new 3) (map Push (keys_from 0 [10; 4; 6])) = Ok h /\
    kupdate h (7, 1) = Ok h' /\
    data_ h' = data_ h /\ size h' = size h /\
    vget OobIndex (index_array h') 1 = Ok r /\
    value_at h' r = Ok (7, 1) /\
    (par (data_ h') r = npos \/
     exists pv, value_at h' (par (data_ h') r) = Ok pv /\
                key_less (7, 1) pv = false) /\
    (forall j v, nth_error (keys_from 0 [10; 4; 6]) j = Some v -> j <> 1%nat ->
       exists x, x <> r /\
                 vget OobIndex (index_array h') (handle_of v) = Ok x /\
                 value_at h' x = Ok v).
Proof.
  apply (update_keeps_handles key_less handle_of 0 key_less_irrefl
           key_less_trans 3 (keys_from 0 [10; 4; 6]) 1 (4, 1) (7, 1)).
  - simpl. repeat (constructor; [simpl; intuition discriminate|]).
    constructor.
  - intros v Iv. simpl in Iv.
    repeat (destruct Iv as [<-|Iv]; [vm_compute; reflexivity|]).
    destruct Iv.
  - vm_compute. reflexivity.
  - reflexivity.
  - reflexivity.
Defined.

(** X11 on the keys [10, 4, 6]: the value of key [10], the first one
    inserted, gets the key [1]. *)
Lemma update_of_any_value_moves_top_witness :
  exists h h',
    krun (binomial_heap_new 3) (map Push (keys_from 0 [10; 4; 6])) = Ok h /\
    kupdate h (1, 0) = Ok h' /\ top h' = Ok (1, 0) /\
    vget OobIndex (index_array h') 0 = Ok (top_ h') /\
    par (data_ h') (top_ h') = npos.
Proof.
  apply (update_of_any_value_moves_top key_less handle_of 0 key_less_irrefl
           key_less_trans 3 (keys_from 0 [10; 4; 6]) 0 (10, 0) (1, 0)).
  - simpl. repeat (constructor; [simpl; intuition discriminate|]).
    constructor.
  - intros v Iv. simpl in Iv.
    repeat (destruct Iv as [<-|Iv]; [vm_compute; reflexivity|]).
    destruct Iv.
  - vm_compute. reflexivity.
  - reflexivity.
  - reflexivity.
  - intros v Iv. simpl in Iv.
    repeat (destruct Iv as [<-|Iv]; [vm_compute; reflexivity|]).
    destruct Iv.
Defined.

(** ** get_new_top *)

Section NewTop.

Context {T : Type}.
Variable compare_ : T -> T -> bool.

Hypothesis compare_irrefl : forall a, compare_ a a = false.
Hypothesis compare_trans : forall a b c,
  compare_ a b = true -> compare_ b c = true -> compare_ a c = true.

Lemma get_new_top_loop_spec (h : binomial_heap T) :
  vsize (data_ h) <= npos ->
  forall rest fuel ti tv tmp,
    chain (data_ h) tmp rest ->
    (forall r, In r rest -> exists v, value_at h r = Ok v) ->
    value_at h ti = Ok tv -> (length rest < fuel)%nat ->
    exists t tv',
      get_new_top_loop compare_ fuel h ti tmp = Ok t /\
      In t (ti :: rest) /\ value_at h t = Ok tv' /\
      (tv' = tv \/ compare_ tv' tv = true) /\
      forall r rv, In r rest -> value_at h r = Ok rv ->
                   compare_ rv tv' = false.
Proof.
  intros V. induction rest as [|x rest IH]; intros fuel ti tv tmp C VR VT F;
    (destruct fuel as [|fuel]; [simpl in F; lia|]); simpl get_new_top_loop.
  - apply chain_nil in C. subst. rewrite N.eqb_refl.
    exists ti, tv. split; [reflexivity|]. split; [now left|].
    split; [exact VT|]. split; [now left|]. intros r rv [].
  - unfold chain in C. simpl in C. destruct C as (-> & Vx & C).
    assert (Ex : (x =? npos) = false) by (apply N.eqb_neq; lia).
    rewrite Ex. destruct (VR x (or_introl eq_refl)) as [a Ga].
    rewrite Ga, VT. unfold bind at 1. unfold bind at 1.
    destruct (dget_lt _ _ Vx) as [nx Gx]. rewrite Gx. unfold bind at 1.
    rewrite (sib_ok _ _ _ Gx).
    destruct (compare_ a tv) eqn:Cab.
    + destruct (IH fuel x a (sib (data_ h) x)) as (t & tv' & L & I & G & R1 & R2);
        auto.
      * intros r Ir. apply VR. now right.
      * simpl in F. lia.
      * exists t, tv'. split; [exact L|].
        split; [destruct I as [<-|I]; [right; now left|right; now right]|].
        split; [exact G|]. split.
        -- right. destruct R1 as [->|R1]; [exact Cab|].
           eapply compare_trans; eauto.
        -- intros r rv [<-|Ir] Gr; [|eauto].
           assert (rv = a) by congruence. subst rv.
           destruct R1 as [->|R1]; [apply compare_irrefl|].
           destruct (compare_ a tv') eqn:X; auto.
           rewrite <- (compare_irrefl a). symmetry.
           eapply compare_trans; eauto.
    + destruct (IH fuel ti tv (sib (data_ h) x)) as (t & tv' & L & I & G & R1 & R2);
        auto.
      * intros r Ir. apply VR. now right.
      * simpl in F. lia.
      * exists t, tv'. split; [exact L|].
        split; [destruct I as [<-|I]; [now left|right; now right]|].
        split; [exact G|]. split; [exact R1|].
        intros r rv [<-|Ir] Gr; [|eauto].
        assert (rv = a) by congruence. subst rv.
        destruct R1 as [->|R1]; [exact Cab|].
        destruct (compare_ a tv') eqn:X; auto.
        rewrite <- Cab. symmetry. eapply compare_trans; eauto.
Qed.

Lemma get_new_top_chain (h : binomial_heap T) roots :
  vsize (data_ h) <= npos ->
  chain (data_ h) (head_ h) roots -> NoDup roots ->
  (forall r, In r roots -> exists v, value_at h r = Ok v) ->
  exists t,
    get_new_top compare_ h = Ok t /\
    (roots = [] -> t = npos) /\
    (roots <> [] ->
     In t roots /\
     exists tv, value_at h t = Ok tv /\
       forall r rv, In r roots -> value_at h r = Ok rv ->
                    compare_ rv tv = false).
Proof.
  intros V C ND VR. unfold get_new_top.
  destruct roots as [|x rest].
  - apply chain_nil in C. rewrite C, N.eqb_refl. exists npos.
    split; [reflexivity|]. split; [reflexivity|]. congruence.
  - pose proof (chain_length _ _ _ ND C) as LEN.
    unfold chain in C. simpl in C. destruct C as (E & Vx & C).
    assert (Ex : (head_ h =? npos) = false) by (apply N.eqb_neq; lia).
    rewrite Ex, E. destruct (dget_lt _ _ Vx) as [nx Gx]. rewrite Gx.
    unfold bind at 1. rewrite (sib_ok _ _ _ Gx).
    destruct (VR x (or_introl eq_refl)) as [a Ga].
    destruct (get_new_top_loop_spec h V rest (fuel_of (data_ h)) x a
                (sib (data_ h) x)) as (t & tv' & L & I & G & R1 & R2); auto.
    + intros r Ir. apply VR. now right.
    + unfold fuel_of. simpl in LEN. lia.
    + exists t. split; [exact L|]. split; [discriminate|]. intros _.
      split; [exact I|]. exists tv'. split; [exact G|].
      intros r rv [<-|Ir] Gr; [|eauto].
      assert (rv = a) by congruence. subst rv.
      destruct R1 as [->|R1]; [apply compare_irrefl|].
      destruct (compare_ a tv') eqn:X; auto.
      rewrite <- (compare_irrefl a). symmetry.
      eapply compare_trans; eauto.
Qed.

(** X12.  For an irreflexive and transitive comparator: on a root list
    that is linked by [right_sibling] from [head_] to [-1] without
    repetition, and whose nodes have readable values, [get_new_top] ends;
    it returns [-1] for the empty list and otherwise a root whose value no
    root's value precedes. *)
Theorem get_new_top_finds_extremal_root (h : binomial_heap T) roots :
  vsize (data_ h) <= npos ->
  chain (data_ h) (head_ h) roots -> NoDup roots ->
  (forall r, In r roots -> exists v, value_at h r = Ok v) ->
  exists t,
    get_new_top compare_ h = Ok t /\
    (roots = [] -> t = npos) /\
    (roots <> [] ->
     In t roots /\
     exists tv, value_at h t = Ok tv /\
       forall r rv, In r roots -> value_at h r = Ok rv ->
                    compare_ rv tv = false).
Proof.
  intros V C ND VR.
  destruct (get_new_top_chain h roots V C ND VR) as (t & G & E & N).
  exists t. split; [exact G|]. split; [exact E|]. exact N.
Qed.

End NewTop.

(** X12 on the heap of six keys: the roots are the nodes [5] and [3], with
    the keys [2] and [1]. *)
Lemma get_new_top_finds_extremal_root_witness :
  exists t,
    get_new_top key_less six_heap = Ok t /\
    ([5; 3] = [] -> t = npos) /\
    ([5; 3] <> [] ->
     In t [5; 3] /\
     exists tv, value_at six_heap t = Ok tv /\
       forall r rv, In r [5; 3] -> value_at six_heap r = Ok rv ->
                    key_less rv tv = false).
Proof.
  apply (get_new_top_finds_extremal_root key_less key_less_irrefl
           key_less_trans six_heap [5; 3]).
  - vm_compute. discriminate.
  - vm_compute. repeat split; reflexivity.
  - repeat (constructor; [simpl; intuition discriminate|]). constructor.
  - intros r [<-|[<-|[]]]; eexists; vm_compute; reflexivity.
Defined.

(** ** merge and the reversal loop of pop *)

(** X13.  [merge(index)] on two root lists without a common node, the
    one from [head_] and the one from [index], both non-empty: it ends and
    [head_] then starts one list with the nodes of both, spliced as a merge
    by degree (a node of the first list goes first only when its degree is
    strictly smaller); when both lists are strictly increasing in degree,
    the result never descends and has no degree three times in a row.  Only
    [right_sibling] fields change, and the node pushed as list header is
    popped again. *)
Theorem merge_splices_by_degree {T : Type} indeterminate
  (h : binomial_heap T) index lp lq :
  vsize (data_ h) < npos ->
  chain (data_ h) (head_ h) lp -> chain (data_ h) index lq ->
  lp <> [] -> lq <> [] -> NoDup (lp ++ lq) ->
  exists h',
    merge indeterminate h index = Ok h' /\
    chain (data_ h') (head_ h') (merge_lists (deg (data_ h)) lp lq) /\
    Permutation (merge_lists (deg (data_ h)) lp lq) (lp ++ lq) /\
    (incr (map (deg (data_ h)) lp) -> incr (map (deg (data_ h)) lq) ->
     merged (map (deg (data_ h')) (merge_lists (deg (data_ h)) lp lq))) /\
    elements_ h' = elements_ h /\ top_ h' = top_ h /\
    index_array h' = index_array h /\
    vsize (data_ h') = vsize (data_ h) /\
    (forall w, par (data_ h') w = par (data_ h) w /\
               chd (data_ h') w = chd (data_ h) w /\
               deg (data_ h') w = deg (data_ h) w /\
               itm (data_ h') w = itm (data_ h) w).
Proof.
  intros V Cp Cq Np Nq ND.
  destruct (merge_spec indeterminate h index lp lq V Cp Cq Np Nq ND)
    as (h' & M & A & B & C & [VS LO] & CH & _).
  exists h'. split; [exact M|]. split; [exact CH|].
  split; [apply merge_lists_perm|]. split.
  - intros Ip Iq.
    replace (map (deg (data_ h')) (merge_lists (deg (data_ h)) lp lq))
      with (map (deg (data_ h)) (merge_lists (deg (data_ h)) lp lq)).
    + now apply merge_lists_merged.
    + apply map_ext. intros w. destruct (LO w) as (-> & _). reflexivity.
  - repeat (split; [assumption|]). intros w.
    destruct (LO w) as (D1 & D2 & D3 & D4). auto.
Qed.

(** X13 on the two roots of [two_roots], both of degree [0]: the second
    list goes first. *)
Lemma merge_splices_by_degree_witness :
  exists h',
    merge 0 two_roots 1 = Ok h' /\
    chain (data_ h') (head_ h') [1; 0] /\ head_ h' = 1.
Proof.
  destruct (@merge_splices_by_degree keyed 0 two_roots 1 [0] [1])
    as (h' & M & C & _).
  - vm_compute. reflexivity.
  - vm_compute. repeat split; reflexivity.
  - vm_compute. repeat split; reflexivity.
  - discriminate.
  - discriminate.
  - repeat (constructor; [simpl; intuition discriminate|]). constructor.
  - exists h'. split; [exact M|]. split; [exact C|].
    vm_compute in M. inv M. reflexivity.
Defined.

(** X14.  The loop of [pop] that detaches the child list: on a list
    linked by [right_sibling] from [tmp_head] to [-1] without repetition,
    started with [new_head == -1], it ends; the same nodes are then linked
    in the reverse order from the returned [new_head], each with
    [parent == -1], and nothing else has changed. *)
Theorem reverse_loop_reverses d p l :
  vsize d <= npos -> chain d p l -> NoDup l ->
  exists d',
    reverse_loop (fuel_of d) d npos p = Ok (d', hd npos (rev l)) /\
    chain d' (hd npos (rev l)) (rev l) /\
    vsize d' = vsize d /\
    (forall w, In w l -> par d' w = npos) /\
    (forall w, deg d' w = deg d w /\ chd d' w = chd d w /\
               itm d' w = itm d w) /\
    (forall w, ~ In w l -> dget d' w = dget d w).
Proof.
  intros V C ND.
  destruct (reverse_loop_spec l (fuel_of d) d [] npos p V C)
    as (d' & R & CH & VS & FD & FR & PA).
  - reflexivity.
  - now rewrite app_nil_r.
  - unfold fuel_of. pose proof (chain_length _ _ _ ND C). lia.
  - exists d'. rewrite app_nil_r in CH. auto 8.
Qed.

(** X14 on the child list of node [3] of the heap of six keys, the nodes
    [1] and [2]. *)
Lemma reverse_loop_reverses_witness :
  exists d',
    reverse_loop (fuel_of (data_ six_heap)) (data_ six_heap) npos 1
      = Ok (d', 2) /\
    chain d' 2 [2; 1] /\ par d' 1 = npos /\ par d' 2 = npos.
Proof.
  destruct (reverse_loop_reverses (data_ six_heap) 1 [1; 2])
    as (d' & R & C & _ & P & _).
  - vm_compute. discriminate.
  - vm_compute. repeat split; reflexivity.
  - repeat (constructor; [simpl; intuition discriminate|]). constructor.
  - exists d'. split; [exact R|]. split; [exact C|].
    split; apply P; simpl; auto.
Defined.

(** ** Heap order after insertions *)

Lemma binomial_link_par d y z d' :
  binomial_link d y z = Ok d' ->
  forall w, par d' w = (if w =? y then z else par d w).
Proof.
  unfold binomial_link. intros H w.
  bind_as H d1 E1. bind_as H nz E2. bind_as H d2 E3. bind_as H d3 E4.
  bind_as H nz' E5.
  apply dmod_degree in H as [_ F5]. apply dmod_child in E4 as [_ F4].
  apply dmod_sibling in E3 as [_ F3]. apply dmod_parent in E1 as [_ F1].
  destruct (F5 w) as (_ & -> & _). destruct (F4 w) as (_ & -> & _).
  destruct (F3 w) as (_ & -> & _). destruct (F1 w) as (-> & _). reflexivity.
Qed.

Lemma binomial_link_valid d y z d' :
  binomial_link d y z = Ok d' -> z < vsize d.
Proof.
  unfold binomial_link. intros H. bind_as H d1 E1. bind_as H nz E2.
  apply dget_ok_lt in E2. apply dmod_vsize in E1. congruence.
Qed.

Section HeapOrder.

Context {T : Type}.
Variable compare_ : T -> T -> bool.
Variable _id : T -> size_type.
Variable indeterminate : size_type.

Hypothesis compare_asym : forall a b,
  compare_ a b = true -> compare_ b a = false.

(** A link of [y] below [z], decided by the comparison of their values. *)
Lemma link_heap_ordered (h : binomial_heap T) d1 d2 y z a b :
  heap_ordered compare_ h ->
  vsize d1 = vsize (data_ h) ->
  (forall w, itm d1 w = itm (data_ h) w) ->
  (forall w, par d1 w = par (data_ h) w) ->
  binomial_link d1 y z = Ok d2 ->
  value_at h y = Ok a -> value_at h z = Ok b -> compare_ a b = false ->
  forall h', data_ h' = d2 -> elements_ h' = elements_ h ->
             heap_ordered compare_ h'.
Proof.
  intros HO V1 I1 P1 L Ga Gb C h' D E w Pw.
  assert (V2 : vsize (data_ h') = vsize (data_ h)).
  { rewrite D. apply binomial_link_vsize in L. congruence. }
  assert (VA : forall x, value_at h' x = value_at h x).
  { intros x. apply value_at_same; auto.
    rewrite D, (binomial_link_items _ _ _ _ L). apply I1. }
  rewrite V2. rewrite D in Pw |- *.
  rewrite (binomial_link_par _ _ _ _ L) in Pw |- *.
  destruct (w =? y) eqn:Ewy.
  - apply N.eqb_eq in Ewy. subst w.
    split; [apply binomial_link_valid in L; congruence|].
    intros a' b'. rewrite !VA. congruence.
  - rewrite P1 in Pw |- *. destruct (HO w Pw) as [A B]. split; [exact A|].
    intros a' b'. rewrite !VA. apply B.
Qed.

Lemma union_loop_heap_ordered fuel :
  forall (h : binomial_heap T) prev x next h',
    union_loop compare_ fuel h prev x next = Ok h' ->
    heap_ordered compare_ h -> heap_ordered compare_ h'.
Proof.
  induction fuel as [|fuel IH]; intros h prev x next h' H HO; simpl in H.
  - discriminate.
  - destruct (next =? npos); [now inv H|].
    bind_as H nx E0. bind_as H nn E1. bind_as H sk E2. destruct sk.
    + bind_as H nn' E3. eauto.
    + bind_as H a E3. bind_as H b E4. destruct (compare_ a b) eqn:C.
      * bind_as H d1 E5. bind_as H d2 E6. bind_as H nx' E7.
        apply IH in H; auto.
        apply dmod_sibling in E5 as [V5 F5].
        eapply (link_heap_ordered h d1 d2 next x b a); eauto.
        -- intros w. destruct (F5 w) as (_ & _ & _ & _ & F'). exact F'.
        -- intros w. destruct (F5 w) as (_ & F' & _). exact F'.
      * bind_as H h1 E5. bind_as H d2 E6. bind_as H nx' E7.
        apply IH in H; auto.
        assert (A : vsize (data_ h1) = vsize (data_ h) /\
                    (forall w, itm (data_ h1) w = itm (data_ h) w) /\
                    (forall w, par (data_ h1) w = par (data_ h) w) /\
                    elements_ h1 = elements_ h).
        { destruct (prev =? npos).
          - inv E5. auto.
          - bind_as E5 d1 E8. inv E5. cbn [data_ elements_ with_data].
            apply dmod_sibling in E8 as [V8 F8]. split; [exact V8|].
            split; [|split; [|reflexivity]]; intros w;
              destruct (F8 w) as (_ & Fp & _ & _ & Fi); auto. }
        destruct A as (A1 & A2 & A3 & A4).
        eapply (link_heap_ordered h (data_ h1) d2 x next a b); eauto.
Qed.

Lemma union_heap_ordered (h : binomial_heap T) index h' :
  binomial_heap_union compare_ indeterminate h index = Ok h' ->
  heap_ordered compare_ h -> heap_ordered compare_ h'.
Proof.
  unfold binomial_heap_union. intros H HO. bind_as H h1 E0. bind_as H nh E1.
  assert (HO1 : heap_ordered compare_ h1).
  { apply merge_frame in E0 as F. destruct F as (A & _ & _ & D).
    intros w Pw.
    destruct (merge_fields _ _ _ _ E0 w) as (Pw' & _).
    assert (VA : forall x, value_at h1 x = value_at h x).
    { intros x. apply value_at_same; auto.
      destruct (merge_fields _ _ _ _ E0 x) as (_ & _ & _ & I). exact I. }
    rewrite Pw' in Pw |- *. rewrite D. destruct (HO w Pw) as [P Q].
    split; [exact P|]. intros a b. rewrite !VA. apply Q. }
  destruct (right_sibling nh =? npos); [now inv H|].
  eapply union_loop_heap_ordered; eauto.
Qed.

Lemma push_heap_ordered (h : binomial_heap T) d h' :
  push compare_ _id indeterminate h d = Ok h' ->
  vsize (elements_ h) < npos -> items_ok h -> heap_ordered compare_ h ->
  items_ok h' /\ heap_ordered compare_ h'.
Proof.
  intros H VE IO HO. unfold push in H. bind_as H r E0. destruct r as [h1 idx].
  unfold push_node in E0. bind_as E0 ia E1. inv E0.
  set (obj := mk_node (last_index (elements_ h ++ [d])) npos npos npos 0) in *.
  set (h1 := mk_heap (elements_ h ++ [d]) (data_ h ++ [obj]) (head_ h)
               (top_ h) ia) in *.
  assert (LI : last_index (elements_ h ++ [d]) = vsize (elements_ h)).
  { assert (A : last_index (elements_ h ++ [d]) + 1
                = vsize (elements_ h ++ [d])).
    { apply last_index_pos; rewrite vsize_snoc; lia. }
    rewrite vsize_snoc in A. now apply N.add_cancel_r in A. }
  assert (IO1 : items_ok h1).
  { intros x Vx. simpl in Vx |- *. rewrite vsize_snoc in Vx.
    rewrite vsize_snoc.
    destruct (N.eq_dec x (vsize (data_ h))) as [->|Nx].
    - unfold itm. rewrite field_app_last. simpl. rewrite LI. lia.
    - unfold itm. rewrite field_app_l by lia.
      assert (A : itm (data_ h) x < vsize (elements_ h)) by (apply IO; lia).
      unfold itm in A. lia. }
  assert (P1 : forall w, par (data_ h1) w <> npos ->
               w < vsize (data_ h) /\ par (data_ h1) w = par (data_ h) w).
  { intros w Pw. simpl in Pw |- *.
    destruct (N.lt_trichotomy w (vsize (data_ h))) as [L|[->|L]].
    - split; [exact L|]. unfold par. now rewrite field_app_l.
    - unfold par in Pw. rewrite field_app_last in Pw. simpl in Pw. congruence.
    - unfold par in Pw. rewrite field_oob in Pw; [congruence|].
      rewrite vsize_snoc. lia. }
  assert (VA : forall w v, w < vsize (data_ h) ->
               value_at h1 w = Ok v -> value_at h w = Ok v).
  { intros w v Vw G. rewrite value_at_itm in G
      by (simpl; rewrite vsize_snoc; lia).
    rewrite value_at_itm by exact Vw.
    simpl in G. unfold itm in G. rewrite field_app_l in G by exact Vw.
    rewrite vget_app_l in G; [exact G|]. now apply IO. }
  assert (HO1 : heap_ordered compare_ h1).
  { intros w Pw. destruct (P1 w Pw) as [Vw Pw'].
    rewrite Pw' in Pw |- *. destruct (HO w Pw) as [Vp Q].
    split; [simpl; rewrite vsize_snoc; lia|].
    intros a b Ga Gb. apply VA in Ga; [|exact Vw].
    apply VA in Gb; [|exact Vp]. eauto. }
  destruct (head_ h1 =? npos).
  - injection H as <-. split.
    + intros x Vx. apply (IO1 x Vx).
    + intros w Pw. apply (HO1 w Pw).
  - bind_as H h2 E2. bind_as H a E3. bind_as H b E4.
    apply union_heap_ordered in E2 as HO2; [|exact HO1].
    pose proof (union_items _ _ _ _ _ E2) as I2.
    apply union_frame in E2 as (A & B & C & D); [|exact _id].
    assert (IO2 : items_ok h2).
    { intros x Vx. rewrite I2, A. apply IO1. congruence. }
    destruct (compare_ a b); inv H; split; auto.
Qed.

Lemma run_pushes_heap_ordered : forall l (h h' : binomial_heap T),
  run compare_ _id indeterminate h (map Push l) = Ok h' ->
  vsize (elements_ h) + vsize l <= npos ->
  items_ok h -> heap_ordered compare_ h ->
  items_ok h' /\ heap_ordered compare_ h'.
Proof.
  induction l as [|d l IH]; intros h h' R V IO HO; simpl in R.
  - inv R. auto.
  - bind_as R h1 E.
    assert (V' : vsize (d :: l) = vsize l + 1).
    { unfold vsize. simpl length. lia. }
    assert (0 <= vsize l) by apply N.le_0_l.
    apply push_size in E as S. unfold size in S.
    apply push_heap_ordered in E as [IO1 HO1]; auto; [|lia].
    apply (IH h1 h'); auto. lia.
Qed.

(** X15.  For a comparator that never holds in both directions: after
    insertions into a new heap, every [parent] link names a node, and no
    node has a value that precedes the value of its parent; and every node
    refers to a slot of the value store. *)
Theorem insertions_keep_heap_order n (l : list T) (h : binomial_heap T) :
  vsize l <= npos ->
  run compare_ _id indeterminate (binomial_heap_new n) (map Push l) = Ok h ->
  heap_ordered compare_ h /\ items_ok h.
Proof.
  intros V R.
  destruct (run_pushes_heap_ordered l (binomial_heap_new n) h R) as [A B].
  - exact V.
  - intros x Vx. unfold vsize in Vx. simpl in Vx. lia.
  - intros y Py. exfalso. apply Py. unfold par. apply field_oob.
    apply N.le_0_l.
  - auto.
Qed.

End HeapOrder.

Lemma key_less_asym a b : key_less a b = true -> key_less b a = false.
Proof. unfold key_less. rewrite N.ltb_lt, N.ltb_ge. lia. Qed.

(** X15 on the heap of the keys [5, 3, 8, 1, 9, 2]. *)
Lemma insertions_keep_heap_order_witness :
  heap_ordered key_less six_heap /\ items_ok six_heap.
Proof.
  apply (insertions_keep_heap_order key_less handle_of 0 key_less_asym 6
           (keys_from 0 [5; 3; 8; 1; 9; 2]) six_heap).
  - vm_compute. discriminate.
  - vm_compute. reflexivity.
Defined.

(** ** A heap of one value *)

Section RoundTrip.

Context {T : Type}.
Variable compare_ : T -> T -> bool.
Variable _id : T -> size_type.
Variable indeterminate : size_type.

(** X16.  [push] of a value into a new heap and then [pop]: both go
    through, [top] in between is the value, and afterwards [head_] and
    [top_] are [-1] and the value store is empty, while [data_] keeps the
    node. *)
Theorem push_then_pop_on_new_heap n d :
  _id d < n ->
  exists h1 h2,
    push compare_ _id indeterminate (binomial_heap_new n) d = Ok h1 /\
    top h1 = Ok d /\ size h1 = 1 /\
    pop compare_ _id indeterminate h1 = Ok h2 /\
    head_ h2 = npos /\ top_ h2 = npos /\ empty h2 = true /\
    vsize (data_ h2) = 1 /\ index_array h2 = index_array h1.
Proof.
  intros Hid.
  assert (C : _id d < vsize (repeat 0 (N.to_nat n))).
  { unfold vsize. rewrite repeat_length. lia. }
  set (ia := list_upd (repeat 0 (N.to_nat n)) (N.to_nat (_id d)) 0).
  exists (mk_heap [d] [mk_node 0 npos npos npos 0] 0 0 ia).
  exists (mk_heap [] [mk_node 0 npos npos npos 0] npos npos ia).
  assert (G : @vget size_type OobIndex ia (_id d) = Ok 0)
    by now apply vget_upd_eq.
  split; [|split; [reflexivity|split; [reflexivity|split]]].
  - unfold push, push_node. cbn [index_array binomial_heap_new].
    rewrite vset_lt by exact C. reflexivity.
  - set (nd := [mk_node 0 npos npos npos 0]).
    set (h1 := mk_heap [d] nd 0 0 ia).
    assert (E1 : pop_detach h1 = Ok (nd, npos)) by reflexivity.
    assert (E2 : dget nd 0 = Ok (mk_node 0 npos npos npos 0)) by reflexivity.
    assert (E3 : get_new_top compare_ (with_head (with_data h1 nd) npos)
                 = Ok npos) by reflexivity.
    assert (E4 : pop_compact _id
                   (with_top (with_head (with_data h1 nd) npos) npos) 0
                 = Ok (mk_heap [] nd npos npos ia)).
    { unfold pop_compact.
      cbn [with_top with_head with_data head_ elements_ data_ top_
           index_array h1].
      change (vget OobElements [d] (last_index [d])) with (Ok d).
      unfold bind at 1. rewrite G. reflexivity. }
    unfold pop. change (head_ h1 =? npos) with false. cbv iota.
    rewrite E1. unfold bind at 1. cbv beta iota.
    change (data_ (with_data h1 nd)) with nd.
    change (head_ (with_data h1 nd)) with 0. rewrite E2.
    unfold bind at 1. cbn [right_sibling].
    change (npos =? npos) with true. cbv iota. unfold bind at 1.
    rewrite E3. unfold bind at 1. change (top_ h1) with 0. exact E4.
  - repeat split; reflexivity.
Qed.

End RoundTrip.

(** X16 on the value of key [5] and handle [0], capacity [2]. *)
Lemma push_then_pop_on_new_heap_witness :
  exists h1 h2,
    kpush (binomial_heap_new 2) (5, 0) = Ok h1 /\
    top h1 = Ok (5, 0) /\ size h1 = 1 /\
    kpop h1 = Ok h2 /\
    head_ h2 = npos /\ top_ h2 = npos /\ empty h2 = true /\
    vsize (data_ h2) = 1 /\ index_array h2 = index_array h1.
Proof.
  apply (push_then_pop_on_new_heap key_less handle_of 0 2 (5, 0)).
  vm_compute. reflexivity.
Defined.

(** ** The failing case of pop *)

Lemma find_prev_total d t : vsize d <= npos ->
  forall l1 fuel p tmp l2,
    chain d p (l1 ++ tmp :: t :: l2) -> NoDup (l1 ++ tmp :: t :: l2) ->
    (length l1 < fuel)%nat ->
    find_prev_loop fuel d p t = Ok tmp.
Proof.
  intros V. induction l1 as [|x l1 IH]; intros fuel p tmp l2 C ND F;
    (destruct fuel as [|fuel]; [simpl in F; lia|]); simpl find_prev_loop.
  - unfold chain in C. simpl in C. destruct C as (-> & Vt & St & _).
    destruct (dget_lt _ _ Vt) as [n G]. rewrite G. unfold bind.
    rewrite (sib_ok _ _ _ G), St, N.eqb_refl. reflexivity.
  - unfold chain in C. simpl in C. destruct C as (-> & Vx & C).
    destruct (dget_lt _ _ Vx) as [n G]. rewrite G. unfold bind.
    rewrite (sib_ok _ _ _ G).
    assert (Nt : sib d x <> t).
    { intros E. rewrite E in C. simpl in ND. apply NoDup_cons_iff in ND as [_ ND].
      destruct l1 as [|y l1]; simpl in C.
      - destruct C as (E1 & _). subst tmp. apply NoDup_cons_iff in ND as [ND _].
        apply ND. now left.
      - destruct C as (E1 & _). subst y. apply NoDup_cons_iff in ND as [ND _].
        apply ND. apply in_or_app. right. right. now left. }
    apply N.eqb_neq in Nt. rewrite Nt. apply (IH fuel _ tmp l2); auto.
    + now apply NoDup_cons_iff in ND as [_ ND].
    + simpl in F. lia.
Qed.

Section PopFails.

Context {T : Type}.
Variable compare_ : T -> T -> bool.
Variable _id : T -> size_type.
Variable indeterminate : size_type.

(** X17.  When [top_] is on the root list, has no child and is not the
    only root, [pop] unlinks it and calls [binomial_heap_union(-1)], whose
    [merge] reads [data_[-1]]: an access out of bounds. *)
Theorem pop_of_childless_top_reads_out_of_bounds (h : binomial_heap T) rs :
  vsize (data_ h) < npos ->
  chain (data_ h) (head_ h) rs -> NoDup rs ->
  In (top_ h) rs -> rs <> [top_ h] ->
  chd (data_ h) (top_ h) = npos ->
  pop compare_ _id indeterminate h = Err OobData.
Proof.
  intros V C ND IT NS CH.
  set (d := data_ h) in *. set (t := top_ h) in *.
  assert (VN : vsize d <= npos) by lia.
  assert (Vt : t < vsize d) by (eapply seg_valid; eauto).
  destruct rs as [|x rest]; [destruct IT|].
  pose proof (chain_length _ _ _ ND C) as LEN.
  pose proof C as C0.
  unfold chain in C. simpl in C. destruct C as (EH & Vx & C).
  assert (NR : rest <> []).
  { intros ->. destruct IT as [E|[]]. congruence. }
  destruct rest as [|y rest]; [congruence|]. clear NR.
  pose proof C as Cy. unfold chain in Cy. simpl in Cy.
  destruct Cy as (Sx & Vy & _).
  destruct (dget_lt d t Vt) as [nt Gt].
  destruct (dget_lt d x Vx) as [nx Gx].
  unfold pop. assert (E0 : (head_ h =? npos) = false) by (apply N.eqb_neq; lia).
  rewrite E0. unfold pop_detach. fold d t. rewrite Gt. unfold bind at 2.
  rewrite (chd_ok _ _ _ Gt), CH, N.eqb_refl. cbn [negb]. unfold bind at 1.
  cbv beta iota. cbn [data_ head_ with_data]. rewrite EH, Gx.
  unfold bind at 1. rewrite (sib_ok _ _ _ Gx), Sx.
  assert (E1 : (y =? npos) = false) by (apply N.eqb_neq; lia).
  rewrite E1. unfold pop_unlink. cbn [data_ head_ top_ with_data].
  fold d t. rewrite EH, Gx. unfold bind at 3.
  assert (M : forall (h3 : binomial_heap T),
            vsize (data_ h3) = vsize d -> head_ h3 < vsize d ->
            binomial_heap_union compare_ indeterminate h3 npos = Err OobData).
  { intros h3 V3 H3. unfold binomial_heap_union, merge.
    destruct (dget_lt (data_ h3) (head_ h3)) as [n G]; [lia|].
    rewrite G. unfold bind at 2. rewrite dget_npos by lia. reflexivity. }
  destruct (N.eqb_spec x t) as [E|E].
  - unfold bind at 2. rewrite M; [reflexivity|reflexivity|].
    simpl. rewrite (sib_ok _ _ _ Gx), Sx. exact Vy.
  - destruct IT as [IT|IT]; [congruence|].
    apply in_split in IT as (l1 & l2 & EL).
    assert (SP : exists l1' tmp, x :: l1 = l1' ++ [tmp]).
    { destruct (@exists_last _ (x :: l1)) as (l1' & tmp & E'); [discriminate|].
      eauto. }
    destruct SP as (l1' & tmp & E').
    assert (ER : x :: y :: rest = l1' ++ tmp :: t :: l2).
    { rewrite EL. change (x :: l1 ++ t :: l2) with ((x :: l1) ++ t :: l2).
      rewrite E', <- app_assoc. reflexivity. }
    rewrite ER in C0, ND, LEN. rewrite EH in C0.
    rewrite (find_prev_total d t VN l1' (fuel_of d) x tmp l2 C0 ND).
    + unfold bind at 3. rewrite Gt. unfold bind at 3.
      assert (Vtmp : tmp < vsize d).
      { eapply seg_valid; [exact C0|]. apply in_or_app. right. now left. }
      destruct (dmod_lt d tmp
                  (fun n => set_right_sibling n (right_sibling nt)) Vtmp)
        as (ntmp & _ & DM).
      rewrite DM. unfold bind at 3. unfold bind at 2.
      rewrite M; [reflexivity| |simpl; rewrite EH; exact Vx].
      simpl. apply vsize_upd.
    + unfold fuel_of. rewrite length_app in LEN. simpl in LEN. lia.
Qed.

End PopFails.

(** X17 on the heap of the keys [2, 3, 1]: the roots are the node [2],
    the top, without child, and the node [0]. *)
Lemma pop_of_childless_top_reads_out_of_bounds_witness :
  kpop childless_heap = Err OobData.
Proof.
  apply (pop_of_childless_top_reads_out_of_bounds key_less handle_of 0
           childless_heap [2; 0]).
  - vm_compute. reflexivity.
  - vm_compute. repeat split; reflexivity.
  - repeat (constructor; [simpl; intuition discriminate|]). constructor.
  - left. reflexivity.
  - discriminate.
  - reflexivity.
Defined.

(** ** The first extraction after insertions *)

Lemma pop_back_ok {A : Type} (v : list A) :
  v <> [] -> pop_back v = Ok (removelast v).
Proof. destruct v; [congruence|reflexivity]. Qed.

Section PopUnlink.

Context {T : Type}.

(** [pop] takes [top_] off a root list of several nodes. *)
Lemma pop_unlink_spec (h : binomial_heap T) d1 roots kids1 :
  vsize d1 < npos ->
  shape (top_ h) d1 (head_ h) roots kids1 ->
  In (top_ h) roots -> sib d1 (head_ h) <> npos ->
  exists h3 roots3,
    pop_unlink (with_data h d1) = Ok h3 /\
    shape (top_ h) (data_ h3) (head_ h3) roots3 kids1 /\
    roots3 <> [] /\ ~ In (top_ h) roots3 /\ incl roots3 roots /\
    S (length roots3) = length roots /\
    (forall f : size_type -> N, incr (map f roots) -> incr (map f roots3)) /\
    vsize (data_ h3) = vsize d1 /\
    (forall w, deg (data_ h3) w = deg d1 w /\ chd (data_ h3) w = chd d1 w /\
               par (data_ h3) w = par d1 w /\ itm (data_ h3) w = itm d1 w) /\
    (forall w, ~ In w roots -> sib (data_ h3) w = sib d1 w) /\
    elements_ h3 = elements_ h /\ index_array h3 = index_array h /\
    top_ h3 = top_ h.
Proof.
  intros V SH1 IT ES. set (t := top_ h) in *.
  assert (VN1 : vsize d1 <= npos) by lia.
  assert (Vt : t < vsize d1).
  { eapply seg_valid; [apply (sh_roots _ _ _ _ _ SH1)|exact IT]. }
  assert (Nt : t <> npos) by lia.
  pose proof (sh_roots _ _ _ _ _ SH1) as CR1.
  pose proof (sh_nodup _ _ _ _ _ SH1) as ND.
  destruct roots as [|x rest]; [destruct IT|].
  pose proof CR1 as C0.
  unfold chain in CR1. simpl in CR1. destruct CR1 as (EH & Vx & CRest).
  destruct (dget_lt d1 x Vx) as [nx Gx].
  destruct (dget_lt d1 t Vt) as [nt Gt].
  unfold pop_unlink. cbn [data_ head_ top_ with_data]. fold t.
  rewrite EH in *. rewrite Gx. unfold bind at 1.
  destruct (N.eqb_spec x t) as [EX|EX].
  - exists (with_head (with_data h d1) (right_sibling nx)), rest.
    cbn [data_ head_ top_ with_head with_data elements_ index_array].
    rewrite (sib_ok _ _ _ Gx).
    inversion ND as [|? ? NIh ND']. subst.
    split; [reflexivity|].
    split; [|split; [|split; [|split; [|split; [|split]]]]]; auto.
    + eapply shape_reroot; eauto.
      intros i y Iy. apply (sh_rk _ _ _ _ _ SH1). simpl. auto.
    + intros ->. apply chain_nil in CRest. auto.
    + rewrite <- EX. exact NIh.
    + intros y Iy. simpl. auto.
    + intros f IN. simpl in IN. apply incr_cons in IN. tauto.
    + repeat split; auto.
  - destruct IT as [IT|IT]; [congruence|].
    apply in_split in IT as (l1 & l2 & EL).
    destruct (@exists_last _ (x :: l1)) as (l1' & tmp & E'); [discriminate|].
    assert (ER : x :: rest = l1' ++ tmp :: t :: l2).
    { rewrite EL. change (x :: l1 ++ t :: l2) with ((x :: l1) ++ t :: l2).
      rewrite E', <- app_assoc. reflexivity. }
    rewrite ER in *.
    pose proof (chain_length _ _ _ ND C0) as LEN.
    rewrite (find_prev_total d1 t VN1 l1' (fuel_of d1) x tmp l2 C0 ND);
      [|unfold fuel_of; rewrite length_app in LEN; simpl in LEN; lia].
    unfold bind at 1. rewrite Gt. unfold bind at 1.
    assert (Vtmp : tmp < vsize d1).
    { eapply seg_valid; [exact C0|]. apply in_or_app. right. now left. }
    destruct (dmod_lt d1 tmp
                (fun n => set_right_sibling n (right_sibling nt)) Vtmp)
      as (ntmp & _ & E2).
    rewrite E2. unfold bind at 1.
    set (d2 := list_upd d1 (N.to_nat tmp)
                 (set_right_sibling ntmp (right_sibling nt))) in *.
    exists (with_data (with_data h d1) d2), (l1' ++ tmp :: l2).
    cbn [data_ head_ top_ with_head with_data elements_ index_array].
    rewrite EH.
    rewrite (sib_ok _ _ _ Gt) in E2.
    pose proof C0 as C1.
    apply chain_split in C1 as (Sg1 & _ & C1).
    unfold chain in C1. simpl in C1. destruct C1 as (St & _ & C2).
    apply dmod_sibling in E2 as [V2 F2].
    assert (ND3 : NoDup (l1' ++ tmp :: l2)).
    { change (l1' ++ tmp :: t :: l2) with (l1' ++ [tmp] ++ t :: l2) in ND.
      rewrite app_assoc in ND. apply NoDup_remove_1 in ND.
      now rewrite <- app_assoc in ND. }
    assert (NT3 : ~ In t (l1' ++ tmp :: l2)).
    { change (l1' ++ tmp :: t :: l2) with (l1' ++ [tmp] ++ t :: l2) in ND.
      rewrite app_assoc in ND. apply NoDup_remove_2 in ND.
      now rewrite <- app_assoc in ND. }
    assert (INC : incl (l1' ++ tmp :: l2) (l1' ++ tmp :: t :: l2)).
    { intros y Iy. apply in_app_or in Iy as [I|[<-|I]];
        apply in_or_app; simpl; auto. }
    assert (SO : forall w, w <> tmp -> sib d2 w = sib d1 w).
    { intros w Nw. destruct (F2 w) as (-> & _).
      apply N.eqb_neq in Nw. now rewrite Nw. }
    assert (NTmp : ~ In tmp l1' /\ ~ In tmp l2).
    { apply NoDup_remove_2 in ND3. split; intros I; apply ND3;
        apply in_or_app; auto. }
    split; [reflexivity|].
    split; [|split; [|split; [|split; [|split; [|split]]]]]; auto.
    + eapply shape_reroot; [exact SH1| | | | |exact ND3|]; auto.
      * intros w. destruct (F2 w) as (_ & _ & -> & -> & _). tauto.
      * intros i y Iy. apply SO. intros ->.
        apply (sh_rk _ _ _ _ _ SH1 i tmp); auto.
        apply in_or_app. simpl. auto.
      * apply chain_split. split; [|split].
        -- eapply seg_transfer; [|exact Sg1]. intros y Iy. split.
           ++ rewrite V2. apply (seg_valid _ _ _ _ _ Sg1 Iy).
           ++ apply SO. intros ->. tauto.
        -- lia.
        -- destruct (F2 tmp) as (-> & _). rewrite N.eqb_refl.
           eapply seg_transfer; [|exact C2]. intros y Iy. split.
           ++ rewrite V2. apply (seg_valid _ _ _ _ _ C2 Iy).
           ++ apply SO. intros ->. tauto.
      * intros i y Iy. apply (sh_rk _ _ _ _ _ SH1). now apply INC.
    + intros E. apply app_eq_nil in E as [_ E]. discriminate.
    + rewrite !length_app. simpl. lia.
    + intros f IN.
      change (l1' ++ tmp :: t :: l2) with (l1' ++ [tmp] ++ t :: l2) in IN.
      rewrite app_assoc, map_app in IN. simpl map in IN.
      apply incr_remove in IN. rewrite <- map_app, <- app_assoc in IN.
      exact IN.
    + split; [exact V2|]. split.
      * intros w. destruct (F2 w) as (_ & A & B & C & D). auto.
      * split; [|auto]. intros w Nw. apply SO. intros ->. apply Nw.
        apply in_or_app. simpl. auto.
Qed.

End PopUnlink.

Section FirstPop.

Context {T : Type}.
Variable compare_ : T -> T -> bool.
Variable _id : T -> size_type.
Variable indeterminate : size_type.

Hypothesis compare_irrefl : forall a, compare_ a a = false.
Hypothesis compare_trans : forall a b c,
  compare_ a b = true -> compare_ b c = true -> compare_ a c = true.

(** The first two parts of [pop] on a heap built by insertions: the child
    list of [top_] is detached and [top_] leaves the root list; this goes
    through when [top_] is a root and either has a child or is the only
    root. *)
Lemma pop_relink_inserted n l (h : binomial_heap T) rs :
  inserted compare_ _id n l h -> vsize l < npos ->
  chain (data_ h) (head_ h) rs -> In (top_ h) rs ->
  (chd (data_ h) (top_ h) <> npos \/ rs = [top_ h]) ->
  exists d1 nh nhd h2,
    pop_detach h = Ok (d1, nh) /\
    dget d1 (head_ h) = Ok nhd /\
    (if right_sibling nhd =? npos then Ok (with_head (with_data h d1) nh)
     else h3 <- pop_unlink (with_data h d1) ;;
          binomial_heap_union compare_ indeterminate h3 nh) = Ok h2 /\
    (forall w, itm (data_ h2) w = itm (data_ h) w).
Proof.
  intros (roots & kids & SH & CR & IN & PO & OR & EL & VS & IT & CAP & LAST)
    V C HT CASE.
  set (d := data_ h) in *. set (t := top_ h) in *.
  assert (VN : vsize d <= npos) by lia.
  assert (VL : vsize d < npos) by lia.
  assert (ER : rs = roots).
  { eapply chain_fun; eauto. apply (sh_roots _ _ _ _ _ SH). }
  subst rs.
  assert (Vt : t < vsize d) by (eapply seg_valid; eauto).
  assert (Nt : t <> npos) by lia.
  set (K := kids t) in *.
  pose proof (sh_kids _ _ _ _ _ SH t Vt Nt) as CK0. fold K in CK0.
  pose proof (sh_decr _ _ _ _ _ SH t Vt Nt) as DK. fold K in DK.
  assert (NDK0 : NoDup K).
  { apply (map_nodup (deg d)). apply decr_nodup. now apply decr_cons in DK. }
  (* the child list is detached *)
  assert (PD : exists d1 nh, pop_detach h = Ok (d1, nh)).
  { unfold pop_detach. fold d t. destruct (dget_lt d t Vt) as [nt Gt].
    rewrite Gt. unfold bind. rewrite (chd_ok _ _ _ Gt).
    destruct (chd d t =? npos); cbn [negb]; [eauto|].
    destruct (reverse_loop_spec K (fuel_of d) d [] npos (chd d t))
      as (d' & R & _); auto.
    - reflexivity.
    - now rewrite app_nil_r.
    - unfold fuel_of. pose proof (chain_length _ _ _ NDK0 CK0). lia.
    - eauto. }
  destruct PD as (d1 & nh & PD). exists d1, nh.
  destruct (pop_detach_spec h roots kids d1 nh SH VN PD)
    as (_ & Enh & CK & V1 & F1 & FR1). fold d t K in Enh, CK, V1, F1, FR1.
  assert (LK : vsize K <= deg d t).
  { apply decr_length in DK. unfold vsize in *. now rewrite length_map in DK. }
  assert (NtK : ~ In t K).
  { intros I. apply decr_cons in DK as [_ DK']. rewrite Forall_forall in DK'.
    specialize (DK' (deg d t) (in_map _ _ _ I)). lia. }
  assert (D1 : forall w, deg d1 w = deg d w) by (intros w; now destruct (F1 w)).
  assert (I1 : forall w, itm d1 w = itm d w) by (intros w; now destruct (F1 w)).
  assert (S1 : forall w, ~ In w K -> sib d1 w = sib d w).
  { intros w Nw. unfold sib, field. now rewrite FR1. }
  assert (SH1 : shape t d1 (head_ h) roots (upd_kids kids t [])).
  { apply (shape_detach d); auto. intros w. destruct (F1 w). tauto. }
  assert (SD1 : sum_deg d1 = sum_deg d) by (apply sum_deg_ext; auto).
  assert (IK : incr (map (deg d1) (rev K))).
  { rewrite (map_ext _ _ D1), map_rev. apply decr_rev.
    now apply decr_cons in DK. }
  assert (RKK : forall i x, In x (rev K) -> ~ In x (upd_kids kids t [] i)).
  { intros i x Ix. apply in_rev in Ix. destruct (N.eq_dec i t) as [->|E].
    - rewrite upd_kids_eq. auto.
    - rewrite upd_kids_ne by auto. intros I. apply E.
      exact (sh_kk _ _ _ _ _ SH i t x I Ix). }
  assert (RKR : forall x, In x (rev K) -> ~ In x roots).
  { intros x Ix I. apply in_rev in Ix. exact (sh_rk _ _ _ _ _ SH t x I Ix). }
  assert (Vh : head_ h < vsize d1).
  { rewrite V1. eapply seg_valid; [exact C|].
    destruct roots; [destruct HT|]. unfold chain in C. simpl in C.
    destruct C as (-> & _). now left. }
  destruct (dget_lt d1 _ Vh) as [nhd GH]. exists nhd.
  rewrite (sib_ok _ _ _ GH).
  destruct (N.eqb_spec (sib d1 (head_ h)) npos) as [ES|ES].
  - eexists. split; [exact PD|]. split; [exact GH|]. split; [reflexivity|].
    exact I1.
  - (* [top_] leaves a list of several roots *)
    destruct (pop_unlink_spec h d1 roots (upd_kids kids t []))
      as (h3 & roots3 & PU & SH3 & NE3 & NT3 & INC3 & LEN3 & IN3 & V3 & F3 & SO3
          & EE3 & EI3 & ET3); auto; [lia|].
    rewrite PU. unfold bind at 1.
    assert (NK : K <> []).
    { destruct CASE as [CH|ERS].
      - intros E. rewrite E in CK0. apply chain_nil in CK0. congruence.
      - exfalso. apply ES. rewrite ERS in SH1.
        pose proof (sh_roots _ _ _ _ _ SH1) as C1. unfold chain in C1.
        simpl in C1. destruct C1 as (-> & _ & C1). exact C1. }
    assert (D3 : forall w, deg (data_ h3) w = deg d w).
    { intros w. destruct (F3 w) as (-> & _). apply D1. }
    assert (SD3 : sum_deg (data_ h3) = sum_deg d).
    { apply sum_deg_ext; [congruence|exact D3]. }
    assert (CK3 : chain (data_ h3) nh (rev K)).
    { eapply seg_transfer; [|exact CK]. intros x Ix. split.
      - rewrite V3. apply (seg_valid _ _ _ _ _ CK Ix).
      - apply SO3. now apply RKR. }
    assert (IO3 : items_ok h3).
    { intros x Vx. destruct (F3 x) as (_ & _ & _ & ->). rewrite I1, EE3.
      rewrite V3, V1 in Vx. rewrite IT by exact Vx. rewrite EL, <- VS.
      exact Vx. }
    pose proof (union_spec compare_ indeterminate h3 nh roots3 (rev K)
                  (upd_kids kids t []) t) as U.
    destruct (binomial_heap_union compare_ indeterminate h3 nh)
      as [h2|e] eqn:UE.
    + exists h2. split; [exact PD|]. split; [exact GH|].
      split; [reflexivity|]. intros w.
      rewrite (union_items _ _ _ _ _ UE). destruct (F3 w) as (_ & _ & _ & ->).
      apply I1.
    + exfalso. simpl in U.
      assert (O : match e with OobElements => ~ items_ok h3 | _ => False end).
      { apply U.
        - rewrite V3. lia.
        - exact SH3.
        - exact CK3.
        - exact NE3.
        - intros ER. apply NK. apply (f_equal (@rev _)) in ER.
          now rewrite rev_involutive in ER.
        - intros x Ix. split; [|intros i; now apply RKK].
          intros I. apply (RKR x Ix). now apply INC3.
        - rewrite SD3, V3, V1, D3. unfold credit in CR.
          unfold deg at 1 in CR. rewrite field_oob in CR by (fold d; lia).
          assert (vsize (rev K) = vsize K)
            by (unfold vsize; now rewrite length_rev).
          fold d in CR. unfold vsize at 1 in CR. rewrite <- LEN3 in CR.
          unfold vsize at 1. lia.
        - intros I. apply in_app_or in I as [I|I]; [auto|].
          apply in_rev in I. auto.
        - rewrite (map_ext _ _ D3). rewrite <- (map_ext _ _ D1).
          apply IN3. now rewrite (map_ext _ _ D1).
        - rewrite (map_ext _ _ D3). rewrite <- (map_ext _ _ D1). exact IK. }
      destruct e; auto.
Qed.

(** X18.  For an irreflexive and transitive comparator: on a heap built
    by insertions of values with distinct handles, whose [top_] is on the
    root list and has a child or is the only root, [pop] goes through.  It
    removes one value; every node but the removed one keeps its value, and
    the handle of that value still names the node; [top_] is then [-1] when
    no root is left, and otherwise a root whose value no root's value
    precedes. *)
Theorem first_pop_after_insertions n (l : list T) (h : binomial_heap T) rs :
  NoDup (map _id l) -> (forall v, In v l -> _id v < n) -> vsize l < npos ->
  run compare_ _id indeterminate (binomial_heap_new n) (map Push l) = Ok h ->
  chain (data_ h) (head_ h) rs -> In (top_ h) rs ->
  (chd (data_ h) (top_ h) <> npos \/ rs = [top_ h]) ->
  exists h',
    pop compare_ _id indeterminate h = Ok h' /\
    size h' + 1 = size h /\ vsize (data_ h') = vsize (data_ h) /\
    (forall k v, nth_error l k = Some v -> N.of_nat k <> top_ h ->
       value_at h' (N.of_nat k) = Ok v /\
       vget OobIndex (index_array h') (_id v) = Ok (N.of_nat k)) /\
    exists rs',
      chain (data_ h') (head_ h') rs' /\ ~ In (top_ h) rs' /\
      (rs' = [] -> top_ h' = npos) /\
      (rs' <> [] ->
       In (top_ h') rs' /\
       exists tv, top h' = Ok tv /\
         forall r rv, In r rs' -> value_at h' r = Ok rv ->
                      compare_ rv tv = false).
Proof.
  intros NDH Hid V R C HT CASE.
  destruct (inserted_in_order compare_ _id indeterminate compare_irrefl
              compare_trans n l NDH Hid V) as (h0 & R0 & I & HO).
  assert (h0 = h) by congruence. subst h0.
  destruct (pop_relink_inserted n l h rs I V C HT CASE)
    as (d1 & nh & nhd & h2 & PD & GH & H2 & I2).
  destruct I as (roots & kids & SH & CR & IN & PO & OR & EL & VS & IT & CAP
                 & LAST).
  destruct (pop_relink compare_ indeterminate h roots kids d1 nh nhd h2)
    as (roots2 & kids2 & SH2 & _ & _ & NT2 & V2 & Vt & EE2 & EI2); auto;
    [lia|].
  set (d := data_ h) in *. set (t := top_ h) in *.
  assert (VN : vsize d <= npos) by lia.
  assert (HN : (head_ h =? npos) = false).
  { apply N.eqb_neq. destruct rs; [destruct HT|]. unfold chain in C.
    simpl in C. destruct C as (-> & L & _). lia. }
  assert (L0 : 0 < vsize l) by (rewrite <- VS; lia).
  assert (LI : last_index l + 1 = vsize l) by (apply last_index_pos; lia).
  set (li := last_index l) in *.
  assert (Vli : li < vsize l) by lia.
  destruct (vget_lt OobElements l li Vli) as [lastv GL].
  assert (HL : vget OobIndex (index_array h) (_id lastv) = Ok li).
  { apply vget_ok in GL as [_ GL]. apply HO in GL.
    now rewrite N2Nat.id in GL. }
  assert (V2H : forall x, x < vsize d ->
            value_at h2 x = vget OobElements l x).
  { intros x Vx. rewrite value_at_itm by (rewrite V2; exact Vx).
    rewrite I2, EE2, EL. fold d. now rewrite IT. }
  (* the new top *)
  pose proof (sh_roots _ _ _ _ _ SH2) as C2.
  pose proof (sh_nodup _ _ _ _ _ SH2) as ND2.
  assert (RV2 : forall r, In r roots2 -> r < vsize d).
  { intros r Ir. rewrite <- V2. eapply seg_valid; eauto. }
  destruct (get_new_top_chain compare_ compare_irrefl compare_trans h2 roots2)
    as (tn & GT & TE & TN); auto.
  { rewrite V2. exact VN. }
  { intros r Ir. rewrite V2H by auto. apply vget_lt. rewrite <- VS. auto. }
  (* the compaction *)
  set (e1 := list_upd l (N.to_nat t) lastv).
  set (d2 := data_ h2) in *.
  destruct (dmod_lt d2 li (fun n => set_item_index n t)) as (n3 & _ & E3);
    [rewrite V2, VS; exact Vli|].
  set (d3 := list_upd d2 (N.to_nat li) (set_item_index n3 t)) in *.
  apply dmod_item in E3 as F3'. destruct F3' as [V3 F3].
  destruct (dmod_lt d3 t (fun n => set_parent n npos)) as (n4 & _ & E4);
    [lia|].
  set (d4 := list_upd d3 (N.to_nat t) (set_parent n4 npos)) in *.
  apply dmod_parent in E4 as F4'. destruct F4' as [V4 F4].
  destruct (dmod_lt d4 t (fun n => set_child n npos)) as (n5 & _ & E5);
    [lia|].
  set (d5 := list_upd d4 (N.to_nat t) (set_child n5 npos)) in *.
  apply dmod_child in E5 as F5'. destruct F5' as [V5 F5].
  destruct (dmod_lt d5 t (fun n => set_right_sibling n npos))
    as (n6 & _ & E6); [lia|].
  set (d6 := list_upd d5 (N.to_nat t) (set_right_sibling n6 npos)) in *.
  apply dmod_sibling in E6 as F6'. destruct F6' as [V6 F6].
  destruct (dmod_lt d6 t (fun n => set_degree n 0)) as (n7 & _ & E7);
    [lia|].
  set (d7 := list_upd d6 (N.to_nat t) (set_degree n7 0)) in *.
  apply dmod_degree in E7 as F7'. destruct F7' as [V7 F7].
  assert (VE1 : vsize e1 = vsize l) by (unfold e1; apply vsize_upd).
  assert (NE1 : e1 <> []).
  { intros E. rewrite E in VE1. change (vsize (@nil T)) with 0 in VE1. lia. }
  set (h' := mk_heap (removelast e1) d7 (head_ h2) tn (index_array h)).
  assert (PC : pop_compact _id (with_top h2 tn) t = Ok h').
  { unfold pop_compact.
    cbn [elements_ data_ head_ top_ index_array with_top].
    rewrite EE2, EL. fold li. rewrite GL. unfold bind at 1.
    rewrite EI2, HL. unfold bind at 1.
    rewrite vset_lt by (rewrite <- VS; exact Vt). unfold bind at 1.
    fold e1 d2. rewrite E3. unfold bind at 1. rewrite E4. unfold bind at 1.
    rewrite E5. unfold bind at 1. rewrite E6. unfold bind at 1.
    rewrite E7. unfold bind at 1. rewrite (pop_back_ok e1 NE1).
    reflexivity. }
  exists h'. split.
  { unfold pop. rewrite HN, PD. unfold bind at 1. cbv beta iota.
    cbn [data_ head_ with_data]. rewrite GH. unfold bind at 1.
    rewrite H2. unfold bind at 1. rewrite GT. unfold bind at 1.
    exact PC. }
  assert (VD7 : vsize d7 = vsize d) by congruence.
  assert (ITM7 : forall w, itm d7 w = (if w =? li then t else itm d w)).
  { intros w. destruct (F7 w) as (_ & _ & _ & _ & ->).
    destruct (F6 w) as (_ & _ & _ & _ & ->).
    destruct (F5 w) as (_ & _ & _ & _ & ->).
    destruct (F4 w) as (_ & _ & _ & _ & ->).
    destruct (F3 w) as (-> & _). now rewrite I2. }
  assert (SIB7 : forall w, w <> t -> sib d7 w = sib d2 w).
  { intros w Nw. destruct (F7 w) as (_ & _ & -> & _).
    destruct (F6 w) as (-> & _). apply N.eqb_neq in Nw. rewrite Nw.
    destruct (F5 w) as (_ & _ & -> & _).
    destruct (F4 w) as (_ & -> & _).
    destruct (F3 w) as (_ & _ & -> & _). reflexivity. }
  assert (VH : forall x, x < vsize d -> x <> t ->
            value_at h' x = vget OobElements l x).
  { intros x Vx Nx. rewrite value_at_itm by (simpl; lia).
    cbn [data_ elements_ h']. rewrite ITM7.
    destruct (N.eqb_spec x li) as [->|Nli].
    - rewrite vget_removelast by lia. unfold e1.
      rewrite vget_upd_eq by (rewrite <- VS; exact Vt). now rewrite GL.
    - rewrite IT by exact Vx. rewrite vget_removelast by lia.
      unfold e1. now rewrite vget_upd_ne by congruence. }
  split.
  { unfold size. cbn [elements_ h']. rewrite vsize_removelast by exact NE1.
    now rewrite VE1, EL. }
  split; [exact VD7|]. split.
  { intros k v Hk Nk.
    assert (Lk : (k < length l)%nat) by (apply nth_error_Some; congruence).
    split.
    - rewrite VH; [now apply vget_nth| |exact Nk].
      rewrite VS. unfold vsize. lia.
    - cbn [index_array h']. now apply HO. }
  exists roots2. split.
  { cbn [data_ head_ h']. eapply seg_transfer; [|exact C2].
    intros x Ix. split; [rewrite VD7; auto|].
    apply SIB7. intros ->. auto. }
  split; [exact NT2|]. split; [exact TE|].
  intros NE. destruct (TN NE) as (ITn & tv & GTv & MIN).
  split; [exact ITn|].
  assert (VR : forall r, In r roots2 -> value_at h' r = value_at h2 r).
  { intros r Ir. rewrite VH, V2H; auto. intros ->. auto. }
  exists tv. split.
  - unfold top. cbn [top_ h']. rewrite VR by exact ITn. exact GTv.
  - intros r rv Ir Gr. rewrite VR in Gr by exact Ir. eauto.
Qed.

End FirstPop.

(** X18 on the heap of the keys [5, 3, 8, 1, 9, 2]: the top is the node
    [3], a root with two children. *)
Lemma first_pop_after_insertions_witness :
  exists h',
    kpop six_heap = Ok h' /\
    size h' + 1 = size six_heap /\
    vsize (data_ h') = vsize (data_ six_heap) /\
    (forall k v, nth_error (keys_from 0 [5; 3; 8; 1; 9; 2]) k = Some v ->
       N.of_nat k <> top_ six_heap ->
       value_at h' (N.of_nat k) = Ok v /\
       vget OobIndex (index_array h') (handle_of v) = Ok (N.of_nat k)) /\
    exists rs',
      chain (data_ h') (head_ h') rs' /\ ~ In (top_ six_heap) rs' /\
      (rs' = [] -> top_ h' = npos) /\
      (rs' <> [] ->
       In (top_ h') rs' /\
       exists tv, top h' = Ok tv /\
         forall r rv, In r rs' -> value_at h' r = Ok rv ->
                      key_less rv tv = false).
Proof.
  apply (first_pop_after_insertions key_less handle_of 0 key_less_irrefl
           key_less_trans 6 (keys_from 0 [5; 3; 8; 1; 9; 2]) six_heap [5; 3]).
  - simpl. repeat (constructor; [simpl; intuition discriminate|]).
    constructor.
  - intros v Iv. simpl in Iv.
    repeat (destruct Iv as [<-|Iv]; [vm_compute; reflexivity|]).
    destruct Iv.
  - vm_compute. reflexivity.
  - vm_compute. reflexivity.
  - vm_compute. repeat split; reflexivity.
  - right. left. reflexivity.
  - left. vm_compute. discriminate.
Defined.

(** ** print *)

Lemma binomial_link_chd_deg d y z d' :
  binomial_link d y z = Ok d' ->
  y < vsize d /\
  forall w, chd d' w = (if w =? z then y else chd d w) /\
            (w <> z -> deg d' w = deg d w).
Proof.
  unfold binomial_link. intros H.
  bind_as H d1 E1. bind_as H nz E2. bind_as H d2 E3. bind_as H d3 E4.
  bind_as H nz' E5. split.
  - apply dmod_ok in E1 as (n & G & _). now apply dget_ok_lt in G.
  - intros w.
    apply dmod_degree in H as [_ F5]. apply dmod_child in E4 as [_ F4].
    apply dmod_sibling in E3 as [_ F3]. apply dmod_parent in E1 as [_ F1].
    split.
    + destruct (F5 w) as (_ & _ & _ & -> & _). destruct (F4 w) as (-> & _).
      destruct (w =? z); [reflexivity|].
      destruct (F3 w) as (_ & _ & -> & _).
      destruct (F1 w) as (_ & _ & -> & _). reflexivity.
    + intros Nw. destruct (F5 w) as (-> & _). apply N.eqb_neq in Nw.
      rewrite Nw. destruct (F4 w) as (_ & _ & _ & -> & _).
      destruct (F3 w) as (_ & _ & _ & -> & _).
      destruct (F1 w) as (_ & _ & _ & -> & _). reflexivity.
Qed.

Lemma link_childful d y z d' :
  vsize d <= npos -> childful d -> binomial_link d y z = Ok d' -> childful d'.
Proof.
  intros V C L w Dw. destruct (binomial_link_chd_deg _ _ _ _ L) as [Vy F].
  destruct (F w) as [A B]. rewrite A.
  destruct (N.eqb_spec w z) as [E|E]; [lia|].
  apply C. now rewrite <- B.
Qed.

Lemma childful_same d d' :
  (forall w, chd d' w = chd d w /\ deg d' w = deg d w) ->
  childful d -> childful d'.
Proof.
  intros F C w Dw. destruct (F w) as [-> E]. apply C. now rewrite <- E.
Qed.

Lemma reverse_loop_fields fuel : forall d nh p d' r,
  reverse_loop fuel d nh p = Ok (d', r) ->
  forall w, chd d' w = chd d w /\ deg d' w = deg d w.
Proof.
  induction fuel as [|fuel IH]; intros d nh p d' r H; simpl in H.
  - discriminate.
  - destruct (p =? npos); [inv H; auto|].
    bind_as H nt E0. bind_as H d1 E1. bind_as H d2 E2.
    intros w. destruct (IH _ _ _ _ _ H w) as [-> ->].
    apply dmod_sibling in E2 as [_ F2]. apply dmod_parent in E1 as [_ F1].
    destruct (F2 w) as (_ & _ & -> & -> & _).
    destruct (F1 w) as (_ & _ & -> & -> & _). auto.
Qed.

Section Childful.

Context {T : Type}.
Variable compare_ : T -> T -> bool.
Variable _id : T -> size_type.
Variable indeterminate : size_type.

Lemma union_loop_childful fuel :
  forall (h : binomial_heap T) prev x next h',
    union_loop compare_ fuel h prev x next = Ok h' ->
    vsize (data_ h) <= npos -> childful (data_ h) -> childful (data_ h').
Proof.
  induction fuel as [|fuel IH]; intros h prev x next h' H V C; simpl in H.
  - discriminate.
  - destruct (next =? npos); [now inv H|].
    bind_as H nx E0. bind_as H nn E1. bind_as H sk E2. destruct sk.
    + bind_as H nn' E3. eauto.
    + bind_as H a E3. bind_as H b E4. destruct (compare_ a b).
      * bind_as H d1 E5. bind_as H d2 E6. bind_as H nx' E7.
        apply dmod_sibling in E5 as [V5 F5].
        apply IH in H; auto; cbn [data_ with_data].
        -- apply binomial_link_vsize in E6. lia.
        -- eapply link_childful; [| |exact E6]; [lia|].
           eapply childful_same; [|exact C]. intros w.
           destruct (F5 w) as (_ & _ & A & B & _). auto.
      * bind_as H h1 E5. bind_as H d2 E6. bind_as H nx' E7.
        assert (A : vsize (data_ h1) = vsize (data_ h) /\
                    childful (data_ h1)).
        { destruct (prev =? npos).
          - inv E5. auto.
          - bind_as E5 d1 E8. inv E5. cbn [data_ with_data].
            apply dmod_sibling in E8 as [V8 F8]. split; [exact V8|].
            eapply childful_same; [|exact C]. intros w.
            destruct (F8 w) as (_ & _ & A & B & _). auto. }
        destruct A as [A1 A2].
        apply IH in H; auto; cbn [data_ with_data].
        -- apply binomial_link_vsize in E6. lia.
        -- eapply link_childful; [| |exact E6]; [lia|exact A2].
Qed.

Lemma union_childful (h : binomial_heap T) index h' :
  binomial_heap_union compare_ indeterminate h index = Ok h' ->
  vsize (data_ h) <= npos -> childful (data_ h) -> childful (data_ h').
Proof.
  unfold binomial_heap_union. intros H V C. bind_as H h1 E0. bind_as H nh E1.
  assert (C1 : childful (data_ h1)).
  { eapply childful_same; [|exact C]. intros w.
    destruct (merge_fields _ _ _ _ E0 w) as (_ & A & B & _). auto. }
  apply merge_frame in E0 as (_ & _ & _ & V1).
  destruct (right_sibling nh =? npos); [now inv H|].
  eapply union_loop_childful; eauto. lia.
Qed.

Lemma push_childful (h : binomial_heap T) d h' :
  push compare_ _id indeterminate h d = Ok h' ->
  vsize (data_ h) < npos -> childful (data_ h) -> childful (data_ h').
Proof.
  intros H V C. unfold push in H. bind_as H r E0. destruct r as [h1 idx].
  destruct (push_node_ok _id _ _ _ _ E0 V) as (-> & D1 & _).
  assert (C1 : childful (data_ h1)).
  { rewrite D1. intros w Dw.
    destruct (N.lt_trichotomy w (vsize (data_ h))) as [L|[->|L]].
    - unfold chd, deg in *. rewrite field_app_l in * by exact L. now apply C.
    - unfold deg in Dw. rewrite field_app_last in Dw. simpl in Dw. congruence.
    - unfold deg in Dw. rewrite field_oob in Dw; [congruence|].
      rewrite vsize_snoc. lia. }
  assert (V1 : vsize (data_ h1) <= npos) by (rewrite D1, vsize_snoc; lia).
  destruct (head_ h1 =? npos).
  - inv H. exact C1.
  - bind_as H h2 E2. bind_as H a E3. bind_as H b E4.
    apply union_childful in E2; auto.
    destruct (compare_ a b); inv H; exact E2.
Qed.

Lemma pop_childful (h : binomial_heap T) h' :
  pop compare_ _id indeterminate h = Ok h' ->
  vsize (data_ h) <= npos -> childful (data_ h) -> childful (data_ h').
Proof.
  intros H V C. unfold pop in H.
  destruct (head_ h =? npos); [now inv H|].
  bind_as H r E0. destruct r as [d1 nh]. bind_as H nhd E1. bind_as H h2 E2.
  bind_as H tn E3.
  assert (A1 : vsize d1 = vsize (data_ h) /\ childful d1).
  { unfold pop_detach in E0. bind_as E0 nt E4.
    destruct (negb (child nt =? npos)).
    - split; [now apply reverse_loop_vsize in E0|].
      eapply childful_same; [|exact C].
      eapply reverse_loop_fields; eauto.
    - inv E0. auto. }
  destruct A1 as [V1 C1].
  assert (A2 : vsize (data_ h2) <= npos /\ childful (data_ h2)).
  { destruct (right_sibling nhd =? npos).
    - inv E2. cbn [data_ with_head with_data]. split; [lia|exact C1].
    - bind_as E2 h3 E4.
      assert (A3 : vsize (data_ h3) = vsize d1 /\ childful (data_ h3)).
      { unfold pop_unlink in E4. bind_as E4 n0 E5.
        cbn [data_ head_ top_ with_data] in *.
        destruct (head_ h =? top_ h).
        - inv E4. auto.
        - bind_as E4 tmp E6. bind_as E4 nt E7. bind_as E4 d2 E8. inv E4.
          cbn [data_ with_data]. apply dmod_sibling in E8 as [V8 F8].
          split; [exact V8|]. eapply childful_same; [|exact C1]. intros w.
          destruct (F8 w) as (_ & _ & A & B & _). auto. }
      destruct A3 as [V3 C3].
      apply union_frame in E2 as F; [|exact _id].
      destruct F as (_ & _ & _ & V2).
      split; [lia|]. eapply union_childful; eauto. lia. }
  destruct A2 as [V2 C2].
  unfold pop_compact in H.
  bind_as H lst E4. bind_as H index E5. bind_as H e1 E6.
  bind_as H d3 E7. bind_as H d4 E8. bind_as H d5 E9. bind_as H d6 E10.
  bind_as H d7 E11. bind_as H e2 E12. inv H. cbn [data_ with_top] in *.
  apply dmod_item in E7 as [_ F7]. apply dmod_parent in E8 as [_ F8].
  apply dmod_child in E9 as [_ F9]. apply dmod_sibling in E10 as [_ F10].
  apply dmod_degree in E11 as [_ F11].
  intros w Dw. destruct (F11 w) as (D11 & _ & _ & -> & _).
  rewrite D11 in Dw. destruct (w =? top_ h) eqn:Ew; [congruence|].
  destruct (F10 w) as (_ & _ & -> & D10 & _). rewrite D10 in Dw.
  destruct (F9 w) as (-> & _ & _ & D9 & _). rewrite Ew. rewrite D9 in Dw.
  destruct (F8 w) as (_ & _ & -> & D8 & _). rewrite D8 in Dw.
  destruct (F7 w) as (_ & _ & _ & -> & D7). rewrite D7 in Dw.
  now apply C2.
Qed.

(** In every reachable state a node with a degree other than [0] has a
    child. *)
Lemma reachable_childful n (h : binomial_heap T) :
  reachable compare_ _id indeterminate n h ->
  vsize (data_ h) < npos -> childful (data_ h).
Proof.
  induction 1 as [|h o h' R IH S]; intros V.
  - intros w Dw. exfalso. apply Dw. unfold deg. apply field_oob.
    apply N.le_0_l.
  - pose proof (step_data_size _ _ _ _ _ _ S) as L.
    assert (C : childful (data_ h)) by (apply IH; lia).
    destruct o; simpl in S.
    + eapply push_childful; eauto. apply push_data_size in S. lia.
    + apply update_frame in S as [-> _]. exact C.
    + eapply pop_childful; eauto. lia.
Qed.

End Childful.

Lemma count_endl_app {T : Type} (a b : list (token T)) :
  count_endl (a ++ b) = (count_endl a + count_endl b)%nat.
Proof.
  induction a as [|t a IH]; simpl; [reflexivity|].
  destruct t; simpl; auto.
Qed.

Lemma plain_app {T : Type} (h : binomial_heap T) a b :
  plain h a -> plain h b -> plain h (a ++ b).
Proof.
  intros [A1 A2] [B1 B2]. split.
  - rewrite count_endl_app. lia.
  - intros v I. apply in_app_or in I as [I|I]; auto.
Qed.

Section PrintTotal.

Context {T : Type}.
Variable h : binomial_heap T.
Variable kids : size_type -> list size_type.
Hypothesis V : vsize (data_ h) < npos.
Hypothesis SK : forall i, i < vsize (data_ h) ->
                chain (data_ h) (chd (data_ h) i) (kids i).
Hypothesis DE : forall i, i < vsize (data_ h) ->
                decr (deg (data_ h) i :: map (deg (data_ h)) (kids i)).
Hypothesis CF : childful (data_ h).
Hypothesis IT : items_ok h.

Lemma value_at_stored x :
  x < vsize (data_ h) -> exists v, value_at h x = Ok v /\ In v (elements_ h).
Proof.
  intros Vx. rewrite value_at_itm by exact Vx.
  destruct (vget_lt OobElements (elements_ h) _ (IT x Vx)) as [v G].
  exists v. split; [exact G|]. apply vget_ok in G as [_ G].
  eapply nth_error_In; eauto.
Qed.



Lemma print_recur_node m x fuel :
  children_ok h m ->
  x < vsize (data_ h) -> (N.to_nat (deg (data_ h) x) <= m)%nat ->
  (2 * m + 1 <= fuel)%nat ->
  exists out, print_recur fuel h x = Ok out /\ plain h out.
Proof.
  intros B Vx Dx F. destruct fuel as [|f]; [lia|]. simpl.
  destruct (N.eqb_spec x npos) as [E|_]; [lia|].
  destruct (value_at_stored x Vx) as (v & -> & Iv).
  destruct (dget_lt _ _ Vx) as [nx G]. rewrite G. unfold bind.
  rewrite (deg_ok _ _ _ G), (chd_ok _ _ _ G).
  destruct (0 <? deg (data_ h) x) eqn:Z.
  - apply N.ltb_lt in Z.
    assert (C : chd (data_ h) x <> npos) by (apply CF; lia).
    destruct (chain_cons _ _ _ (N.lt_le_incl _ _ V) C (SK x Vx))
      as (l' & EL & Vc & CH).
    pose proof (DE x Vx) as D. rewrite EL in D. simpl in D.
    apply StronglySorted_inv in D as [D1 D2].
    apply Forall_inv in D2.
    destruct (B (kids x) (chd (data_ h) x) f) as (body & -> & P1 & P2);
      try lia.
    + exact (SK x Vx).
    + rewrite EL. exact D1.
    + eexists. split; [reflexivity|]. split.
      * simpl. rewrite count_endl_app. simpl. lia.
      * intros w [I|[I|I]]; [inv I; exact Iv|discriminate|].
        apply in_app_or in I as [I|[I|[]]]; [auto|discriminate].
  - eexists. split; [reflexivity|]. split; [reflexivity|].
    intros w [I|[]]. inv I. exact Iv.
Qed.

Lemma print_children_all m : children_ok h m.
Proof.
  induction m as [|m IH]; intros l i fuel CH Ni D Di F; [lia|].
  destruct fuel as [|f]; [lia|]. simpl.
  destruct (chain_cons _ _ _ (N.lt_le_incl _ _ V) Ni CH)
    as (l' & -> & Vi & CH').
  destruct (print_recur_node m i f IH Vi) as (a & -> & Pa); try lia.
  destruct (dget_lt _ _ Vi) as [ni G]. rewrite G. unfold bind.
  rewrite (sib_ok _ _ _ G).
  assert (PS : plain h [@Tspace T]).
  { split; [reflexivity|]. intros w [I|[]]. discriminate. }
  destruct (N.eqb_spec (sib (data_ h) i) npos) as [E|E].
  - eexists. split; [reflexivity|]. now apply plain_app.
  - destruct (chain_cons _ _ _ (N.lt_le_incl _ _ V) E CH')
      as (l'' & EL & Vs & CH'').
    simpl in D. apply StronglySorted_inv in D as [D1 D2].
    rewrite EL in D2. simpl in D2. apply Forall_inv in D2.
    destruct (IH l' (sib (data_ h) i) f CH' E D1) as (rest & -> & Pr);
      try lia.
    eexists. split; [reflexivity|].
    apply plain_app; [exact Pa|]. now apply (plain_app h [Tspace]).
Qed.

Lemma print_recur_total x :
  x < vsize (data_ h) -> sum_deg (data_ h) <= vsize (data_ h) ->
  exists out, print_recur (print_fuel (data_ h)) h x = Ok out /\ plain h out.
Proof.
  intros Vx S.
  apply (print_recur_node (length (data_ h))); auto.
  - apply print_children_all.
  - pose proof (deg_le_sum (data_ h) x). unfold vsize in S. lia.
  - unfold print_fuel. lia.
Qed.

Lemma print_roots_total :
  sum_deg (data_ h) <= vsize (data_ h) ->
  forall l i fuel,
    chain (data_ h) i l -> i <> npos -> (length l <= fuel)%nat ->
    exists out,
      print_roots fuel h i = Ok out /\ count_endl out = length l /\
      forall v, In (Tval v) out -> In v (elements_ h).
Proof.
  intros S. induction l as [|x l IH]; intros i fuel CH Ni F.
  - apply chain_nil in CH. congruence.
  - destruct (chain_cons _ _ _ (N.lt_le_incl _ _ V) Ni CH)
      as (l' & EL & Vi & CH').
    injection EL as -> <-.
    destruct fuel as [|f]; [simpl in F; lia|]. cbn [print_roots].
    destruct (print_recur_total i Vi S) as (a & -> & P1 & P2).
    destruct (dget_lt _ _ Vi) as [ni G]. rewrite G. unfold bind.
    rewrite (sib_ok _ _ _ G).
    destruct (N.eqb_spec (sib (data_ h) i) npos) as [E|E].
    + rewrite E in CH'.
      apply chain_npos in CH'; [|lia]. subst l.
      eexists. split; [reflexivity|]. split.
      * rewrite count_endl_app. simpl. lia.
      * intros w I. apply in_app_or in I as [I|[I|[]]]; [auto|discriminate].
    + destruct (IH (sib (data_ h) i) f CH' E) as (rest & -> & R1 & R2);
        [simpl in F; lia|].
      eexists. split; [reflexivity|]. split.
      * rewrite count_endl_app. simpl. lia.
      * intros w I. apply in_app_or in I as [I|[I|I]];
          [auto|discriminate|auto].
Qed.

End PrintTotal.

Section PrintReachable.

Context {T : Type}.
Variable compare_ : T -> T -> bool.
Variable _id : T -> size_type.
Variable indeterminate : size_type.

(** X19. [print]: in a state reached from a new heap whose nodes all refer
    to stored values, [print] ends without an access out of bounds, writes
    one line for each node of the root list, and writes stored values
    only. *)
Theorem print_writes_one_line_per_root n (h : binomial_heap T) :
  reachable compare_ _id indeterminate n h ->
  vsize (data_ h) < npos -> items_ok h ->
  exists roots out,
    chain (data_ h) (head_ h) roots /\
    print h = Ok out /\
    count_endl out = length roots /\
    forall v, In (Tval v) out -> In v (elements_ h).
Proof.
  intros R V IT.
  destruct (reachable_forest _ _ _ _ _ R V) as (roots & kids & SH & CR & _).
  pose proof (reachable_childful _ _ _ _ _ R V) as CF.
  assert (S : sum_deg (data_ h) <= vsize (data_ h)).
  { unfold credit in CR. unfold deg in CR at 1.
    rewrite field_oob in CR by lia. lia. }
  exists roots. unfold print.
  destruct (N.eqb_spec (head_ h) npos) as [E|E].
  - exists []. pose proof (sh_roots _ _ _ _ _ SH) as C. rewrite E in C.
    apply chain_npos in C; [|lia]. subst roots.
    rewrite E. split; [reflexivity|]. split; [reflexivity|].
    split; [reflexivity|]. intros v [].
  - assert (SK : forall i, i < vsize (data_ h) ->
                 chain (data_ h) (chd (data_ h) i) (kids i)).
    { intros i Vi. apply (sh_kids _ _ _ _ _ SH); lia. }
    assert (DE : forall i, i < vsize (data_ h) ->
                 decr (deg (data_ h) i :: map (deg (data_ h)) (kids i))).
    { intros i Vi. apply (sh_decr _ _ _ _ _ SH); lia. }
    destruct (print_roots_total h kids V SK DE CF IT S roots (head_ h)
                (fuel_of (data_ h))) as (out & P & Q1 & Q2); auto.
    + exact (sh_roots _ _ _ _ _ SH).
    + unfold fuel_of.
      pose proof (chain_length _ _ _ (sh_nodup _ _ _ _ _ SH)
                    (sh_roots _ _ _ _ _ SH)). lia.
    + exists out. split; [exact (sh_roots _ _ _ _ _ SH)|auto].
Qed.

End PrintReachable.

(** X19 on the heap of six keys: two trees, so two lines. *)
Lemma print_writes_one_line_per_root_witness :
  exists roots out,
    chain (data_ six_heap) (head_ six_heap) roots /\
    print six_heap = Ok out /\
    count_endl out = length roots /\
    forall v, In (Tval v) out -> In v (elements_ six_heap).
Proof.
  apply (print_writes_one_line_per_root key_less handle_of 0 6 six_heap).
  - apply (run_reachable key_less handle_of 0 6 six_keys
             (binomial_heap_new 6)); [apply reach_new|vm_compute; reflexivity].
  - vm_compute. reflexivity.
  - exact six_heap_items_ok.
Defined.
